(** * szstd: seekable zstd streams (seek table, writer and reader)

    A shallow embedding of [seektable/table.go], the seek-table codec, the
    frame-splitting writer and the seekable reader, with the properties of
    the specification stated and settled against it.

    Conventions.
    - Go's [int] is taken to be 64 bits wide.  Lengths of slices always fit,
      so they are plain [Z]; [uint32] and [uint64] arithmetic is written
      with its wrap-around ([u32], [u64]).
    - A call that panics in Go (index or slice expression out of range)
      yields [Panic]; loops that are not bounded [for] loops run on fuel
      and yield [OutOfFuel] when it is exhausted.
    - Go [error] values are ordinary return values ([option error]). *)

From Stdlib Require Import ZArith List Lia Bool.
From Stdlib Require Import Strings.Byte.
From Stdlib Require Strings.String.
Import String.StringSyntax.
Import ListNotations.

Local Open Scope string_scope.
Local Open Scope list_scope.
Local Open Scope Z_scope.

(* ------------------------------------------------------------------ *)
(** ** Outcomes of a call *)

Inductive outcome (A : Type) : Type :=
| Done (a : A)
| Panic
| OutOfFuel.

Arguments Done {A} a.
Arguments Panic {A}.
Arguments OutOfFuel {A}.

Definition bind {A B : Type} (m : outcome A) (k : A -> outcome B) : outcome B :=
  match m with
  | Done a => k a
  | Panic => Panic
  | OutOfFuel => OutOfFuel
  end.

Notation "x <- m ;; k" := (bind m (fun x => k))
  (at level 61, m at next level, right associativity).

(* ------------------------------------------------------------------ *)
(** ** Machine integers and bytes *)

Definition u32 (z : Z) : Z := z mod 4294967296.
Definition u64 (z : Z) : Z := z mod 18446744073709551616.

Definition Z_of_byte (b : byte) : Z := Z.of_N (Byte.to_N b).

(** Go's conversion [byte(v)]: the low eight bits. *)
Definition byte_of_Z (z : Z) : byte :=
  match Byte.of_N (Z.to_N (z mod 256)) with
  | Some b => b
  | None => x00
  end.

Definition len {A : Type} (l : list A) : Z := Z.of_nat (length l).

(** The slice expression [l[lo:hi]]; out of the slice's length it panics
    (Go allows [hi] up to the capacity; capacity is taken equal to length). *)
Definition slice {A : Type} (l : list A) (lo hi : Z) : outcome (list A) :=
  if (0 <=? lo) && (lo <=? hi) && (hi <=? len l)
  then Done (firstn (Z.to_nat (hi - lo)) (skipn (Z.to_nat lo) l))
  else Panic.

(** The index expression [l[i]]. *)
Definition item {A : Type} (l : list A) (i : Z) : outcome A :=
  if (0 <=? i) && (i <? len l)
  then match nth_error l (Z.to_nat i) with
       | Some a => Done a
       | None => Panic
       end
  else Panic.

(** [binary.LittleEndian.Uint32] on a four-byte slice. *)
Definition Uint32 (b : list byte) : Z :=
  Z_of_byte (nth 0 b x00)
  + 256 * Z_of_byte (nth 1 b x00)
  + 65536 * Z_of_byte (nth 2 b x00)
  + 16777216 * Z_of_byte (nth 3 b x00).

(** The four bytes [binary.LittleEndian.PutUint32] stores for [v]. *)
Definition PutUint32 (v : Z) : list byte :=
  [ byte_of_Z v; byte_of_Z (v / 256);
    byte_of_Z (v / 65536); byte_of_Z (v / 16777216) ].

(** Storing [bs] into [l[lo : lo + len bs]] in place. *)
Definition store (l : list byte) (lo : Z) (bs : list byte) : outcome (list byte) :=
  if (0 <=? lo) && (lo + len bs <=? len l)
  then Done (firstn (Z.to_nat lo) l ++ bs ++ skipn (Z.to_nat (lo + len bs)) l)
  else Panic.

(* ------------------------------------------------------------------ *)
(** ** The seek table ([seektable/table.go]) *)

Record TableEntry : Type := mkEntry {
  CompressedSize : Z;    (* uint32 *)
  DecompressedSize : Z   (* uint32 *)
}.

Record TableOffset : Type := mkOffset {
  EntryIndex : Z;                 (* int *)
  EntryOffsetInCompressed : Z;    (* uint64 *)
  EntryOffsetInDecompressed : Z   (* uint64 *)
}.

(** [cached] is the state of the [sync.Once]: [true] once it has run. *)
Record Table : Type := mkTable {
  entries : list byte;
  cached : bool;
  cachedOffsets : list TableOffset
}.

(** The zero value [Table{}]. *)
Definition emptyTable : Table := mkTable [] false [].

Definition entry_in_range (e : TableEntry) : Prop :=
  0 <= CompressedSize e < 4294967296 /\ 0 <= DecompressedSize e < 4294967296.

Definition GetEntry (t : Table) (index : Z) : outcome TableEntry :=
  let offset := index * 8 in
  c <- slice (entries t) offset (offset + 4) ;;
  d <- slice (entries t) (offset + 4) (offset + 8) ;;
  Done (mkEntry (Uint32 c) (Uint32 d)).

Definition NumEntries (t : Table) : Z := len (entries t) / 8.

Definition SetEntry (t : Table) (index : Z) (entry : TableEntry) : outcome Table :=
  let offset := index * 8 in
  e1 <- store (entries t) offset (PutUint32 (CompressedSize entry)) ;;
  e2 <- store e1 (offset + 4) (PutUint32 (DecompressedSize entry)) ;;
  Done (mkTable e2 (cached t) (cachedOffsets t)).

Definition AppendEntry (t : Table) (entry : TableEntry) : outcome Table :=
  let t1 := mkTable (entries t ++ [x00; x00; x00; x00; x00; x00; x00; x00])
                    (cached t) (cachedOffsets t) in
  SetEntry t1 (NumEntries t1 - 1) entry.

Definition Size (t : Table) : Z := len (entries t) + 8 + 9.

(** The body of the [for] loop of [CacheOffsets]: [k] iterations are left,
    [i] is the loop variable, [cOff] and [dOff] the two running totals. *)
Fixpoint CacheOffsets_loop (t : Table) (k : nat) (i cOff dOff : Z)
  : outcome (list TableOffset) :=
  match k with
  | O => Done []
  | S k' =>
      entry <- GetEntry t i ;;
      rest <- CacheOffsets_loop t k' (i + 1)
                (u64 (cOff + CompressedSize entry))
                (u64 (dOff + DecompressedSize entry)) ;;
      Done (mkOffset i cOff dOff :: rest)
  end.

Definition computeOffsets (t : Table) : outcome (list TableOffset) :=
  CacheOffsets_loop t (Z.to_nat (NumEntries t)) 0 0 0.

(** [sync.Once]: the closure runs on the first call only. *)
Definition CacheOffsets (t : Table) : outcome Table :=
  if cached t then Done t
  else offsets <- computeOffsets t ;;
       Done (mkTable (entries t) true offsets).

Definition OffsetsByIndex (t : Table) (i : Z) : outcome (Table * TableOffset) :=
  t' <- CacheOffsets t ;;
  o <- item (cachedOffsets t') i ;;
  Done (t', o).

Definition zeroOffset : TableOffset := mkOffset 0 0 0.

(** The linear scan of [Find]; [&&] does not evaluate [GetEntry] when its
    left operand is false. *)
Fixpoint Find_linear (t : Table) (offs : list TableOffset) (offset : Z)
  : outcome (TableOffset * bool) :=
  match offs with
  | [] => Done (zeroOffset, false)
  | to :: rest =>
      if EntryOffsetInDecompressed to <=? offset then
        e <- GetEntry t (EntryIndex to) ;;
        if offset <? u64 (EntryOffsetInDecompressed to + DecompressedSize e)
        then Done (to, true)
        else Find_linear t rest offset
      else Find_linear t rest offset
  end.

(** The binary search of [Find], on fuel. *)
Fixpoint Find_binary_loop (fuel : nat) (t : Table) (offset low high : Z)
  : outcome (TableOffset * bool) :=
  if low <=? high then
    match fuel with
    | O => OutOfFuel
    | S fuel' =>
        let mid := (low + high) / 2 in
        to <- item (cachedOffsets t) mid ;;
        entry <- GetEntry t (EntryIndex to) ;;
        if (EntryOffsetInDecompressed to <=? offset)
           && (offset <? u64 (EntryOffsetInDecompressed to + DecompressedSize entry))
        then Done (to, true)
        else if offset <? EntryOffsetInDecompressed to
        then Find_binary_loop fuel' t offset low (mid - 1)
        else Find_binary_loop fuel' t offset (mid + 1) high
    end
  else Done (zeroOffset, false).

Definition Find_binary (t : Table) (offset : Z) : outcome (TableOffset * bool) :=
  Find_binary_loop (S (length (cachedOffsets t))) t offset
                   0 (len (cachedOffsets t) - 1).

(** [Find] returns the table as [CacheOffsets] left it and the result. *)
Definition Find (t : Table) (offset : Z) : outcome (Table * (TableOffset * bool)) :=
  t' <- CacheOffsets t ;;
  r <- (if len (cachedOffsets t') <? 32
        then Find_linear t' (cachedOffsets t') offset
        else Find_binary t' offset) ;;
  Done (t', r).

(* ------------------------------------------------------------------ *)
(** ** Errors and the host's byte streams *)

Inductive error : Type :=
| EOF
| ErrUnexpectedEOF
| ErrNegativePosition
| ErrInvalidWhence
| ErrShortWrite
| ErrInvalidSeekTable
| ErrInvalidSeekTableFooterMagicNumber
| ErrInvalidSeekTableHeaderMagicNumber
| ErrSeekTableSizeMismatch
| New (msg : String.string)          (* errors.New, fmt.Errorf *)
| Join (e1 e2 : error).       (* errors.Join *)

(** A call returning [(T, error)] with a nil or non-nil error. *)
Inductive res (A : Type) : Type :=
| Ok (a : A)
| Err (e : error).

Arguments Ok {A} a.
Arguments Err {A} e.

Definition SeekStart : Z := 0.
Definition SeekCurrent : Z := 1.
Definition SeekEnd : Z := 2.

(** [io.Writer]: the new state of the sink, the count and the error. *)
Class Writer (W : Type) : Type := {
  io_Write : W -> list byte -> W * (Z * option error)
}.

(** [io.ReadSeeker], with [io.ReadFull] as the read primitive: the bytes
    read and the error. *)
Class ReadSeeker (R : Type) : Type := {
  io_Seek : R -> Z -> Z -> R * (Z * option error);
  io_ReadFull : R -> Z -> R * (list byte * option error)
}.

(** [bytes.Buffer] as a sink: every write is accepted whole. *)
Record Buffer : Type := mkBuffer { buf_bytes : list byte }.

#[export] Instance Buffer_Writer : Writer Buffer := {
  io_Write b p := (mkBuffer (buf_bytes b ++ p), (len p, None))
}.

(** A sink with room for [room] more bytes (a full disk, a quota): a write
    that does not fit stores what fits and reports [ErrShortWrite]. *)
Record LimitedSink : Type := mkLimited { lim_bytes : list byte; room : Z }.

#[export] Instance LimitedSink_Writer : Writer LimitedSink := {
  io_Write s p :=
    if len p <=? room s
    then (mkLimited (lim_bytes s ++ p) (room s - len p), (len p, None))
    else (mkLimited (lim_bytes s ++ firstn (Z.to_nat (room s)) p) 0,
          (Z.max 0 (room s), Some ErrShortWrite))
}.

(** [bytes.Reader]: the bytes and the read position. *)
Record BytesReader : Type := mkBytesReader { rd_s : list byte; rd_i : Z }.

Definition NewReader (s : list byte) : BytesReader := mkBytesReader s 0.

Definition BytesReader_Seek (r : BytesReader) (offset whence : Z)
  : BytesReader * (Z * option error) :=
  if (whence =? SeekStart) || (whence =? SeekCurrent) || (whence =? SeekEnd) then
    let abs := if whence =? SeekStart then offset
               else if whence =? SeekCurrent then rd_i r + offset
               else len (rd_s r) + offset in
    if abs <? 0 then (r, (0, Some ErrNegativePosition))
    else (mkBytesReader (rd_s r) abs, (abs, None))
  else (r, (0, Some ErrInvalidWhence)).

(** [io.ReadFull] on a [bytes.Reader] for a buffer of [n] bytes. *)
Definition BytesReader_ReadFull (r : BytesReader) (n : Z)
  : BytesReader * (list byte * option error) :=
  if n <=? 0 then (r, ([], None))
  else if len (rd_s r) <=? rd_i r then (r, ([], Some EOF))
  else
    let rest := skipn (Z.to_nat (rd_i r)) (rd_s r) in
    if n <=? len rest
    then (mkBytesReader (rd_s r) (rd_i r + n), (firstn (Z.to_nat n) rest, None))
    else (mkBytesReader (rd_s r) (len (rd_s r)), (rest, Some ErrUnexpectedEOF)).

#[export] Instance BytesReader_ReadSeeker : ReadSeeker BytesReader := {
  io_Seek := BytesReader_Seek;
  io_ReadFull := BytesReader_ReadFull
}.

(* ------------------------------------------------------------------ *)
(** ** The table codec ([ReadTableFromReadSeeker], [WriteTableToWriter]) *)

Definition headerMagicNumber : Z := 0x184D2A5E.
Definition footerMagicNumber : Z := 0x8F92EAB1.

Definition ErrEmptyChunk : error :=
  Join ErrInvalidSeekTable (New "seek table contains empty chunk entry").

(** The emptiness loop over the entries read: [i] is the loop variable
    (a [uint32], stepping by four), the body looks at [entriesData[0..3]]. *)
Fixpoint emptyCheck_loop (fuel : nat) (entriesData : list byte) (numEntries i : Z)
  : outcome (option error) :=
  if i <? numEntries then
    match fuel with
    | O => OutOfFuel
    | S fuel' =>
        let next := emptyCheck_loop fuel' entriesData numEntries (u32 (i + 4)) in
        b0 <- item entriesData 0 ;;
        if Byte.eqb b0 x00 then
          b1 <- item entriesData 1 ;;
          if Byte.eqb b1 x00 then
            b2 <- item entriesData 2 ;;
            if Byte.eqb b2 x00 then
              b3 <- item entriesData 3 ;;
              if Byte.eqb b3 x00 then Done (Some ErrEmptyChunk) else next
            else next
          else next
        else next
    end
  else Done None.

Section Codec.
Context {R : Type} `{ReadSeeker R} {W : Type} `{Writer W}.

Definition ReadTableFromReadSeeker (data : R) : outcome (R * res Table) :=
  let '(data, (_, err)) := io_Seek data (-9) SeekEnd in
  match err with
  | Some e => Done (data, Err (Join (New "error while seeking to seek table footer") e))
  | None =>
  let '(data, (footer, err)) := io_ReadFull data 9 in
  match err with
  | Some e => Done (data, Err (Join (New "error while reading seek table footer") e))
  | None =>
  let numEntries := Uint32 (firstn 4 footer) in
  if negb (Uint32 (skipn 5 footer) =? footerMagicNumber)
  then Done (data, Err (Join ErrInvalidSeekTable ErrInvalidSeekTableFooterMagicNumber))
  else
  let seekTableSize := u32 (u32 (8 + u32 (numEntries * 8)) + 9) in
  let '(data, (_, err)) := io_Seek data (- seekTableSize) SeekEnd in
  match err with
  | Some e => Done (data, Err (Join (New "error while seeking to seek table start") e))
  | None =>
  let '(data, (header, err)) := io_ReadFull data 8 in
  match err with
  | Some e => Done (data, Err (Join (New "error while reading seek table header") e))
  | None =>
  if negb (Uint32 (firstn 4 header) =? headerMagicNumber)
  then Done (data, Err (Join ErrInvalidSeekTable ErrInvalidSeekTableHeaderMagicNumber))
  else
  let frameSize := Uint32 (skipn 4 header) in
  if negb (frameSize =? u32 (u32 (numEntries * 8) + 9))
  then Done (data, Err (Join ErrInvalidSeekTable ErrSeekTableSizeMismatch))
  else
  let '(data, (entriesData, err)) := io_ReadFull data (u32 (numEntries * 8)) in
  match err with
  | Some e => Done (data, Err (Join (New "error while reading seek table entries") e))
  | None =>
  chk <- emptyCheck_loop (S (Z.to_nat (numEntries / 4))) entriesData numEntries 0 ;;
  match chk with
  | Some e => Done (data, Err e)
  | None => Done (data, Ok (mkTable entriesData false []))
  end
  end end end end end.

Definition WriteTableToWriter (t : Table) (w : W) : W * (Z * option error) :=
  let header := PutUint32 0x184D2A5E ++ PutUint32 (u32 (len (entries t) + 9)) in
  let '(w, (headerBytes, err)) := io_Write w header in
  match err with
  | Some e => (w, (headerBytes, Some (Join (New "error while writing seek table header") e)))
  | None =>
  let '(w, (entriesBytes, err)) := io_Write w (entries t) in
  match err with
  | Some e => (w, (headerBytes + entriesBytes,
                   Some (Join (New "error while writing seek table entries") e)))
  | None =>
  let footer := PutUint32 (u32 (NumEntries t)) ++ [x00] ++ PutUint32 footerMagicNumber in
  let '(w, (footerBytes, err)) := io_Write w footer in
  match err with
  | Some e => (w, (headerBytes + entriesBytes + footerBytes,
                   Some (Join (New "error while writing seek table footer") e)))
  | None => (w, (headerBytes + entriesBytes + footerBytes, None))
  end end end.
End Codec.

(* ------------------------------------------------------------------ *)
(** ** The frame-splitting writer *)

Definition i64 (z : Z) : Z :=
  (z + 9223372036854775808) mod 18446744073709551616 - 9223372036854775808.

Module SzWriter.

(** The [writer] struct; the encoder is the function [EncodeAll] below. *)
Record writer (W : Type) : Type := mkWriter {
  w : W;
  frameSize : Z;                 (* int *)
  frameBuffer : list byte;
  encoderBuffer : list byte;
  seekTable : Table;
  isClosed : bool
}.

Arguments mkWriter {W}.
Arguments w {W}.
Arguments frameSize {W}.
Arguments frameBuffer {W}.
Arguments encoderBuffer {W}.
Arguments seekTable {W}.
Arguments isClosed {W}.

Section Methods.
Context {W : Type} `{Writer W}.

(** The block codec: [encoder.EncodeAll(src, dst[:0])]. *)
Variable EncodeAll : list byte -> list byte.

(** [encoderErr] is what [zstd.NewWriter] returned for the options;
    [make] with a negative capacity panics. *)
Definition NewWriter (sink : W) (frameSize : Z) (encoderErr : option error)
  : outcome (res (writer W)) :=
  match encoderErr with
  | Some e => Done (Err (Join (New "failed to create zstd encoder") e))
  | None =>
      if frameSize <? 0 then Panic
      else Done (Ok (mkWriter sink frameSize [] [] emptyTable false))
  end.

Fixpoint Write_loop (fuel : nat) (c : writer W) (data : list byte) (n : Z)
  : outcome (writer W * (Z * option error)) :=
  if 0 <? len data then
    match fuel with
    | O => OutOfFuel
    | S fuel' =>
        if (len (frameBuffer c) =? 0) && (frameSize c <=? len data) then
          (* fast path *)
          toEncode <- slice data 0 (frameSize c) ;;
          data' <- slice data (frameSize c) (len data) ;;
          let enc := EncodeAll toEncode in
          let '(sink, (written, err)) := io_Write (w c) enc in
          match err with
          | Some e =>
              Done (mkWriter sink (frameSize c) (frameBuffer c) enc
                             (seekTable c) (isClosed c),
                    (n + written, Some (Join (New "error while writing frame") e)))
          | None =>
              tbl <- AppendEntry (seekTable c)
                       (mkEntry (u32 (len enc)) (u32 (len toEncode))) ;;
              Write_loop fuel'
                (mkWriter sink (frameSize c) (frameBuffer c) enc tbl (isClosed c))
                data' (n + written)
          end
        else
          (* fill frame buffer *)
          let spaceLeft := frameSize c - len (frameBuffer c) in
          let toWrite := Z.min (len data) spaceLeft in
          chunk <- slice data 0 toWrite ;;
          data' <- slice data toWrite (len data) ;;
          let fb := frameBuffer c ++ chunk in
          let n1 := n + toWrite in
          if len fb =? frameSize c then
            let enc := EncodeAll fb in
            let '(sink, (written, err)) := io_Write (w c) enc in
            match err with
            | Some e =>
                Done (mkWriter sink (frameSize c) fb enc (seekTable c) (isClosed c),
                      (n1 - toWrite + written,
                       Some (Join (New "error while writing frame") e)))
            | None =>
                tbl <- AppendEntry (seekTable c)
                         (mkEntry (u32 (len enc)) (u32 (len fb))) ;;
                Write_loop fuel'
                  (mkWriter sink (frameSize c) [] enc tbl (isClosed c))
                  data' n1
            end
          else
            Write_loop fuel'
              (mkWriter (w c) (frameSize c) fb (encoderBuffer c)
                        (seekTable c) (isClosed c))
              data' n1
    end
  else Done (c, (n, None)).

Definition Write (c : writer W) (data : list byte)
  : outcome (writer W * (Z * option error)) :=
  Write_loop (S (2 * List.length data)) c data 0.

Definition Close (c : writer W) : outcome (writer W * option error) :=
  if isClosed c then Done (c, None)
  else
    let c := mkWriter (w c) (frameSize c) (frameBuffer c) (encoderBuffer c)
                      (seekTable c) true in
    (* Write any remaining buffered data *)
    flushed <-
      (if 0 <? len (frameBuffer c) then
         let enc := EncodeAll (frameBuffer c) in
         let '(sink, (_, err)) := io_Write (w c) enc in
         match err with
         | Some e =>
             Done (mkWriter sink (frameSize c) (frameBuffer c) enc
                            (seekTable c) true,
                   Some (Join (New "error while writing final frame") e))
         | None =>
             tbl <- AppendEntry (seekTable c)
                      (mkEntry (u32 (len enc)) (u32 (len (frameBuffer c)))) ;;
             Done (mkWriter sink (frameSize c) [] enc tbl true, None)
         end
       else Done (c, None)) ;;
    match snd flushed with
    | Some e => Done flushed
    | None =>
        let c := fst flushed in
        (* Write seek table *)
        let '(sink, (_, err)) := WriteTableToWriter (seekTable c) (w c) in
        let c := mkWriter sink (frameSize c) (frameBuffer c) (encoderBuffer c)
                          (seekTable c) true in
        match err with
        | Some e => Done (c, Some (Join (New "error while writing seek table") e))
        | None => Done (c, None)
        end
    end.

(** A sequence of [Write] calls, each of which returned a nil error. *)
Fixpoint WriteAll (c : writer W) (chunks : list (list byte))
  : outcome (res (writer W)) :=
  match chunks with
  | [] => Done (Ok c)
  | data :: rest =>
      p <- Write c data ;;
      match snd (snd p) with
      | Some e => Done (Err e)
      | None => WriteAll (fst p) rest
      end
  end.
End Methods.
End SzWriter.

(* ------------------------------------------------------------------ *)
(** ** The seekable reader *)

Module SzReader.

(** The [reader] struct; the decoder and the buffers that only [Read]
    touches ([currentFrameBuffer], [currentFrameAvailable],
    [compressedDataBuffer]) are left out. *)
Record reader (R : Type) : Type := mkReader {
  r : R;
  seekTable : Table;
  offset : Z;                         (* uint64 *)
  totalCompressedDataSize : Z;        (* uint64 *)
  totalUncompressedDataSize : Z;      (* uint64 *)
  currentFrameIndex : Z;              (* int *)
  currentFrameLoaded : bool;
  currentFrameReaded : Z              (* int *)
}.

Arguments mkReader {R}.
Arguments r {R}.
Arguments seekTable {R}.
Arguments offset {R}.
Arguments totalCompressedDataSize {R}.
Arguments totalUncompressedDataSize {R}.
Arguments currentFrameIndex {R}.
Arguments currentFrameLoaded {R}.
Arguments currentFrameReaded {R}.

Section Methods.
Context {R : Type} `{ReadSeeker R}.

(** [decoderErr] is what [zstd.NewReader] returned for the options. *)
Definition NewReadSeeker (src : R) (decoderErr : option error)
  : outcome (R * res (reader R)) :=
  match decoderErr with
  | Some e => Done (src, Err (Join (New "failed to create zstd decoder") e))
  | None =>
  p <- ReadTableFromReadSeeker src ;;
  let src := fst p in
  match snd p with
  | Err e => Done (src, Err (Join (New "failed to read seek table") e))
  | Ok tbl =>
  (* Calculate total uncompressed size *)
  q <- OffsetsByIndex tbl (NumEntries tbl - 1) ;;
  let tbl := fst q in
  let lastOffsets := snd q in
  lastEntry <- GetEntry tbl (NumEntries tbl - 1) ;;
  let totalUncompressed :=
    u64 (EntryOffsetInDecompressed lastOffsets + DecompressedSize lastEntry) in
  (* Calculate total compressed size *)
  let '(src, (_, err)) := io_Seek src 0 SeekStart in
  match err with
  | Some e =>
      Done (src, Err (Join (New "failed to seek to the beginning of the data to calculate total compressed size") e))
  | None =>
  let '(src, (totalDataSize, err)) := io_Seek src 0 SeekEnd in
  match err with
  | Some e =>
      Done (src, Err (Join (New "failed to seek to end to calculate total compressed size") e))
  | None =>
  let totalCompressed := u64 (u64 totalDataSize - u64 (Size tbl)) in
  if (0 <? NumEntries tbl)
     && (totalCompressed
         <? u64 (EntryOffsetInCompressed lastOffsets + CompressedSize lastEntry))
  then Done (src, Err (New "seek table last entry size mismatch"))
  else Done (src, Ok (mkReader src tbl 0 totalCompressed totalUncompressed 0 false 0))
  end end end end.

Definition moveTo (rd : reader R) (newOffset : Z)
  : outcome (reader R * (Z * option error)) :=
  if totalUncompressedDataSize rd <? newOffset
  then Done (rd, (0, Some (New "offset beyond end of data")))
  else
    p <- Find (seekTable rd) newOffset ;;
    let rd := mkReader (r rd) (fst p) (offset rd) (totalCompressedDataSize rd)
                       (totalUncompressedDataSize rd) (currentFrameIndex rd)
                       (currentFrameLoaded rd) (currentFrameReaded rd) in
    let tableOffsets := fst (snd p) in
    if negb (snd (snd p))
    then Done (rd, (0, Some (New "offset beyond end of data")))
    else
      let frameStartOffset := EntryOffsetInDecompressed tableOffsets in
      let switch := negb (EntryIndex tableOffsets =? currentFrameIndex rd) in
      Done (mkReader (r rd) (seekTable rd) newOffset
                     (totalCompressedDataSize rd) (totalUncompressedDataSize rd)
                     (if switch then EntryIndex tableOffsets else currentFrameIndex rd)
                     (if switch then false else currentFrameLoaded rd)
                     (i64 (u64 (newOffset - frameStartOffset))),
            (i64 newOffset, None)).

(** [Seek]: the [switch] on [whence] computes [newOffset]; [moveTo] is
    the rest of the body. *)
Definition Seek (rd : reader R) (off whence : Z)
  : outcome (reader R * (Z * option error)) :=
  if whence =? SeekStart then
    if off <? 0 then Done (rd, (0, Some (New "negative offset")))
    else moveTo rd (u64 off)
  else if whence =? SeekCurrent then
    if off =? 0 then Done (rd, (i64 (offset rd), None))
    else if (off <? 0) && (offset rd <? u64 (- off))
    then Done (rd, (0, Some (New "negative offset")))
    else moveTo rd (u64 (offset rd + u64 off))
  else if whence =? SeekEnd then
    if (off <? 0) && (totalUncompressedDataSize rd <? u64 (- off))
    then Done (rd, (0, Some (New "negative offset")))
    else moveTo rd (u64 (totalUncompressedDataSize rd + u64 off))
  else Done (rd, (0, Some (New "invalid whence"))).
End Methods.
End SzReader.


(* ------------------------------------------------------------------ *)
(** ** [Read]: loading and handing out frames *)

Module SzRead.

(** The fields of the [reader] struct that only [Read] touches.
    [compressedDataBuffer] is the backing array of the slice up to its
    capacity; the length of the slice is set on every load, before the
    slice is used. *)
Record buffers : Type := mkBuffers {
  currentFrameBuffer : list byte;
  currentFrameAvailable : Z;          (* int *)
  compressedDataBuffer : list byte
}.

(** The buffers of the reader [NewReadSeeker] returns: zero values. *)
Definition noBuffers : buffers := mkBuffers [] 0 [].

Section Methods.
Context {R : Type} `{ReadSeeker R}.

(** The block codec: [decoder.DecodeAll(src, dst[:0])], the decoded bytes
    and the error. *)
Variable DecodeAll : list byte -> list byte * option error.

(** The body of [if !r.currentFrameLoaded]; the number that [fmt.Errorf]
    formats into the messages is left out. *)
Definition loadFrame (rd : SzReader.reader R) (bf : buffers)
  : outcome (SzReader.reader R * buffers * option error) :=
  p <- Find (SzReader.seekTable rd) (SzReader.offset rd) ;;
  let rd := SzReader.mkReader (SzReader.r rd) (fst p) (SzReader.offset rd)
              (SzReader.totalCompressedDataSize rd)
              (SzReader.totalUncompressedDataSize rd)
              (SzReader.currentFrameIndex rd) (SzReader.currentFrameLoaded rd)
              (SzReader.currentFrameReaded rd) in
  let tableOffsets := fst (snd p) in
  if negb (snd (snd p))
  then Done (rd, bf, Some (New "failed to find frame for offset"))
  else
    let '(src, (_, err)) :=
      io_Seek (SzReader.r rd) (i64 (EntryOffsetInCompressed tableOffsets)) SeekStart in
    let rd := SzReader.mkReader src (SzReader.seekTable rd) (SzReader.offset rd)
                (SzReader.totalCompressedDataSize rd)
                (SzReader.totalUncompressedDataSize rd)
                (SzReader.currentFrameIndex rd) (SzReader.currentFrameLoaded rd)
                (SzReader.currentFrameReaded rd) in
    match err with
    | Some e => Done (rd, bf, Some (Join (New "failed to seek to the frame offset") e))
    | None =>
        entry <- GetEntry (SzReader.seekTable rd) (EntryIndex tableOffsets) ;;
        let size := CompressedSize entry in
        let backing :=
          if len (compressedDataBuffer bf) <? size
          then repeat x00 (Z.to_nat size)
          else compressedDataBuffer bf in
        let '(src, (bs, err)) := io_ReadFull (SzReader.r rd) size in
        let backing := bs ++ skipn (List.length bs) backing in
        let rd := SzReader.mkReader src (SzReader.seekTable rd) (SzReader.offset rd)
                    (SzReader.totalCompressedDataSize rd)
                    (SzReader.totalUncompressedDataSize rd)
                    (SzReader.currentFrameIndex rd) (SzReader.currentFrameLoaded rd)
                    (SzReader.currentFrameReaded rd) in
        match err with
        | Some e =>
            Done (rd,
                  mkBuffers (currentFrameBuffer bf) (currentFrameAvailable bf) backing,
                  Some (Join (New "failed to read compressed frame data for offset") e))
        | None =>
            let '(out, err) := DecodeAll (firstn (Z.to_nat size) backing) in
            match err with
            | Some e =>
                Done (rd, mkBuffers out (currentFrameAvailable bf) backing,
                      Some (Join (New "failed to decode frame for offset") e))
            | None =>
                Done (SzReader.mkReader (SzReader.r rd) (SzReader.seekTable rd)
                        (SzReader.offset rd)
                        (SzReader.totalCompressedDataSize rd)
                        (SzReader.totalUncompressedDataSize rd)
                        (SzReader.currentFrameIndex rd) true
                        (SzReader.currentFrameReaded rd),
                      mkBuffers out (len out) backing, None)
            end
        end
    end.

(** [Read(p)]: the reader and the buffers it leaves, the content of [p]
    afterwards, the count and the error. *)
Definition Read (rd : SzReader.reader R) (bf : buffers) (p : list byte)
  : outcome (SzReader.reader R * buffers * (list byte * (Z * option error))) :=
  if NumEntries (SzReader.seekTable rd) <=? SzReader.currentFrameIndex rd
  then Done (rd, bf, (p, (0, Some EOF)))
  else
    l <- (if SzReader.currentFrameLoaded rd then Done (rd, bf, None)
          else loadFrame rd bf) ;;
    let '(rd, bf, err) := l in
    match err with
    | Some e => Done (rd, bf, (p, (0, Some e)))
    | None =>
        let availableToRead :=
          i64 (currentFrameAvailable bf - SzReader.currentFrameReaded rd) in
        let toRead := Z.min (len p) availableToRead in
        dst <- slice p 0 toRead ;;
        src <- slice (currentFrameBuffer bf) (SzReader.currentFrameReaded rd)
                     (i64 (SzReader.currentFrameReaded rd + toRead)) ;;
        let copied := Nat.min (List.length dst) (List.length src) in
        let p := firstn copied src ++ skipn copied p in
        let readed := i64 (SzReader.currentFrameReaded rd + toRead) in
        let offset := u64 (SzReader.offset rd + u64 toRead) in
        (* If we have readed the entire current frame, move to the next one *)
        if currentFrameAvailable bf <=? readed then
          Done (SzReader.mkReader (SzReader.r rd) (SzReader.seekTable rd) offset
                  (SzReader.totalCompressedDataSize rd)
                  (SzReader.totalUncompressedDataSize rd)
                  (i64 (SzReader.currentFrameIndex rd + 1)) false 0,
                mkBuffers (currentFrameBuffer bf) 0 (compressedDataBuffer bf),
                (p, (toRead, None)))
        else
          Done (SzReader.mkReader (SzReader.r rd) (SzReader.seekTable rd) offset
                  (SzReader.totalCompressedDataSize rd)
                  (SzReader.totalUncompressedDataSize rd)
                  (SzReader.currentFrameIndex rd) (SzReader.currentFrameLoaded rd)
                  readed,
                bf, (p, (toRead, None)))
    end.
End Methods.
End SzRead.

(* ------------------------------------------------------------------ *)
(** ** Notions the properties are stated with *)

(** The entries a table holds, decoded eight bytes at a time. *)
Fixpoint decodeEntries (n : nat) (bs : list byte) : list TableEntry :=
  match n with
  | O => []
  | S n' =>
      mkEntry (Uint32 (firstn 4 bs)) (Uint32 (firstn 4 (skipn 4 bs)))
      :: decodeEntries n' (skipn 8 bs)
  end.

Definition table_entries (t : Table) : list TableEntry :=
  decodeEntries (Z.to_nat (NumEntries t)) (entries t).

Definition sumC (es : list TableEntry) : Z :=
  fold_right (fun e a => CompressedSize e + a) 0 es.

Definition sumD (es : list TableEntry) : Z :=
  fold_right (fun e a => DecompressedSize e + a) 0 es.

Definition totalCompressedSize (t : Table) : Z := sumC (table_entries t).
Definition totalDecompressedSize (t : Table) : Z := sumD (table_entries t).

(** The offset cache is absent, or it is the one of the current entries. *)
Definition fresh (t : Table) : Prop :=
  cached t = false \/ computeOffsets t = Done (cachedOffsets t).

(** Both cumulative sizes are representable as [uint64]. *)
Definition fits64 (t : Table) : Prop :=
  totalCompressedSize t < 18446744073709551616
  /\ totalDecompressedSize t < 18446744073709551616.

Definition zeroEntry : TableEntry := mkEntry 0 0.

(** The i-th entry of the table, for an index in range. *)
Definition entryAt (t : Table) (i : Z) : TableEntry :=
  nth (Z.to_nat i) (table_entries t) zeroEntry.

(** The offsets of entry [i]: the sums over the entries before it. *)
Definition offsetAt (t : Table) (i : Z) : TableOffset :=
  mkOffset i (sumC (firstn (Z.to_nat i) (table_entries t)))
             (sumD (firstn (Z.to_nat i) (table_entries t))).

(* ------------------------------------------------------------------ *)
(** ** Auxiliary notions, example data and sinks *)

(** [upd l lo b] is [l] with [b] stored at position [lo]. *)
Definition upd (l : list byte) (lo : nat) (b : list byte) : list byte :=
  firstn lo l ++ b ++ skipn (lo + length b) l.

(** The entry stored at position [i] of the bytes [bs]. *)
Definition entryOfBytes (bs : list byte) (i : nat) : TableEntry :=
  mkEntry (Uint32 (firstn 4 (skipn (8 * i) bs)))
          (Uint32 (firstn 4 (skipn (8 * i + 4) bs))).

Definition zeros8 : list byte := [x00; x00; x00; x00; x00; x00; x00; x00].

(** The bytes of a table after [AppendEntry]. *)
Definition appended (bs : list byte) (e : TableEntry) : list byte :=
  let n := Z.to_nat (len bs / 8) in
  upd (upd (bs ++ zeros8) (8 * n) (PutUint32 (CompressedSize e)))
      (8 * n + 4) (PutUint32 (DecompressedSize e)).

(** The offsets [CacheOffsets] computes when nothing wraps. *)
Definition offsetsOf (t : Table) : list TableOffset :=
  map (fun i => offsetAt t (Z.of_nat i)) (seq 0 (Z.to_nat (NumEntries t))).

(** Two entries: [(5, 10)] and [(3, 7)]. *)
Definition exampleTable : Table :=
  mkTable (PutUint32 5 ++ PutUint32 10 ++ PutUint32 3 ++ PutUint32 7) false [].

(** [Find] on the empty table, then [AppendEntry] of [(1, 1)]: the cache is
    the one of the empty table. *)
Definition staleAppended : Table :=
  mkTable (PutUint32 1 ++ PutUint32 1) true [].

(** Thirty-two entries [(1, 10)], no cache yet. *)
Definition table32 : Table :=
  mkTable (concat (repeat (PutUint32 1 ++ PutUint32 10) 32)) false [].

(** A sequence of [AppendEntry] calls. *)
Definition appendAll (es : list TableEntry) (t : Table) : outcome Table :=
  fold_left (fun acc e => t' <- acc ;; AppendEntry t' e) es (Done t).

(** Thirty-two entries [(1, 10)], then [CacheOffsets], then
    [SetEntry 0 (1, 320)]: the cache is the one of the old sizes. *)
Definition staleSet : Table :=
  mkTable (PutUint32 1 ++ PutUint32 320
           ++ concat (repeat (PutUint32 1 ++ PutUint32 10) 31))
          true
          (map (fun i => mkOffset (Z.of_nat i) (Z.of_nat i) (10 * Z.of_nat i))
               (seq 0 32)).

(** The representation invariant of [Table]: whole entries only. *)
Definition wfTable (t : Table) : Prop := len (entries t) = NumEntries t * 8.

Definition tableHeader (t : Table) : list byte :=
  PutUint32 0x184D2A5E ++ PutUint32 (u32 (len (entries t) + 9)).

Definition tableFooter (t : Table) : list byte :=
  PutUint32 (u32 (NumEntries t)) ++ [x00] ++ PutUint32 footerMagicNumber.

(** The bytes [WriteTableToWriter] hands to the sink. *)
Definition serialized (t : Table) : list byte :=
  tableHeader t ++ entries t ++ tableFooter t.

(** The [io.Writer] contract: a nil error means the whole of [p] was written. *)
Definition lawfulWriter (W : Type) `{Writer W} : Prop :=
  forall (w w' : W) (p : list byte) (n : Z),
    io_Write w p = (w', (n, None)) -> n = len p.

(** A table of [2^29] entries, all bytes zero (only its length is used). *)
Definition hugeTable : Table :=
  mkTable (repeat x00 (Z.to_nat 4294967296)) false [].

(** One entry, [(0, 7)]: an empty chunk in first position. *)
Definition emptyChunkFirst : Table :=
  mkTable (PutUint32 0 ++ PutUint32 7) false [].

(** Two entries, [(5, 10)] and [(0, 7)]: an empty chunk in second position. *)
Definition emptyChunkSecond : Table :=
  mkTable (PutUint32 5 ++ PutUint32 10 ++ PutUint32 0 ++ PutUint32 7) false [].

(** The [io.ReadFull] contract: a nil error means the buffer was filled. *)
Definition lawfulReader (R : Type) `{ReadSeeker R} : Prop :=
  forall (r r' : R) (n : Z) (bs : list byte),
    io_ReadFull r n = (r', (bs, None)) -> len bs = Z.max 0 n.

(** A stream of eight data bytes followed by the table of [exampleTable]. *)
Definition exampleStream : list byte :=
  [x01; x02; x03; x04; x05; x06; x07; x08] ++ serialized exampleTable.

(** The reader [NewReadSeeker] builds over [exampleStream]: two frames,
    17 decompressed bytes. *)
Definition exampleReader : SzReader.reader BytesReader :=
  SzReader.mkReader
    (mkBytesReader exampleStream 41)
    (mkTable (entries exampleTable) true [mkOffset 0 0 0; mkOffset 1 5 10])
    0 8 17 0 false 0.

(** The identity block codec ("stored" frames). *)
Definition storeAll (src : list byte) : list byte := src.

(** What a writer that is closed without any [Write] leaves in a buffer. *)
Definition emptyStream : list byte := serialized emptyTable.

(** A sink whose next [failures] writes fail without storing anything (a
    transient fault) and which accepts every write after that. *)
Record FlakySink : Type := mkFlaky { fl_bytes : list byte; failures : nat }.

#[export] Instance FlakySink_Writer : Writer FlakySink := {
  io_Write s p :=
    match failures s with
    | O => (mkFlaky (fl_bytes s ++ p) O, (len p, None))
    | S k => (mkFlaky (fl_bytes s) k, (0, Some ErrShortWrite))
    end
}.

(** A codec that puts the four bytes of the zstd frame magic before the
    data. *)
Definition framedAll (src : list byte) : list byte :=
  [x28; xb5; x2f; xfd] ++ src.

Definition dsizes (t : Table) : list Z := map DecompressedSize (table_entries t).

Definition sumZ (l : list Z) : Z := fold_right Z.add 0 l.

(** The state between two successful calls: [k] full frames are recorded
    and fewer than [F] bytes are buffered. *)
Definition WriterInv {W : Type} (F : Z) (c : SzWriter.writer W) (k : nat) : Prop :=
  SzWriter.frameSize c = F
  /\ len (SzWriter.frameBuffer c) < F
  /\ SzWriter.isClosed c = false
  /\ dsizes (SzWriter.seekTable c) = repeat F k.

(** [2^32] zero bytes (only the length is used). *)
Definition hugeData : list byte := repeat x00 (Z.to_nat 4294967296).

(** The offsets [CacheOffsets] computes on any table: the running totals
    are [uint64]. *)
Definition offsetsMod (t : Table) : list TableOffset :=
  map (fun i => mkOffset (Z.of_nat i)
                  (u64 (sumC (firstn i (table_entries t))))
                  (u64 (sumD (firstn i (table_entries t)))))
      (seq 0 (Z.to_nat (NumEntries t))).

(** A footer with descriptor byte [d]. *)
Definition footerWith (d : byte) (t : Table) : list byte :=
  PutUint32 (u32 (NumEntries t)) ++ [d] ++ PutUint32 footerMagicNumber.

(** The frames of [data] for frame size [F]: [F] bytes each, the last one
    what is left. *)
Fixpoint framesOf_aux (fuel : nat) (F : Z) (data : list byte) : list (list byte) :=
  match fuel with
  | O => []
  | S fuel' =>
      match data with
      | [] => []
      | _ => firstn (Z.to_nat F) data :: framesOf_aux fuel' F (skipn (Z.to_nat F) data)
      end
  end.

Definition framesOf (F : Z) (data : list byte) : list (list byte) :=
  framesOf_aux (length data) F data.

(** The table entry the writer records for a frame. *)
Definition entryOfFrame (EncodeAll : list byte -> list byte) (fr : list byte)
  : TableEntry :=
  mkEntry (u32 (len (EncodeAll fr))) (u32 (len fr)).

(** The state of a writer over a buffer between two calls: the full frames
    [fs] taken so far are in the sink, encoded, after [pre], and in the
    table; fewer than [F] bytes are buffered. *)
Definition StreamInv (EncodeAll : list byte -> list byte) (F : Z) (pre : list byte)
           (c : SzWriter.writer Buffer) (fs : list (list byte)) : Prop :=
  SzWriter.frameSize c = F
  /\ SzWriter.isClosed c = false
  /\ len (SzWriter.frameBuffer c) < F
  /\ Forall (fun fr => len fr = F) fs
  /\ buf_bytes (SzWriter.w c) = pre ++ concat (map EncodeAll fs)
  /\ table_entries (SzWriter.seekTable c) = map (entryOfFrame EncodeAll) fs
  /\ wfTable (SzWriter.seekTable c)
  /\ cached (SzWriter.seekTable c) = false.

(** Calls [Read] with a buffer of [m] bytes until it returns an error and
    collects what was read, as [io.ReadAll] does: [io.EOF] ends the loop
    without an error. *)
Fixpoint readAll {R : Type} `{ReadSeeker R}
         (DecodeAll : list byte -> list byte * option error) (fuel : nat)
         (rd : SzReader.reader R) (bf : SzRead.buffers) (m : Z) (acc : list byte)
  : outcome (list byte * option error) :=
  match fuel with
  | O => OutOfFuel
  | S fuel' =>
      x <- SzRead.Read DecodeAll rd bf (repeat x00 (Z.to_nat m)) ;;
      let '(rd', bf', (p, (n, err))) := x in
      let acc := acc ++ firstn (Z.to_nat n) p in
      match err with
      | Some EOF => Done (acc, None)
      | Some e => Done (acc, Some e)
      | None => readAll DecodeAll fuel' rd' bf' m acc
      end
  end.

(** The stream [s] stores the frames [frames] as the table [t] says: the
    compressed bytes of frame [i] lie at the sum of the compressed sizes
    before it, decode to the frame, and the frame is not empty and as long
    as the entry says. *)
Definition Stored (DecodeAll : list byte -> list byte * option error)
           (s : list byte) (t : Table) (frames : list (list byte)) : Prop :=
  len frames = NumEntries t
  /\ len (entries t) < 4294967296
  /\ forall i : nat, (i < length frames)%nat ->
       let e := nth i (table_entries t) zeroEntry in
       let off := sumC (firstn i (table_entries t)) in
       off + CompressedSize e <= len s
       /\ DecodeAll (firstn (Z.to_nat (CompressedSize e)) (skipn (Z.to_nat off) s))
          = (nth i frames [], None)
       /\ DecompressedSize e = len (nth i frames [])
       /\ 1 <= len (nth i frames []).

(** The state of a reader over [s] between two calls: the offset lies in
    the current frame, at [currentFrameReaded] bytes from its start, and a
    loaded frame buffer holds the current frame. *)
Definition ReadInv (s : list byte) (t : Table) (frames : list (list byte))
           (rd : SzReader.reader BytesReader) (bf : SzRead.buffers) : Prop :=
  rd_s (SzReader.r rd) = s
  /\ SzReader.seekTable rd = mkTable (entries t) true (offsetsOf t)
  /\ SzReader.totalUncompressedDataSize rd = len (concat frames)
  /\ (exists i : nat,
        SzReader.currentFrameIndex rd = Z.of_nat i
        /\ (i <= length frames)%nat
        /\ 0 <= SzReader.currentFrameReaded rd
        /\ SzReader.offset rd
           = len (concat (firstn i frames)) + SzReader.currentFrameReaded rd
        /\ ((i < length frames)%nat ->
            SzReader.currentFrameReaded rd < len (nth i frames []))
        /\ (i = length frames -> SzReader.currentFrameReaded rd = 0)
        /\ (SzReader.currentFrameLoaded rd = true ->
            (i < length frames)%nat
            /\ SzRead.currentFrameBuffer bf = nth i frames []
            /\ SzRead.currentFrameAvailable bf = len (nth i frames []))).

(** The decoder of [framedAll]: it checks the magic and drops it. *)
Definition unframeAll (src : list byte) : list byte * option error :=
  match src with
  | x28 :: xb5 :: x2f :: xfd :: rest => (rest, None)
  | _ => ([], Some (New "magic number mismatch"))
  end.

(** Five bytes in frames of two, the table and the stream a writer with
    [framedAll] makes of them, and the reader over that stream. *)
Definition exampleFrames : list (list byte) := [[x01; x02]; [x03; x04]; [x05]].

Definition framedTable : Table :=
  mkTable (PutUint32 6 ++ PutUint32 2 ++ PutUint32 6 ++ PutUint32 2
           ++ PutUint32 5 ++ PutUint32 1) false [].

Definition framedStream : list byte :=
  concat (map framedAll exampleFrames) ++ serialized framedTable.

Definition framedReader : SzReader.reader BytesReader :=
  SzReader.mkReader
    (mkBytesReader framedStream (len framedStream))
    (mkTable (entries framedTable) true (offsetsOf framedTable))
    0 17 5 0 false 0.

(** A stream whose table overstates the frame: one frame of two bytes,
    recorded with a decompressed size of ten. *)
Definition overstatedStream : list byte :=
  framedAll [x01; x02]
  ++ serialized (mkTable (PutUint32 6 ++ PutUint32 10) false []).

(** A stream with an empty frame in the middle: frames of two, zero and
    one byte, recorded as they are. *)
Definition emptyFrameStream : list byte :=
  framedAll [x01; x02] ++ framedAll [] ++ framedAll [x05]
  ++ serialized (mkTable (PutUint32 6 ++ PutUint32 2 ++ PutUint32 4 ++ PutUint32 0
                          ++ PutUint32 5 ++ PutUint32 1) false []).

(** The writer [c] with its closed flag set to [b]. *)
Definition setClosed {W : Type} (b : bool) (c : SzWriter.writer W) : SzWriter.writer W :=
  SzWriter.mkWriter (SzWriter.w c) (SzWriter.frameSize c) (SzWriter.frameBuffer c)
                    (SzWriter.encoderBuffer c) (SzWriter.seekTable c) b.

(* ------------------------------------------------------------------ *)
(** ** Bytes and little-endian words *)

Lemma Z_of_byte_range (b : byte) : 0 <= Z_of_byte b < 256.
Proof.
  unfold Z_of_byte. pose proof (Byte.to_N_bounded b). lia.
Qed.

Lemma Z_of_byte_of_Z (z : Z) : Z_of_byte (byte_of_Z z) = z mod 256.
Proof.
  unfold Z_of_byte, byte_of_Z.
  assert (Hr : 0 <= z mod 256 < 256) by (apply Z.mod_pos_bound; lia).
  destruct (Byte.of_N (Z.to_N (z mod 256))) as [b|] eqn:E.
  - apply Byte.to_of_N in E. rewrite E. lia.
  - apply Byte.of_N_None_iff in E. lia.
Qed.

Lemma Z_of_byte_zero (b : byte) : Z_of_byte b = 0 <-> b = x00.
Proof.
  split.
  - intros Hz. unfold Z_of_byte in Hz.
    assert (Hn : Byte.to_N b = 0%N) by lia.
    pose proof (Byte.of_to_N b) as Hb. rewrite Hn in Hb.
    simpl in Hb. congruence.
  - intros ->. reflexivity.
Qed.

Lemma Uint32_range (b : list byte) : 0 <= Uint32 b < 4294967296.
Proof.
  unfold Uint32.
  pose proof (Z_of_byte_range (nth 0 b x00)).
  pose proof (Z_of_byte_range (nth 1 b x00)).
  pose proof (Z_of_byte_range (nth 2 b x00)).
  pose proof (Z_of_byte_range (nth 3 b x00)).
  lia.
Qed.

Lemma Uint32_PutUint32 (v : Z) : Uint32 (PutUint32 v) = u32 v.
Proof.
  unfold Uint32, PutUint32, u32. cbn [nth].
  rewrite !Z_of_byte_of_Z.
  pose proof (Z.div_mod v 256 ltac:(lia)).
  pose proof (Z.div_mod (v / 256) 256 ltac:(lia)).
  pose proof (Z.div_mod (v / 256 / 256) 256 ltac:(lia)).
  pose proof (Z.div_mod (v / 256 / 256 / 256) 256 ltac:(lia)).
  pose proof (Z.mod_pos_bound v 256 ltac:(lia)).
  pose proof (Z.mod_pos_bound (v / 256) 256 ltac:(lia)).
  pose proof (Z.mod_pos_bound (v / 256 / 256) 256 ltac:(lia)).
  pose proof (Z.mod_pos_bound (v / 256 / 256 / 256) 256 ltac:(lia)).
  replace (v / 65536) with (v / 256 / 256)
    by (rewrite Z.div_div by lia; reflexivity).
  replace (v / 16777216) with (v / 256 / 256 / 256)
    by (rewrite !Z.div_div by lia; reflexivity).
  apply Z.mod_unique with (q := v / 256 / 256 / 256 / 256); lia.
Qed.

Lemma Uint32_PutUint32_id (v : Z) :
  0 <= v < 4294967296 -> Uint32 (PutUint32 v) = v.
Proof.
  intros Hv. rewrite Uint32_PutUint32. unfold u32. apply Z.mod_small. exact Hv.
Qed.

Lemma PutUint32_length (v : Z) : len (PutUint32 v) = 4.
Proof. reflexivity. Qed.

Lemma Uint32_zero_iff (b0 b1 b2 b3 : byte) :
  Uint32 [b0; b1; b2; b3] = 0 <-> b0 = x00 /\ b1 = x00 /\ b2 = x00 /\ b3 = x00.
Proof.
  unfold Uint32. cbn [nth].
  pose proof (Z_of_byte_range b0). pose proof (Z_of_byte_range b1).
  pose proof (Z_of_byte_range b2). pose proof (Z_of_byte_range b3).
  rewrite <- !Z_of_byte_zero. lia.
Qed.

(* ------------------------------------------------------------------ *)
(** ** Slices and in-place stores *)

Lemma len_app {A : Type} (l1 l2 : list A) : len (l1 ++ l2) = len l1 + len l2.
Proof. unfold len. rewrite length_app. lia. Qed.

Lemma len_nonneg {A : Type} (l : list A) : 0 <= len l.
Proof. unfold len. lia. Qed.

Lemma slice_ok {A : Type} (l : list A) (lo hi : Z) :
  0 <= lo -> lo <= hi -> hi <= len l ->
  slice l lo hi = Done (firstn (Z.to_nat (hi - lo)) (skipn (Z.to_nat lo) l)).
Proof.
  intros H0 H1 H2. unfold slice.
  destruct (0 <=? lo) eqn:E0; [|lia].
  destruct (lo <=? hi) eqn:E1; [|lia].
  destruct (hi <=? len l) eqn:E2; [|lia].
  reflexivity.
Qed.

Lemma slice_prefix {A : Type} (l : list A) (hi : Z) :
  0 <= hi -> hi <= len l -> slice l 0 hi = Done (firstn (Z.to_nat hi) l).
Proof.
  intros H0 H1. rewrite slice_ok by lia.
  rewrite Z.sub_0_r. reflexivity.
Qed.

Lemma slice_suffix {A : Type} (l : list A) (lo : Z) :
  0 <= lo -> lo <= len l -> slice l lo (len l) = Done (skipn (Z.to_nat lo) l).
Proof.
  intros H0 H1. rewrite slice_ok by lia.
  rewrite firstn_all2; [reflexivity|].
  rewrite length_skipn. unfold len. lia.
Qed.

Lemma item_ok {A : Type} (l : list A) (i : Z) (d : A) :
  0 <= i < len l -> item l i = Done (nth (Z.to_nat i) l d).
Proof.
  intros Hi. unfold item.
  destruct (0 <=? i) eqn:E0; [|lia].
  destruct (i <? len l) eqn:E1; [|lia].
  cbn [andb].
  destruct (nth_error l (Z.to_nat i)) as [a|] eqn:E.
  - erewrite nth_error_nth by exact E. reflexivity.
  - apply nth_error_None in E. unfold len in Hi. lia.
Qed.

Lemma item_out {A : Type} (l : list A) (i : Z) :
  i < 0 \/ len l <= i -> item l i = Panic.
Proof.
  intros Hi. unfold item.
  destruct (0 <=? i) eqn:E0; destruct (i <? len l) eqn:E1; try reflexivity; lia.
Qed.

(** Two lists that agree on their first [m] elements agree on every window
    inside it. *)
Lemma window_agree {A : Type} (l1 l2 : list A) (m k j : nat) :
  firstn m l1 = firstn m l2 -> (k + j <= m)%nat ->
  firstn j (skipn k l1) = firstn j (skipn k l2).
Proof.
  intros Hm Hk.
  rewrite !firstn_skipn_comm.
  replace (firstn (k + j) l1) with (firstn (k + j) (firstn m l1))
    by (rewrite firstn_firstn; f_equal; lia).
  replace (firstn (k + j) l2) with (firstn (k + j) (firstn m l2))
    by (rewrite firstn_firstn; f_equal; lia).
  rewrite Hm. reflexivity.
Qed.

Lemma upd_length (l : list byte) (lo : nat) (b : list byte) :
  (lo + length b <= length l)%nat -> length (upd l lo b) = length l.
Proof.
  intros Hl. unfold upd. rewrite !length_app, length_firstn, length_skipn. lia.
Qed.

Lemma upd_before (l : list byte) (lo : nat) (b : list byte) (m : nat) :
  (m <= lo)%nat -> (lo <= length l)%nat -> firstn m (upd l lo b) = firstn m l.
Proof.
  intros Hm Hl. unfold upd.
  rewrite firstn_app, firstn_firstn.
  replace (Nat.min m lo) with m by lia.
  rewrite length_firstn.
  replace (m - Nat.min lo (length l))%nat with 0%nat by lia.
  cbn [firstn]. apply app_nil_r.
Qed.

Lemma upd_at (l : list byte) (lo : nat) (b : list byte) :
  (lo <= length l)%nat -> firstn (length b) (skipn lo (upd l lo b)) = b.
Proof.
  intros Hl. unfold upd.
  rewrite skipn_app, length_firstn.
  replace (lo - Nat.min lo (length l))%nat with 0%nat by lia.
  rewrite skipn_all2 by (rewrite length_firstn; lia).
  cbn [skipn app].
  rewrite firstn_app, firstn_all, Nat.sub_diag. cbn [firstn]. apply app_nil_r.
Qed.

Lemma store_ok (l : list byte) (lo : Z) (b : list byte) :
  0 <= lo -> lo + len b <= len l ->
  store l lo b = Done (upd l (Z.to_nat lo) b).
Proof.
  intros H0 H1. unfold store, upd.
  destruct (0 <=? lo) eqn:E0; [|lia].
  destruct (lo + len b <=? len l) eqn:E1; [|lia].
  cbn [andb]. do 3 f_equal. unfold len. f_equal. lia.
Qed.

(* ------------------------------------------------------------------ *)
(** ** Entries of a table *)

Lemma NumEntries_bounds (t : Table) :
  0 <= NumEntries t /\ NumEntries t * 8 <= len (entries t)
  /\ len (entries t) < NumEntries t * 8 + 8.
Proof.
  unfold NumEntries.
  pose proof (len_nonneg (entries t)).
  pose proof (Z.div_mod (len (entries t)) 8 ltac:(lia)).
  pose proof (Z.mod_pos_bound (len (entries t)) 8 ltac:(lia)).
  pose proof (Z.div_pos (len (entries t)) 8 ltac:(lia) ltac:(lia)).
  lia.
Qed.

Lemma GetEntry_bytes (t : Table) (i : Z) :
  0 <= i -> i * 8 + 8 <= len (entries t) ->
  GetEntry t i = Done (entryOfBytes (entries t) (Z.to_nat i)).
Proof.
  intros H0 H1. unfold GetEntry, entryOfBytes.
  rewrite !slice_ok by lia. cbn [bind].
  replace (Z.to_nat (i * 8 + 4 - i * 8)) with 4%nat by lia.
  replace (Z.to_nat (i * 8 + 8 - (i * 8 + 4))) with 4%nat by lia.
  replace (Z.to_nat (i * 8)) with (8 * Z.to_nat i)%nat by lia.
  replace (Z.to_nat (i * 8 + 4)) with (8 * Z.to_nat i + 4)%nat by lia.
  reflexivity.
Qed.

Lemma GetEntry_out (t : Table) (i : Z) :
  i < 0 -> GetEntry t i = Panic.
Proof.
  intros Hi. unfold GetEntry, slice.
  destruct (0 <=? i * 8) eqn:E; [lia|]. reflexivity.
Qed.

Lemma nth_decodeEntries (n : nat) : forall (bs : list byte) (k : nat),
  (k < n)%nat -> nth k (decodeEntries n bs) zeroEntry = entryOfBytes bs k.
Proof.
  induction n as [|n IH]; intros bs k Hk; [lia|].
  destruct k as [|k]; cbn [decodeEntries nth].
  - reflexivity.
  - rewrite IH by lia. unfold entryOfBytes.
    rewrite !skipn_skipn.
    replace (8 * k + 8)%nat with (8 * S k)%nat by lia.
    replace (8 * k + 4 + 8)%nat with (8 * S k + 4)%nat by lia.
    reflexivity.
Qed.

Lemma decodeEntries_length (n : nat) (bs : list byte) :
  length (decodeEntries n bs) = n.
Proof.
  revert bs. induction n as [|n IH]; intros bs; cbn; [reflexivity|].
  rewrite IH. reflexivity.
Qed.

Lemma table_entries_length (t : Table) :
  len (table_entries t) = NumEntries t.
Proof.
  unfold table_entries, len. rewrite decodeEntries_length.
  pose proof (NumEntries_bounds t). lia.
Qed.

Lemma GetEntry_in_range (t : Table) (i : Z) :
  0 <= i < NumEntries t -> GetEntry t i = Done (entryAt t i).
Proof.
  intros Hi. pose proof (NumEntries_bounds t).
  rewrite GetEntry_bytes by lia.
  unfold entryAt, table_entries.
  rewrite nth_decodeEntries by lia. reflexivity.
Qed.

Lemma entryOfBytes_in_range (bs : list byte) (k : nat) :
  entry_in_range (entryOfBytes bs k).
Proof.
  unfold entry_in_range, entryOfBytes. cbn.
  split; apply Uint32_range.
Qed.

Lemma decodeEntries_in_range (n : nat) (bs : list byte) :
  Forall entry_in_range (decodeEntries n bs).
Proof.
  revert bs. induction n as [|n IH]; intros bs; cbn; constructor.
  - split; apply Uint32_range.
  - apply IH.
Qed.

(** Decoding depends on the first [8 * n] bytes only. *)
Lemma decodeEntries_prefix (n : nat) : forall (l1 l2 : list byte),
  firstn (8 * n) l1 = firstn (8 * n) l2 ->
  decodeEntries n l1 = decodeEntries n l2.
Proof.
  induction n as [|n IH]; intros l1 l2 Hp; [reflexivity|].
  cbn [decodeEntries]. f_equal.
  - f_equal.
    + f_equal. apply (window_agree l1 l2 (8 * S n) 0 4 Hp). lia.
    + f_equal. apply (window_agree l1 l2 (8 * S n) 4 4 Hp). lia.
  - apply IH.
    pose proof (window_agree l1 l2 (8 * S n) 8 (8 * n) Hp ltac:(lia)) as Hw.
    exact Hw.
Qed.

Lemma decodeEntries_snoc (n : nat) : forall (bs : list byte),
  decodeEntries (S n) bs = decodeEntries n bs ++ [entryOfBytes bs n].
Proof.
  induction n as [|n IH]; intros bs.
  - reflexivity.
  - change (decodeEntries (S (S n)) bs)
      with (mkEntry (Uint32 (firstn 4 bs)) (Uint32 (firstn 4 (skipn 4 bs)))
            :: decodeEntries (S n) (skipn 8 bs)).
    rewrite IH. cbn [decodeEntries app]. do 3 f_equal.
    unfold entryOfBytes. rewrite !skipn_skipn.
    replace (8 * n + 8)%nat with (8 * S n)%nat by lia.
    replace (8 * n + 4 + 8)%nat with (8 * S n + 4)%nat by lia.
    reflexivity.
Qed.

(* ------------------------------------------------------------------ *)
(** ** [AppendEntry] *)

Lemma AppendEntry_eq (t : Table) (e : TableEntry) :
  AppendEntry t e
  = Done (mkTable (appended (entries t) e) (cached t) (cachedOffsets t)).
Proof.
  pose proof (NumEntries_bounds t) as Hn. unfold NumEntries in Hn.
  unfold AppendEntry, SetEntry, NumEntries. cbn [entries cached cachedOffsets].
  set (bs := entries t) in *. fold zeros8.
  assert (Hl : len (bs ++ zeros8) = len bs + 8) by (rewrite len_app; reflexivity).
  rewrite Hl.
  replace ((len bs + 8) / 8) with (len bs / 8 + 1)
    by (replace (len bs + 8) with (len bs + 1 * 8) by lia;
        rewrite Z.div_add by lia; reflexivity).
  rewrite store_ok by (rewrite ?PutUint32_length; lia).
  cbn [bind].
  rewrite store_ok.
  - cbn [bind]. unfold appended. do 2 f_equal.
    replace (Z.to_nat ((len bs / 8 + 1 - 1) * 8)) with (8 * Z.to_nat (len bs / 8))%nat by lia.
    replace (Z.to_nat ((len bs / 8 + 1 - 1) * 8 + 4))
      with (8 * Z.to_nat (len bs / 8) + 4)%nat by lia.
    reflexivity.
  - lia.
  - rewrite PutUint32_length. unfold len at 2. rewrite upd_length.
    + fold (len (bs ++ zeros8)). lia.
    + change (length (PutUint32 (CompressedSize e))) with 4%nat.
      unfold len in *. lia.
Qed.

Section Appended.
Variable bs : list byte.
Variable e : TableEntry.
Let n : nat := Z.to_nat (len bs / 8).

Lemma appended_bounds : (8 * n <= length bs < 8 * n + 8)%nat.
Proof.
  pose proof (NumEntries_bounds (mkTable bs false [])) as Hn.
  unfold NumEntries in Hn. cbn [entries] in Hn. unfold len in Hn.
  subst n. unfold len. lia.
Qed.

Lemma appended_length : length (appended bs e) = (length bs + 8)%nat.
Proof.
  pose proof appended_bounds as Hb.
  unfold appended. fold n.
  assert (H1 : length (bs ++ zeros8) = (length bs + 8)%nat)
    by (rewrite length_app; reflexivity).
  rewrite upd_length; rewrite upd_length; cbn [PutUint32 length]; lia.
Qed.

Lemma appended_prefix : firstn (8 * n) (appended bs e) = firstn (8 * n) bs.
Proof.
  pose proof appended_bounds as Hb.
  assert (H1 : length (bs ++ zeros8) = (length bs + 8)%nat)
    by (rewrite length_app; reflexivity).
  unfold appended. fold n.
  rewrite upd_before; [|lia|rewrite upd_length; cbn [PutUint32 length]; lia].
  rewrite upd_before by lia.
  rewrite firstn_app.
  replace (8 * n - length bs)%nat with 0%nat by lia.
  cbn [firstn]. apply app_nil_r.
Qed.

Lemma appended_last : entryOfBytes (appended bs e) n
                      = mkEntry (u32 (CompressedSize e)) (u32 (DecompressedSize e)).
Proof.
  pose proof appended_bounds as Hb.
  assert (H1 : length (bs ++ zeros8) = (length bs + 8)%nat)
    by (rewrite length_app; reflexivity).
  unfold entryOfBytes, appended. fold n.
  set (l1 := upd (bs ++ zeros8) (8 * n) (PutUint32 (CompressedSize e))).
  assert (Hl1 : length l1 = (length bs + 8)%nat).
  { subst l1. rewrite upd_length; cbn [PutUint32 length]; lia. }
  f_equal.
  - rewrite <- Uint32_PutUint32. f_equal.
    rewrite firstn_skipn_comm.
    rewrite upd_before by lia.
    rewrite <- firstn_skipn_comm.
    subst l1.
    apply (upd_at (bs ++ zeros8) (8 * n) (PutUint32 (CompressedSize e))). lia.
  - rewrite <- Uint32_PutUint32. f_equal.
    apply (upd_at l1 (8 * n + 4) (PutUint32 (DecompressedSize e))). lia.
Qed.

Lemma appended_NumEntries : len (appended bs e) / 8 = len bs / 8 + 1.
Proof.
  unfold len at 1. rewrite appended_length.
  replace (Z.of_nat (length bs + 8)) with (len bs + 1 * 8) by (unfold len; lia).
  rewrite Z.div_add by lia. reflexivity.
Qed.

Lemma appended_entries :
  decodeEntries (S n) (appended bs e)
  = decodeEntries n bs
    ++ [mkEntry (u32 (CompressedSize e)) (u32 (DecompressedSize e))].
Proof.
  rewrite decodeEntries_snoc, appended_last. f_equal.
  apply decodeEntries_prefix. apply appended_prefix.
Qed.
End Appended.

Lemma table_entries_AppendEntry (t t' : Table) (e : TableEntry) :
  AppendEntry t e = Done t' ->
  table_entries t'
  = table_entries t ++ [mkEntry (u32 (CompressedSize e)) (u32 (DecompressedSize e))].
Proof.
  rewrite AppendEntry_eq. intros [= <-].
  unfold table_entries, NumEntries. cbn [entries].
  rewrite appended_NumEntries.
  pose proof (NumEntries_bounds t) as Hn. unfold NumEntries in Hn.
  replace (Z.to_nat (len (entries t) / 8 + 1))
    with (S (Z.to_nat (len (entries t) / 8))) by lia.
  apply appended_entries.
Qed.

(** C10. For every table [t] with [n] entries and every entry [e] (two
    [uint32] fields), [AppendEntry] returns normally; afterwards the table has
    [n + 1] entries, [GetEntry n] is [e], [GetEntry i] for [i < n] is what
    it was before, and the state of the offset cache is untouched. *)
Theorem AppendEntry_frame (t : Table) (e : TableEntry) :
  entry_in_range e ->
  exists t',
    AppendEntry t e = Done t'
    /\ NumEntries t' = NumEntries t + 1
    /\ GetEntry t' (NumEntries t) = Done e
    /\ (forall i, 0 <= i < NumEntries t -> GetEntry t' i = GetEntry t i)
    /\ cached t' = cached t
    /\ cachedOffsets t' = cachedOffsets t
    /\ Size t' = Size t + 8.
Proof.
  intros [HC HD].
  pose proof (NumEntries_bounds t) as Hn.
  eexists. split; [apply AppendEntry_eq|].
  set (t' := mkTable (appended (entries t) e) (cached t) (cachedOffsets t)).
  assert (HN : NumEntries t' = NumEntries t + 1)
    by (unfold NumEntries; cbn [entries t']; apply appended_NumEntries).
  assert (HL : len (entries t') = len (entries t) + 8)
    by (unfold len; cbn [entries t']; rewrite appended_length; lia).
  pose proof (NumEntries_bounds t') as Hn'.
  repeat split; try reflexivity.
  - exact HN.
  - rewrite GetEntry_bytes by lia. cbn [entries t'].
    unfold NumEntries. rewrite appended_last.
    unfold u32. rewrite !Z.mod_small by lia. destruct e; reflexivity.
  - intros i Hi.
    rewrite !GetEntry_bytes by lia. f_equal. cbn [entries t'].
    pose proof (appended_prefix (entries t) e) as Hp.
    fold (NumEntries t) in Hp.
    unfold entryOfBytes. f_equal; f_equal.
    + apply (window_agree _ _ _ (8 * Z.to_nat i) 4 Hp). lia.
    + apply (window_agree _ _ _ (8 * Z.to_nat i + 4) 4 Hp). lia.
  - unfold Size. lia.
Qed.

Lemma AppendEntry_frame_witness :
  exists t',
    AppendEntry exampleTable (mkEntry 4 9) = Done t'
    /\ NumEntries t' = NumEntries exampleTable + 1
    /\ GetEntry t' (NumEntries exampleTable) = Done (mkEntry 4 9)
    /\ (forall i, 0 <= i < NumEntries exampleTable ->
        GetEntry t' i = GetEntry exampleTable i)
    /\ cached t' = cached exampleTable
    /\ cachedOffsets t' = cachedOffsets exampleTable
    /\ Size t' = Size exampleTable + 8.
Proof.
  apply (AppendEntry_frame exampleTable (mkEntry 4 9)).
  unfold entry_in_range. cbn. lia.
Defined.

(* ------------------------------------------------------------------ *)
(** ** Cumulative sizes *)

Lemma table_entries_in_range (t : Table) : Forall entry_in_range (table_entries t).
Proof. apply decodeEntries_in_range. Qed.

Lemma sumC_app (l1 l2 : list TableEntry) : sumC (l1 ++ l2) = sumC l1 + sumC l2.
Proof. induction l1 as [|a l1 IH]; cbn; [reflexivity|]. fold (sumC (l1 ++ l2)). fold (sumC l1). lia. Qed.

Lemma sumD_app (l1 l2 : list TableEntry) : sumD (l1 ++ l2) = sumD l1 + sumD l2.
Proof. induction l1 as [|a l1 IH]; cbn; [reflexivity|]. fold (sumD (l1 ++ l2)). fold (sumD l1). lia. Qed.

Lemma sumC_nonneg (es : list TableEntry) : Forall entry_in_range es -> 0 <= sumC es.
Proof.
  induction 1 as [|e es [He _] _ IH]; cbn; [lia|]. fold (sumC es). lia.
Qed.

Lemma sumD_nonneg (es : list TableEntry) : Forall entry_in_range es -> 0 <= sumD es.
Proof.
  induction 1 as [|e es [_ He] _ IH]; cbn; [lia|]. fold (sumD es). lia.
Qed.

Lemma Forall_firstn_range (es : list TableEntry) (k : nat) :
  Forall entry_in_range es -> Forall entry_in_range (firstn k es).
Proof.
  intros Hes. rewrite <- (firstn_skipn k es) in Hes.
  apply Forall_app in Hes. tauto.
Qed.

Lemma Forall_skipn_range (es : list TableEntry) (k : nat) :
  Forall entry_in_range es -> Forall entry_in_range (skipn k es).
Proof.
  intros Hes. rewrite <- (firstn_skipn k es) in Hes.
  apply Forall_app in Hes. tauto.
Qed.

Lemma firstn_S_nth (es : list TableEntry) (k : nat) :
  (k < length es)%nat -> firstn (S k) es = firstn k es ++ [nth k es zeroEntry].
Proof.
  revert k. induction es as [|e es IH]; intros k Hk; cbn in Hk; [lia|].
  destruct k as [|k]; [reflexivity|].
  cbn [firstn nth app]. f_equal. apply IH. lia.
Qed.

Lemma sumC_step (es : list TableEntry) (k : nat) :
  (k < length es)%nat ->
  sumC (firstn (S k) es) = sumC (firstn k es) + CompressedSize (nth k es zeroEntry).
Proof. intros Hk. rewrite firstn_S_nth, sumC_app by exact Hk. cbn. lia. Qed.

Lemma sumD_step (es : list TableEntry) (k : nat) :
  (k < length es)%nat ->
  sumD (firstn (S k) es) = sumD (firstn k es) + DecompressedSize (nth k es zeroEntry).
Proof. intros Hk. rewrite firstn_S_nth, sumD_app by exact Hk. cbn. lia. Qed.

Lemma sumC_firstn_le (es : list TableEntry) (k : nat) :
  Forall entry_in_range es -> sumC (firstn k es) <= sumC es.
Proof.
  intros Hes. rewrite <- (firstn_skipn k es) at 2. rewrite sumC_app.
  pose proof (sumC_nonneg _ (Forall_skipn_range es k Hes)). lia.
Qed.

Lemma sumD_firstn_le (es : list TableEntry) (k : nat) :
  Forall entry_in_range es -> sumD (firstn k es) <= sumD es.
Proof.
  intros Hes. rewrite <- (firstn_skipn k es) at 2. rewrite sumD_app.
  pose proof (sumD_nonneg _ (Forall_skipn_range es k Hes)). lia.
Qed.

Lemma sumD_firstn_mono (es : list TableEntry) (j k : nat) :
  Forall entry_in_range es -> (j <= k)%nat ->
  sumD (firstn j es) <= sumD (firstn k es).
Proof.
  intros Hes Hjk.
  replace (firstn j es) with (firstn j (firstn k es))
    by (rewrite firstn_firstn; f_equal; lia).
  apply sumD_firstn_le. apply Forall_firstn_range. exact Hes.
Qed.

Lemma u64_small (z : Z) : 0 <= z < 18446744073709551616 -> u64 z = z.
Proof. intros Hz. unfold u64. apply Z.mod_small. exact Hz. Qed.

Lemma u32_small (z : Z) : 0 <= z < 4294967296 -> u32 z = z.
Proof. intros Hz. unfold u32. apply Z.mod_small. exact Hz. Qed.

Lemma nth_in_range (es : list TableEntry) (k : nat) :
  Forall entry_in_range es -> entry_in_range (nth k es zeroEntry).
Proof.
  intros Hes. destruct (Nat.lt_ge_cases k (length es)) as [Hk|Hk].
  - rewrite Forall_forall in Hes. apply Hes. apply nth_In. exact Hk.
  - rewrite nth_overflow by exact Hk. unfold entry_in_range. cbn. lia.
Qed.

Lemma CacheOffsets_loop_spec (t : Table) : fits64 t ->
  forall (k i : nat), (i + k = Z.to_nat (NumEntries t))%nat ->
  CacheOffsets_loop t k (Z.of_nat i)
    (sumC (firstn i (table_entries t))) (sumD (firstn i (table_entries t)))
  = Done (map (fun j => offsetAt t (Z.of_nat j)) (seq i k)).
Proof.
  intros [HfC HfD].
  pose proof (table_entries_in_range t) as Hr.
  pose proof (table_entries_length t) as Hlen. unfold len in Hlen.
  induction k as [|k IH]; intros i Hik; [reflexivity|].
  cbn [CacheOffsets_loop seq map].
  rewrite GetEntry_in_range by lia. cbn [bind].
  unfold entryAt. rewrite Nat2Z.id.
  rewrite <- sumC_step, <- sumD_step by lia.
  rewrite !u64_small.
  - replace (Z.of_nat i + 1) with (Z.of_nat (S i)) by lia.
    rewrite IH by lia. cbn [bind]. unfold offsetAt at 2. rewrite Nat2Z.id.
    reflexivity.
  - pose proof (sumD_firstn_le (table_entries t) (S i) Hr).
    pose proof (sumD_nonneg _ (Forall_firstn_range (table_entries t) (S i) Hr)).
    unfold totalDecompressedSize in HfD. lia.
  - pose proof (sumC_firstn_le (table_entries t) (S i) Hr).
    pose proof (sumC_nonneg _ (Forall_firstn_range (table_entries t) (S i) Hr)).
    unfold totalCompressedSize in HfC. lia.
Qed.

Lemma computeOffsets_spec (t : Table) :
  fits64 t -> computeOffsets t = Done (offsetsOf t).
Proof.
  intros Hf. unfold computeOffsets, offsetsOf.
  apply (CacheOffsets_loop_spec t Hf (Z.to_nat (NumEntries t)) 0). lia.
Qed.

Lemma CacheOffsets_fresh (t : Table) :
  fresh t -> fits64 t ->
  CacheOffsets t = Done (mkTable (entries t) true (offsetsOf t)).
Proof.
  intros Hfr Hf. unfold CacheOffsets.
  pose proof (computeOffsets_spec t Hf) as Hc.
  destruct (cached t) eqn:Ec.
  - destruct Hfr as [Hfr|Hfr]; [congruence|].
    rewrite Hc in Hfr. injection Hfr as Hfr. rewrite Hfr.
    destruct t; cbn in *. subst. reflexivity.
  - rewrite Hc. reflexivity.
Qed.

(* ------------------------------------------------------------------ *)
(** ** [Find] on a table whose cache is the one of its entries *)

Section FindProofs.
Variable t : Table.
Variable offset : Z.
Hypothesis Hcache : cachedOffsets t = offsetsOf t.
Hypothesis Hfit : fits64 t.
Hypothesis Hoff : 0 <= offset.

Let es : list TableEntry := table_entries t.
Let n : nat := Z.to_nat (NumEntries t).
Let start (j : nat) : Z := sumD (firstn j es).

(** The frame of entry [j] holds [offset]. *)
Let hit (j : nat) : bool := (start j <=? offset) && (offset <? start (S j)).

Lemma es_length : length es = n.
Proof.
  subst es n. pose proof (table_entries_length t) as Hl. unfold len in Hl. lia.
Qed.

Lemma start_mono (j k : nat) : (j <= k)%nat -> start j <= start k.
Proof. apply sumD_firstn_mono. apply table_entries_in_range. Qed.

Lemma start_total (j : nat) : 0 <= start j <= totalDecompressedSize t.
Proof.
  subst start. cbn beta. split.
  - apply sumD_nonneg, Forall_firstn_range, table_entries_in_range.
  - apply sumD_firstn_le, table_entries_in_range.
Qed.

Lemma start_all : start n = totalDecompressedSize t.
Proof.
  subst start. cbn beta. rewrite firstn_all2; [reflexivity|].
  rewrite es_length. lia.
Qed.

Lemma hit_unique (j k : nat) : hit j = true -> hit k = true -> j = k.
Proof.
  unfold hit. intros Hj Hk.
  apply andb_prop in Hj as [Hj1 Hj2]. apply andb_prop in Hk as [Hk1 Hk2].
  destruct (Nat.lt_trichotomy j k) as [Hlt|[Heq|Hgt]]; [|exact Heq|].
  - pose proof (start_mono (S j) k ltac:(lia)). lia.
  - pose proof (start_mono (S k) j ltac:(lia)). lia.
Qed.

Lemma hit_below_total (j : nat) : hit j = true -> offset < totalDecompressedSize t.
Proof.
  unfold hit. intros Hj. apply andb_prop in Hj as [_ Hj].
  pose proof (start_total (S j)). lia.
Qed.

Lemma hit_in_range (j : nat) : hit j = true -> (j < n)%nat.
Proof.
  unfold hit. intros Hj. apply andb_prop in Hj as [Hj1 Hj2].
  destruct (Nat.lt_ge_cases j n) as [Hlt|Hge]; [exact Hlt|exfalso].
  assert (He : start (S j) = start j).
  { subst start. cbn beta. rewrite !firstn_all2 by (rewrite es_length; lia).
    reflexivity. }
  lia.
Qed.

Lemma hit_exists (k : nat) : offset < start k -> exists j, (j < k)%nat /\ hit j = true.
Proof.
  induction k as [|k IH]; intros Hk.
  - subst start. cbn in Hk. lia.
  - destruct (Z.lt_ge_cases offset (start k)) as [Hlt|Hge].
    + destruct (IH Hlt) as [j [Hj Hh]]. exists j. split; [lia|exact Hh].
    + exists k. split; [lia|]. unfold hit.
      apply andb_true_intro. split; lia.
Qed.

Lemma cached_item (j : nat) :
  (j < n)%nat -> item (cachedOffsets t) (Z.of_nat j) = Done (offsetAt t (Z.of_nat j)).
Proof.
  intros Hj. rewrite Hcache.
  rewrite (item_ok _ _ zeroOffset).
  - unfold offsetsOf. f_equal. rewrite Nat2Z.id.
    change zeroOffset with ((fun i => offsetAt t (Z.of_nat i)) 0%nat) at 1.
    rewrite map_nth. rewrite seq_nth by (fold n; lia). reflexivity.
  - unfold len, offsetsOf. rewrite length_map, length_seq. fold n. lia.
Qed.

Lemma cached_length : length (cachedOffsets t) = n.
Proof. rewrite Hcache. unfold offsetsOf. rewrite length_map, length_seq. reflexivity. Qed.

(** What the containment test of the source evaluates to at entry [j]. *)
Lemma frame_end (j : nat) :
  (j < n)%nat ->
  u64 (EntryOffsetInDecompressed (offsetAt t (Z.of_nat j))
       + DecompressedSize (entryAt t (Z.of_nat j))) = start (S j).
Proof.
  intros Hj. unfold offsetAt, entryAt. cbn [EntryOffsetInDecompressed].
  rewrite Nat2Z.id. fold es.
  rewrite <- sumD_step by (rewrite es_length; lia).
  apply u64_small.
  pose proof (start_total (S j)). destruct Hfit as [_ Hd]. subst start. cbn beta in *. lia.
Qed.

Lemma frame_start (j : nat) :
  EntryOffsetInDecompressed (offsetAt t (Z.of_nat j)) = start j.
Proof. unfold offsetAt. cbn. rewrite Nat2Z.id. reflexivity. Qed.

Lemma Find_linear_step (j : nat) (rest : list TableOffset) :
  (j < n)%nat ->
  Find_linear t (offsetAt t (Z.of_nat j) :: rest) offset
  = if hit j then Done (offsetAt t (Z.of_nat j), true)
    else Find_linear t rest offset.
Proof.
  intros Hj. cbn [Find_linear]. rewrite frame_start. unfold hit.
  destruct (start j <=? offset) eqn:E1; cbn [andb]; [|reflexivity].
  change (EntryIndex (offsetAt t (Z.of_nat j))) with (Z.of_nat j).
  rewrite GetEntry_in_range by lia. cbn [bind].
  pose proof (frame_end j Hj) as He. rewrite frame_start in He. rewrite He.
  reflexivity.
Qed.

Lemma Find_linear_none (k : nat) : forall (i : nat),
  (i + k = n)%nat ->
  (forall j, (j < n)%nat -> hit j = false) ->
  Find_linear t (map (fun j => offsetAt t (Z.of_nat j)) (seq i k)) offset
  = Done (zeroOffset, false).
Proof.
  induction k as [|k IH]; intros i Hik Hno; [reflexivity|].
  cbn [seq map]. rewrite Find_linear_step by lia.
  rewrite Hno by lia. apply IH; [lia|exact Hno].
Qed.

Lemma Find_linear_some (j : nat) : hit j = true ->
  forall (k i : nat), (i + k = n)%nat -> (i <= j)%nat ->
  Find_linear t (map (fun j => offsetAt t (Z.of_nat j)) (seq i k)) offset
  = Done (offsetAt t (Z.of_nat j), true).
Proof.
  intros Hh. pose proof (hit_in_range j Hh) as Hj.
  induction k as [|k IH]; intros i Hik Hij; [lia|].
  cbn [seq map]. rewrite Find_linear_step by lia.
  destruct (hit i) eqn:Ei.
  - rewrite (hit_unique i j Ei Hh). reflexivity.
  - apply IH; [lia|].
    destruct (Nat.eq_dec i j) as [->|Hne]; [congruence|lia].
Qed.

Lemma Find_binary_step (fuel : nat) (low high : Z) :
  0 <= low -> low <= high -> high < Z.of_nat n ->
  Find_binary_loop (S fuel) t offset low high
  = let mid := Z.to_nat ((low + high) / 2) in
    if hit mid then Done (offsetAt t (Z.of_nat mid), true)
    else if offset <? start mid
         then Find_binary_loop fuel t offset low ((low + high) / 2 - 1)
         else Find_binary_loop fuel t offset ((low + high) / 2 + 1) high.
Proof.
  intros Hl Hlh Hh. cbn [Find_binary_loop].
  destruct (low <=? high) eqn:E; [|lia].
  assert (Hm : low <= (low + high) / 2 <= high).
  { split; [apply Z.div_le_lower_bound|apply Z.div_le_upper_bound]; lia. }
  set (mid := (low + high) / 2) in *.
  assert (Hmid : mid = Z.of_nat (Z.to_nat mid)) by lia.
  cbn zeta. rewrite Hmid at 1.
  rewrite cached_item by lia. cbn [bind].
  change (EntryIndex (offsetAt t (Z.of_nat (Z.to_nat mid)))) with (Z.of_nat (Z.to_nat mid)).
  rewrite GetEntry_in_range by lia. cbn [bind].
  rewrite frame_end by lia. rewrite frame_start. fold (hit (Z.to_nat mid)).
  reflexivity.
Qed.

Lemma Find_binary_none :
  (forall j, (j < n)%nat -> hit j = false) ->
  forall (fuel : nat) (low high : Z),
  0 <= low -> high < Z.of_nat n -> high - low + 1 < Z.of_nat (S fuel) ->
  Find_binary_loop fuel t offset low high = Done (zeroOffset, false).
Proof.
  intros Hno. induction fuel as [|fuel IH]; intros low high Hl Hh Hf.
  - cbn [Find_binary_loop]. destruct (low <=? high) eqn:E; [lia|reflexivity].
  - destruct (Z.le_gt_cases low high) as [Hle|Hgt].
    + assert (Hm : low <= (low + high) / 2 <= high).
      { split; [apply Z.div_le_lower_bound|apply Z.div_le_upper_bound]; lia. }
      rewrite Find_binary_step by lia. cbn zeta.
      rewrite Hno by lia.
      destruct (offset <? start (Z.to_nat ((low + high) / 2))); apply IH; lia.
    + cbn [Find_binary_loop]. destruct (low <=? high) eqn:E; [lia|reflexivity].
Qed.

Lemma Find_binary_some (j : nat) : hit j = true ->
  forall (fuel : nat) (low high : Z),
  0 <= low -> low <= Z.of_nat j -> Z.of_nat j <= high -> high < Z.of_nat n ->
  high - low + 1 < Z.of_nat (S fuel) ->
  Find_binary_loop fuel t offset low high = Done (offsetAt t (Z.of_nat j), true).
Proof.
  intros Hh. pose proof Hh as Hj. unfold hit in Hj.
  apply andb_prop in Hj as [Hj1 Hj2].
  induction fuel as [|fuel IH]; intros low high Hl Hlj Hjh Hhn Hf; [lia|].
  assert (Hm : low <= (low + high) / 2 <= high).
  { split; [apply Z.div_le_lower_bound|apply Z.div_le_upper_bound]; lia. }
  rewrite Find_binary_step by lia. cbn zeta.
  set (mid := Z.to_nat ((low + high) / 2)) in *.
  assert (Hmid : (low + high) / 2 = Z.of_nat mid) by lia.
  destruct (hit mid) eqn:Em.
  - rewrite (hit_unique mid j Em Hh). reflexivity.
  - destruct (offset <? start mid) eqn:Elt.
    + (* the frame of [j] starts before [mid] *)
      assert (Hjm : (j < mid)%nat).
      { destruct (Nat.lt_ge_cases j mid) as [Hlt|Hge]; [exact Hlt|exfalso].
        pose proof (start_mono mid j Hge). lia. }
      apply IH; lia.
    + assert (Hjm : (mid < j)%nat).
      { destruct (Nat.lt_ge_cases mid j) as [Hlt|Hge]; [exact Hlt|exfalso].
        destruct (Nat.eq_dec j mid) as [->|Hne]; [congruence|].
        unfold hit in Em.
        pose proof (start_mono (S j) mid ltac:(lia)).
        pose proof (start_mono mid (S mid) ltac:(lia)).
        apply andb_false_iff in Em. destruct Em as [Em|Em]; lia. }
      apply IH; lia.
Qed.

(** Both paths of [Find], and what they return. *)
Lemma Find_paths :
  exists r,
    Find_linear t (cachedOffsets t) offset = Done r
    /\ Find_binary t offset = Done r
    /\ ((snd r = false /\ fst r = zeroOffset /\ totalDecompressedSize t <= offset)
        \/ (exists j, (j < n)%nat /\ hit j = true
                      /\ r = (offsetAt t (Z.of_nat j), true))).
Proof.
  unfold Find_binary. rewrite cached_length. unfold len. rewrite cached_length.
  rewrite Hcache. unfold offsetsOf. fold n.
  destruct (Z.lt_ge_cases offset (totalDecompressedSize t)) as [Hlt|Hge].
  - destruct (hit_exists n ltac:(rewrite start_all; lia)) as [j [Hj Hh]].
    exists (offsetAt t (Z.of_nat j), true). split; [|split].
    + apply (Find_linear_some j Hh); lia.
    + apply (Find_binary_some j Hh); lia.
    + right. exists j. auto.
  - assert (Hno : forall j, (j < n)%nat -> hit j = false).
    { intros j _. destruct (hit j) eqn:Eh; [|reflexivity].
      pose proof (hit_below_total j Eh). lia. }
    exists (zeroOffset, false). split; [|split].
    + apply Find_linear_none; [lia|exact Hno].
    + apply Find_binary_none; [exact Hno|lia|lia|lia].
    + left. auto.
Qed.

(** What a hit at [j] says in terms of the table. *)
Lemma hit_spec (j : nat) :
  (j < n)%nat -> hit j = true ->
  EntryOffsetInDecompressed (offsetAt t (Z.of_nat j)) <= offset
  /\ offset < EntryOffsetInDecompressed (offsetAt t (Z.of_nat j))
              + DecompressedSize (entryAt t (Z.of_nat j)).
Proof.
  intros Hj Hh. unfold hit in Hh. apply andb_prop in Hh as [H1 H2].
  rewrite frame_start. unfold entryAt. rewrite Nat2Z.id. fold es.
  pose proof (sumD_step es j ltac:(rewrite es_length; lia)) as Hs.
  subst start. cbn beta in *. lia.
Qed.
End FindProofs.

(* ------------------------------------------------------------------ *)
(** ** The stale tables are reachable *)

Lemma staleAppended_reachable :
  exists t1 r,
    Find emptyTable 0 = Done (t1, r)
    /\ AppendEntry t1 (mkEntry 1 1) = Done staleAppended.
Proof. do 2 eexists. split; reflexivity. Qed.

Lemma staleSet_reachable :
  exists t1 t2,
    appendAll (repeat (mkEntry 1 10) 32) emptyTable = Done t1
    /\ CacheOffsets t1 = Done t2
    /\ SetEntry t2 0 (mkEntry 1 320) = Done staleSet.
Proof.
  do 2 eexists.
  split; [vm_compute; reflexivity|].
  split; vm_compute; reflexivity.
Qed.

(* ------------------------------------------------------------------ *)
(** ** [Find]: the properties *)

Lemma table_entries_ext (t1 t2 : Table) :
  entries t1 = entries t2 -> table_entries t1 = table_entries t2.
Proof. intros He. unfold table_entries, NumEntries. rewrite He. reflexivity. Qed.

Lemma offsetsOf_ext (t1 t2 : Table) :
  entries t1 = entries t2 -> offsetsOf t1 = offsetsOf t2.
Proof.
  intros He. unfold offsetsOf, offsetAt, NumEntries.
  rewrite (table_entries_ext t1 t2 He), He. reflexivity.
Qed.

Lemma fits64_ext (t1 t2 : Table) :
  entries t1 = entries t2 -> fits64 t1 -> fits64 t2.
Proof.
  intros He. unfold fits64, totalCompressedSize, totalDecompressedSize.
  rewrite (table_entries_ext t1 t2 He). tauto.
Qed.

(** C7, as the code has it. For every table whose offset cache, if it was
    computed at all, is the one of its current entries, and whose cumulative
    sizes fit in 64 bits, and for every offset, the linear scan and the
    binary search of [Find] both return, and return the same result. *)
Theorem Find_paths_agree (t : Table) (offset : Z) :
  fresh t -> fits64 t -> 0 <= offset ->
  exists t' r,
    CacheOffsets t = Done t'
    /\ Find_linear t' (cachedOffsets t') offset = Done r
    /\ Find_binary t' offset = Done r.
Proof.
  intros Hfr Hf Ho.
  exists (mkTable (entries t) true (offsetsOf t)).
  set (t' := mkTable (entries t) true (offsetsOf t)).
  assert (Hc : cachedOffsets t' = offsetsOf t') by (apply offsetsOf_ext; reflexivity).
  assert (Hf' : fits64 t') by (apply (fits64_ext t); [reflexivity|exact Hf]).
  destruct (Find_paths t' offset Hc Hf' Ho) as [r [Hl [Hb _]]].
  exists r. split; [apply CacheOffsets_fresh; assumption|]. split; assumption.
Qed.

Lemma Find_paths_agree_witness :
  exists t' r,
    CacheOffsets table32 = Done t'
    /\ Find_linear t' (cachedOffsets t') 155 = Done r
    /\ Find_binary t' 155 = Done r.
Proof.
  apply (Find_paths_agree table32 155).
  - left. reflexivity.
  - split; vm_compute; reflexivity.
  - lia.
Defined.

(** C7, as stated, fails: on [staleSet], whose cache predates a [SetEntry],
    the linear scan resolves offset 155 to entry 0 and the binary search,
    which is the path [Find] takes for its 32 cached offsets, to entry 15. *)
Lemma Find_paths_differ_stale :
  Find_linear staleSet (cachedOffsets staleSet) 155 = Done (mkOffset 0 0 0, true)
  /\ Find_binary staleSet 155 = Done (mkOffset 15 15 150, true)
  /\ Find staleSet 155 = Done (staleSet, (mkOffset 15 15 150, true)).
Proof. split; [|split]; vm_compute; reflexivity. Qed.

(** [Find] on a table whose cache is absent or current: it finds a frame
    exactly for the offsets below the total decompressed size, and the frame
    found is the one that holds the offset. *)
Lemma Find_frame (t : Table) (offset : Z) :
  fresh t -> fits64 t -> 0 <= offset ->
  exists t' to found,
    Find t offset = Done (t', (to, found))
    /\ entries t' = entries t
    /\ (found = true <-> offset < totalDecompressedSize t)
    /\ (found = true ->
        0 <= EntryIndex to < NumEntries t
        /\ to = offsetAt t (EntryIndex to)
        /\ EntryOffsetInDecompressed to <= offset
        /\ offset < EntryOffsetInDecompressed to
                    + DecompressedSize (entryAt t (EntryIndex to))).
Proof.
  intros Hfr Hf Ho.
  set (t' := mkTable (entries t) true (offsetsOf t)).
  assert (Hc : cachedOffsets t' = offsetsOf t') by (apply offsetsOf_ext; reflexivity).
  assert (Hf' : fits64 t') by (apply (fits64_ext t); [reflexivity|exact Hf]).
  assert (Hes : table_entries t' = table_entries t)
    by (apply table_entries_ext; reflexivity).
  assert (HN : NumEntries t' = NumEntries t) by reflexivity.
  assert (HT : totalDecompressedSize t' = totalDecompressedSize t)
    by (unfold totalDecompressedSize; rewrite Hes; reflexivity).
  pose proof (NumEntries_bounds t) as Hn.
  destruct (Find_paths t' offset Hc Hf' Ho) as [[to found] [Hl [Hb Hr]]].
  exists t', to, found. split; [|split; [reflexivity|]].
  - unfold Find. rewrite (CacheOffsets_fresh t Hfr Hf). fold t'. cbn [bind].
    destruct (len (cachedOffsets t') <? 32); [rewrite Hl|rewrite Hb]; reflexivity.
  - cbn [fst snd] in Hr. rewrite HT, HN in Hr.
    destruct Hr as [[Hfalse [_ Hge]]|[j [Hj [Hh Hr]]]].
    + subst found. split; [split; [discriminate|lia]|discriminate].
    + injection Hr as -> ->.
      split.
      * split; [intros _|reflexivity].
        rewrite <- HT. apply (hit_below_total t' offset j). exact Hh.
      * intros _.
        change (EntryIndex (offsetAt t' (Z.of_nat j))) with (Z.of_nat j).
        destruct (hit_spec t' offset j ltac:(rewrite HN; exact Hj) Hh) as [H1 H2].
        unfold entryAt in *. rewrite Hes in H2.
        split; [lia|]. split; [|split; assumption].
        unfold offsetAt. rewrite Hes. reflexivity.
Qed.

(** C2, as the code has it. For every table whose offset cache, if it was
    computed at all, is the one of its current entries, and whose cumulative
    sizes fit in 64 bits: [Find] returns; it reports not-found exactly when
    the table is empty or the offset is at or past the total decompressed
    size; otherwise the entry it returns holds the offset in its
    decompressed range, and its two offsets are the sums of the sizes of
    the entries before it. *)
Theorem Find_correct (t : Table) (offset : Z) :
  fresh t -> fits64 t -> 0 <= offset ->
  exists t' to found,
    Find t offset = Done (t', (to, found))
    /\ entries t' = entries t
    /\ (found = false <-> (NumEntries t = 0 \/ totalDecompressedSize t <= offset))
    /\ (found = true ->
        0 <= EntryIndex to < NumEntries t
        /\ GetEntry t (EntryIndex to) = Done (entryAt t (EntryIndex to))
        /\ EntryOffsetInDecompressed to <= offset
        /\ offset < EntryOffsetInDecompressed to
                    + DecompressedSize (entryAt t (EntryIndex to))
        /\ EntryOffsetInCompressed to
           = sumC (firstn (Z.to_nat (EntryIndex to)) (table_entries t))
        /\ EntryOffsetInDecompressed to
           = sumD (firstn (Z.to_nat (EntryIndex to)) (table_entries t))).
Proof.
  intros Hfr Hf Ho.
  pose proof (NumEntries_bounds t) as Hn.
  pose proof (table_entries_length t) as Hlen.
  destruct (Find_frame t offset Hfr Hf Ho)
    as [t' [to [found [HF [He [Hiff Hfound]]]]]].
  exists t', to, found. split; [exact HF|]. split; [exact He|]. split.
  - (* an empty table has total size 0 *)
    assert (Hempty : NumEntries t = 0 -> totalDecompressedSize t = 0).
    { intros Hz. unfold totalDecompressedSize.
      destruct (table_entries t); [reflexivity|].
      unfold len in Hlen. cbn [length] in Hlen. lia. }
    destruct found.
    + split; [discriminate|].
      assert (Hlt : offset < totalDecompressedSize t) by (apply Hiff; reflexivity).
      intros [Hz|Hge]; [rewrite (Hempty Hz) in Hlt|]; lia.
    + split; [|reflexivity]. intros _. right.
      destruct (Z.lt_ge_cases offset (totalDecompressedSize t)) as [Hlt|Hge];
        [|exact Hge].
      destruct Hiff as [_ Hiff]. specialize (Hiff Hlt). discriminate.
  - intros Ht. destruct (Hfound Ht) as [Hidx [Hto [Hlo Hhi]]].
    split; [exact Hidx|].
    split; [apply GetEntry_in_range; exact Hidx|].
    split; [exact Hlo|]. split; [exact Hhi|].
    rewrite Hto at 1 3. split; reflexivity.
Qed.

Lemma Find_correct_witness :
  exists t' to found,
    Find exampleTable 12 = Done (t', (to, found))
    /\ entries t' = entries exampleTable
    /\ (found = false
        <-> (NumEntries exampleTable = 0 \/ totalDecompressedSize exampleTable <= 12))
    /\ (found = true ->
        0 <= EntryIndex to < NumEntries exampleTable
        /\ GetEntry exampleTable (EntryIndex to)
           = Done (entryAt exampleTable (EntryIndex to))
        /\ EntryOffsetInDecompressed to <= 12
        /\ 12 < EntryOffsetInDecompressed to
                + DecompressedSize (entryAt exampleTable (EntryIndex to))
        /\ EntryOffsetInCompressed to
           = sumC (firstn (Z.to_nat (EntryIndex to)) (table_entries exampleTable))
        /\ EntryOffsetInDecompressed to
           = sumD (firstn (Z.to_nat (EntryIndex to)) (table_entries exampleTable))).
Proof.
  apply (Find_correct exampleTable 12).
  - left. reflexivity.
  - split; vm_compute; reflexivity.
  - lia.
Defined.

(** C2, as stated, fails: [staleAppended] has one entry and a total
    decompressed size of 1, yet [Find] does not find offset 0 in it. *)
Lemma Find_stale_cache_not_found :
  Find staleAppended 0 = Done (staleAppended, (zeroOffset, false))
  /\ NumEntries staleAppended = 1
  /\ totalDecompressedSize staleAppended = 1.
Proof. repeat split; reflexivity. Qed.

(* ------------------------------------------------------------------ *)
(** ** The codec: what is written *)

Lemma Buffer_lawful : lawfulWriter Buffer.
Proof. intros w w' p n. cbn. intros [= _ <-]. reflexivity. Qed.

Lemma tableHeader_length (t : Table) : len (tableHeader t) = 8.
Proof. reflexivity. Qed.

Lemma tableFooter_length (t : Table) : len (tableFooter t) = 9.
Proof. reflexivity. Qed.

Lemma serialized_length (t : Table) : len (serialized t) = Size t.
Proof.
  unfold serialized, Size. rewrite !len_app, tableHeader_length, tableFooter_length. lia.
Qed.

Lemma WriteTable_Buffer (t : Table) (b : Buffer) :
  WriteTableToWriter t b
  = (mkBuffer (buf_bytes b ++ serialized t), (Size t, None)).
Proof.
  unfold WriteTableToWriter, serialized, Size. cbn [io_Write Buffer_Writer buf_bytes].
  fold (tableHeader t). fold (tableFooter t).
  rewrite <- !app_assoc. f_equal. f_equal.
  rewrite tableHeader_length, tableFooter_length. lia.
Qed.

Lemma WriteTable_count {W : Type} `{Writer W} (t : Table) (w w' : W) (n : Z) :
  lawfulWriter W ->
  WriteTableToWriter t w = (w', (n, None)) -> n = Size t.
Proof.
  intros Hlaw. unfold WriteTableToWriter.
  destruct (io_Write w _) as [w1 [n1 [e1|]]] eqn:E1; [discriminate|].
  destruct (io_Write w1 _) as [w2 [n2 [e2|]]] eqn:E2; [discriminate|].
  destruct (io_Write w2 _) as [w3 [n3 [e3|]]] eqn:E3; [discriminate|].
  intros [= _ <-].
  apply Hlaw in E1, E2, E3. subst n1 n2 n3. unfold Size.
  change (len (PutUint32 _ ++ PutUint32 _)) with 8.
  change (len (PutUint32 (u32 (NumEntries t)) ++ _)) with 9. lia.
Qed.

Lemma serialized_header (t : Table) :
  firstn 4 (serialized t) = [x5e; x2a; x4d; x18]
  /\ Uint32 (firstn 4 (skipn 4 (serialized t))) = u32 (len (entries t) + 9).
Proof.
  unfold serialized, tableHeader. split.
  - reflexivity.
  - change (firstn 4 (skipn 4 ((PutUint32 0x184D2A5E ++ PutUint32 (u32 (len (entries t) + 9)))
                               ++ entries t ++ tableFooter t)))
      with (PutUint32 (u32 (len (entries t) + 9))).
    rewrite Uint32_PutUint32. unfold u32. apply Z.mod_mod. lia.
Qed.

Lemma serialized_footer (t : Table) :
  skipn (Z.to_nat (len (serialized t) - 9)) (serialized t) = tableFooter t.
Proof.
  unfold serialized. rewrite app_assoc.
  rewrite len_app, tableFooter_length.
  replace (Z.to_nat (len (tableHeader t ++ entries t) + 9 - 9))
    with (length (tableHeader t ++ entries t)) by (unfold len; lia).
  rewrite skipn_app, skipn_all, Nat.sub_diag. reflexivity.
Qed.

Lemma tableFooter_fields (t : Table) :
  Uint32 (firstn 4 (tableFooter t)) = u32 (NumEntries t)
  /\ nth 4 (tableFooter t) x01 = x00
  /\ firstn 4 (skipn 5 (tableFooter t)) = [xb1; xea; x92; x8f]
  /\ Uint32 (skipn 5 (tableFooter t)) = footerMagicNumber.
Proof.
  unfold tableFooter. repeat split.
  change (firstn 4 (PutUint32 (u32 (NumEntries t)) ++ [x00] ++ PutUint32 footerMagicNumber))
    with (PutUint32 (u32 (NumEntries t))).
  rewrite Uint32_PutUint32. unfold u32. apply Z.mod_mod. lia.
Qed.

Lemma wfTable_Size (t : Table) : wfTable t -> Size t = NumEntries t * 8 + 17.
Proof. unfold wfTable, Size. lia. Qed.

(** The tables the package builds consist of whole entries. *)
Lemma wfTable_empty : wfTable emptyTable.
Proof. reflexivity. Qed.

Lemma wfTable_AppendEntry (t t' : Table) (e : TableEntry) :
  wfTable t -> AppendEntry t e = Done t' -> wfTable t'.
Proof.
  unfold wfTable, NumEntries. intros Hwf. rewrite AppendEntry_eq. intros [= <-].
  cbn [entries]. rewrite appended_NumEntries.
  unfold len at 1. rewrite appended_length. unfold len in *. lia.
Qed.

(** C9, as the code has it. For every table of whole entries with
    [count * 8 + 9 < 2^32]: [Size] is [count * 8 + 17]; a
    [WriteTableToWriter] that returns a nil error on a lawful sink returns
    that count; and the bytes written to a buffer are the header magic
    [0x184D2A5E] and [count * 8 + 9], little-endian, then the entries, then
    nine bytes: the count, a zero byte and the footer magic [0x8F92EAB1],
    little-endian. *)
Theorem WriteTable_layout (t : Table) (pre : list byte) :
  wfTable t -> NumEntries t * 8 + 9 < 4294967296 ->
  Size t = NumEntries t * 8 + 17
  /\ (forall (W : Type) (io : Writer W) (w w' : W) (n : Z),
        lawfulWriter W -> WriteTableToWriter t w = (w', (n, None)) ->
        n = NumEntries t * 8 + 17)
  /\ exists out,
       WriteTableToWriter t (mkBuffer pre)
       = (mkBuffer (pre ++ out), (NumEntries t * 8 + 17, None))
       /\ len out = NumEntries t * 8 + 17
       /\ firstn 4 out = [x5e; x2a; x4d; x18]
       /\ Uint32 (firstn 4 out) = 0x184D2A5E
       /\ Uint32 (firstn 4 (skipn 4 out)) = NumEntries t * 8 + 9
       /\ firstn (Z.to_nat (NumEntries t * 8)) (skipn 8 out) = entries t
       /\ (let footer := skipn (Z.to_nat (len out - 9)) out in
           len footer = 9
           /\ Uint32 (firstn 4 footer) = NumEntries t
           /\ nth 4 footer x01 = x00
           /\ firstn 4 (skipn 5 footer) = [xb1; xea; x92; x8f]
           /\ Uint32 (firstn 4 (skipn 5 footer)) = 0x8F92EAB1).
Proof.
  intros Hwf Hsz. pose proof (NumEntries_bounds t) as Hn.
  pose proof (wfTable_Size t Hwf) as HS.
  split; [exact HS|]. split.
  - intros W io w w' n Hlaw Hw. rewrite <- HS. eapply WriteTable_count; eauto.
  - exists (serialized t).
    destruct (serialized_header t) as [Hh1 Hh2].
    destruct (tableFooter_fields t) as [Hf1 [Hf2 [Hf3 Hf4]]].
    rewrite WriteTable_Buffer. cbn [buf_bytes]. rewrite HS.
    split; [reflexivity|].
    split; [rewrite serialized_length; exact HS|].
    split; [exact Hh1|].
    split; [rewrite Hh1; reflexivity|].
    split; [rewrite Hh2; unfold wfTable in Hwf; rewrite Hwf; apply u32_small; lia|].
    split.
    { unfold serialized.
      change (skipn 8 (tableHeader t ++ entries t ++ tableFooter t))
        with (entries t ++ tableFooter t).
      unfold wfTable in Hwf. rewrite <- Hwf. unfold len. rewrite Nat2Z.id.
      rewrite firstn_app, firstn_all, Nat.sub_diag. cbn [firstn]. apply app_nil_r. }
    cbv zeta. rewrite serialized_footer.
    split; [reflexivity|].
    split; [rewrite Hf1; apply u32_small; lia|].
    split; [exact Hf2|]. split; [exact Hf3|].
    rewrite Hf3. reflexivity.
Qed.

Lemma WriteTable_layout_witness :
  Size exampleTable = NumEntries exampleTable * 8 + 17
  /\ (forall (W : Type) (io : Writer W) (w w' : W) (n : Z),
        lawfulWriter W -> WriteTableToWriter exampleTable w = (w', (n, None)) ->
        n = NumEntries exampleTable * 8 + 17)
  /\ exists out,
       WriteTableToWriter exampleTable (mkBuffer [x01; x02])
       = (mkBuffer ([x01; x02] ++ out), (NumEntries exampleTable * 8 + 17, None))
       /\ len out = NumEntries exampleTable * 8 + 17
       /\ firstn 4 out = [x5e; x2a; x4d; x18]
       /\ Uint32 (firstn 4 out) = 0x184D2A5E
       /\ Uint32 (firstn 4 (skipn 4 out)) = NumEntries exampleTable * 8 + 9
       /\ firstn (Z.to_nat (NumEntries exampleTable * 8)) (skipn 8 out)
          = entries exampleTable
       /\ (let footer := skipn (Z.to_nat (len out - 9)) out in
           len footer = 9
           /\ Uint32 (firstn 4 footer) = NumEntries exampleTable
           /\ nth 4 footer x01 = x00
           /\ firstn 4 (skipn 5 footer) = [xb1; xea; x92; x8f]
           /\ Uint32 (firstn 4 (skipn 5 footer)) = 0x8F92EAB1).
Proof.
  apply (WriteTable_layout exampleTable [x01; x02]).
  - reflexivity.
  - vm_compute. reflexivity.
Defined.

Lemma hugeTable_len : len (entries hugeTable) = 4294967296.
Proof.
  unfold hugeTable, len. cbn [entries]. rewrite repeat_length.
  apply Z2Nat.id. lia.
Qed.

(** C9, as stated, fails: for a table of [2^29] entries the declared size in
    the header is 9, not [count * 8 + 9]. *)
Lemma WriteTable_declaredSize_wraps :
  NumEntries hugeTable = 536870912
  /\ exists out,
       WriteTableToWriter hugeTable (mkBuffer []) = (mkBuffer out, (Size hugeTable, None))
       /\ Uint32 (firstn 4 (skipn 4 out)) = 9
       /\ NumEntries hugeTable * 8 + 9 = 4294967305.
Proof.
  assert (HN : NumEntries hugeTable = 536870912).
  { unfold NumEntries. rewrite hugeTable_len. reflexivity. }
  split; [exact HN|].
  exists (serialized hugeTable).
  rewrite WriteTable_Buffer.
  split; [reflexivity|].
  destruct (serialized_header hugeTable) as [_ Hh]. rewrite Hh.
  rewrite hugeTable_len, HN. split; reflexivity.
Qed.

(* ------------------------------------------------------------------ *)
(** ** The codec: reading back *)

Lemma Seek_from_end (s : list byte) (i k : Z) :
  k <= len s ->
  BytesReader_Seek (mkBytesReader s i) (- k) SeekEnd
  = (mkBytesReader s (len s - k), (len s - k, None)).
Proof.
  intros Hk. unfold BytesReader_Seek. cbn [rd_s rd_i].
  change (SeekEnd =? SeekStart) with false.
  change (SeekEnd =? SeekCurrent) with false.
  change (SeekEnd =? SeekEnd) with true. cbn [orb].
  destruct (len s + - k <? 0) eqn:E; [lia|].
  replace (len s + - k) with (len s - k) by lia. reflexivity.
Qed.

Lemma ReadFull_zero (r : BytesReader) : BytesReader_ReadFull r 0 = (r, ([], None)).
Proof. reflexivity. Qed.

Lemma ReadFull_chunk (a b c : list byte) :
  0 < len b ->
  BytesReader_ReadFull (mkBytesReader (a ++ b ++ c) (len a)) (len b)
  = (mkBytesReader (a ++ b ++ c) (len a + len b), (b, None)).
Proof.
  intros Hb. unfold BytesReader_ReadFull. cbn [rd_s rd_i].
  destruct (len b <=? 0) eqn:E0; [lia|].
  pose proof (len_nonneg a). pose proof (len_nonneg c).
  assert (Hs : skipn (Z.to_nat (len a)) (a ++ b ++ c) = b ++ c).
  { replace (Z.to_nat (len a)) with (length a) by (unfold len; lia).
    rewrite skipn_app, skipn_all, Nat.sub_diag. reflexivity. }
  rewrite Hs. rewrite !len_app.
  destruct (len a + (len b + len c) <=? len a) eqn:E1; [lia|].
  destruct (len b <=? len b + len c) eqn:E2; [|lia].
  replace (Z.to_nat (len b)) with (length b) by (unfold len; lia).
  rewrite firstn_app, firstn_all, Nat.sub_diag. cbn [firstn].
  rewrite app_nil_r. reflexivity.
Qed.

(** The emptiness loop looks at the first four bytes only. *)
Lemma emptyCheck_pass (b0 b1 b2 b3 : byte) (rest : list byte) (numEntries : Z) :
  Uint32 [b0; b1; b2; b3] <> 0 -> numEntries + 4 < 4294967296 ->
  forall (fuel : nat) (i : Z),
    0 <= i -> numEntries - i <= 4 * Z.of_nat fuel ->
    emptyCheck_loop fuel (b0 :: b1 :: b2 :: b3 :: rest) numEntries i = Done None.
Proof.
  intros Hnz Hsz.
  assert (Hb : Byte.eqb b0 x00 && Byte.eqb b1 x00 && Byte.eqb b2 x00 && Byte.eqb b3 x00
               = false).
  { destruct (Byte.eqb b0 x00) eqn:E0; [|reflexivity].
    destruct (Byte.eqb b1 x00) eqn:E1; [|reflexivity].
    destruct (Byte.eqb b2 x00) eqn:E2; [|reflexivity].
    destruct (Byte.eqb b3 x00) eqn:E3; [|reflexivity].
    exfalso. apply Hnz. apply Uint32_zero_iff.
    repeat split; apply Byte.byte_dec_bl; assumption. }
  induction fuel as [|fuel IH]; intros i Hi Hf.
  - cbn [emptyCheck_loop]. destruct (i <? numEntries) eqn:E; [lia|reflexivity].
  - cbn [emptyCheck_loop]. destruct (i <? numEntries) eqn:E; [|reflexivity].
    assert (Hnext : emptyCheck_loop fuel (b0 :: b1 :: b2 :: b3 :: rest) numEntries
                      (u32 (i + 4)) = Done None).
    { rewrite u32_small by lia. apply IH; lia. }
    rewrite Hnext.
    change (item (b0 :: b1 :: b2 :: b3 :: rest) 0) with (Done b0).
    cbn [bind].
    destruct (Byte.eqb b0 x00); [|reflexivity].
    assert (H1 : item (b0 :: b1 :: b2 :: b3 :: rest) 1 = Done b1)
      by (rewrite (item_ok _ _ x00); [reflexivity|unfold len; cbn [length]; lia]).
    rewrite H1. cbn [bind].
    destruct (Byte.eqb b1 x00); [|reflexivity].
    assert (H2 : item (b0 :: b1 :: b2 :: b3 :: rest) 2 = Done b2)
      by (rewrite (item_ok _ _ x00); [reflexivity|unfold len; cbn [length]; lia]).
    rewrite H2. cbn [bind].
    destruct (Byte.eqb b2 x00); [|reflexivity].
    assert (H3 : item (b0 :: b1 :: b2 :: b3 :: rest) 3 = Done b3)
      by (rewrite (item_ok _ _ x00); [reflexivity|unfold len; cbn [length]; lia]).
    rewrite H3. cbn [bind].
    destruct (Byte.eqb b3 x00); [|reflexivity].
    discriminate Hb.
Qed.

Lemma emptyCheck_fail (rest : list byte) (numEntries : Z) (fuel : nat) :
  0 < numEntries ->
  emptyCheck_loop (S fuel) (x00 :: x00 :: x00 :: x00 :: rest) numEntries 0
  = Done (Some ErrEmptyChunk).
Proof.
  intros Hn. cbn [emptyCheck_loop]. destruct (0 <? numEntries) eqn:E; [|lia].
  change (item (x00 :: x00 :: x00 :: x00 :: rest) 0) with (Done x00).
  cbn [bind]. change (Byte.eqb x00 x00) with true. cbv iota.
  assert (H1 : item (x00 :: x00 :: x00 :: x00 :: rest) 1 = Done x00)
    by (rewrite (item_ok _ _ x00); [reflexivity|unfold len; cbn [length]; lia]).
  assert (H2 : item (x00 :: x00 :: x00 :: x00 :: rest) 2 = Done x00)
    by (rewrite (item_ok _ _ x00); [reflexivity|unfold len; cbn [length]; lia]).
  assert (H3 : item (x00 :: x00 :: x00 :: x00 :: rest) 3 = Done x00)
    by (rewrite (item_ok _ _ x00); [reflexivity|unfold len; cbn [length]; lia]).
  rewrite H1. cbn [bind]. cbv iota.
  rewrite H2. cbn [bind]. cbv iota.
  rewrite H3. cbn [bind]. reflexivity.
Qed.

Lemma emptyCheck_none (entriesData : list byte) (fuel : nat) :
  emptyCheck_loop fuel entriesData 0 0 = Done None.
Proof. destruct fuel; reflexivity. Qed.

Lemma ReadFull_at (s a b c : list byte) (i n : Z) :
  s = a ++ b ++ c -> i = len a -> n = len b -> 0 < n ->
  BytesReader_ReadFull (mkBytesReader s i) n = (mkBytesReader s (i + n), (b, None)).
Proof. intros -> -> -> Hn. apply ReadFull_chunk. exact Hn. Qed.

(** The outcome of the emptiness loop on the entries of a table. *)
Lemma emptyCheck_entries (t : Table) :
  wfTable t -> NumEntries t + 4 < 4294967296 ->
  emptyCheck_loop (S (Z.to_nat (NumEntries t / 4))) (entries t) (NumEntries t) 0
  = Done (if (0 <? NumEntries t) && (CompressedSize (entryAt t 0) =? 0)
          then Some ErrEmptyChunk else None).
Proof.
  intros Hwf Hsz. pose proof (NumEntries_bounds t) as Hn.
  destruct (0 <? NumEntries t) eqn:E0; cbn [andb].
  - assert (HC : CompressedSize (entryAt t 0) = Uint32 (firstn 4 (entries t))).
    { unfold entryAt, table_entries. rewrite nth_decodeEntries by lia. reflexivity. }
    rewrite HC. clear HC.
    unfold wfTable in Hwf.
    destruct (entries t) as [|b0 [|b1 [|b2 [|b3 rest]]]] eqn:Eb;
      try (unfold len in Hwf; cbn [length] in Hwf; lia).
    cbn [firstn].
    destruct (Uint32 [b0; b1; b2; b3] =? 0) eqn:Ez.
    + apply Z.eqb_eq, Uint32_zero_iff in Ez. destruct Ez as [-> [-> [-> ->]]].
      apply emptyCheck_fail. lia.
    + apply Z.eqb_neq in Ez. apply emptyCheck_pass; try lia.
      pose proof (Z.div_mod (NumEntries t) 4 ltac:(lia)).
      pose proof (Z.mod_pos_bound (NumEntries t) 4 ltac:(lia)).
      pose proof (Z.div_pos (NumEntries t) 4 ltac:(lia) ltac:(lia)).
      lia.
  - replace (NumEntries t) with 0 by lia. apply emptyCheck_none.
Qed.

Lemma ReadTable_serialized (t : Table) (pre : list byte) :
  wfTable t -> NumEntries t * 8 + 17 < 4294967296 ->
  exists rd,
    ReadTableFromReadSeeker (NewReader (pre ++ serialized t))
    = Done (rd, if (0 <? NumEntries t) && (CompressedSize (entryAt t 0) =? 0)
                then Err ErrEmptyChunk
                else Ok (mkTable (entries t) false [])).
Proof.
  intros Hwf Hsz. pose proof (NumEntries_bounds t) as Hn.
  pose proof Hwf as Hlen. unfold wfTable in Hlen.
  destruct (tableFooter_fields t) as [Hf1 [_ [_ Hf4]]].
  rewrite u32_small in Hf1 by lia.
  set (s := pre ++ serialized t).
  assert (Hs : len s = len pre + NumEntries t * 8 + 17).
  { subst s. rewrite len_app, serialized_length. unfold Size. lia. }
  pose proof (len_nonneg pre) as Hpre.
  unfold ReadTableFromReadSeeker, NewReader.
  cbn [io_Seek io_ReadFull BytesReader_ReadSeeker].
  (* the footer *)
  change (-9) with (Z.opp 9).
  rewrite (Seek_from_end s 0 9) by lia.
  rewrite (ReadFull_at s (pre ++ tableHeader t ++ entries t) (tableFooter t) []
             (len s - 9) 9).
  2:{ subst s. unfold serialized. rewrite app_nil_r, <- !app_assoc. reflexivity. }
  2:{ rewrite !len_app, tableHeader_length. lia. }
  2:{ reflexivity. }
  2:{ lia. }
  cbv beta iota zeta.
  rewrite Hf1.
  replace (firstn 4 (skipn 5 (tableFooter t))) with (skipn 5 (tableFooter t)) by reflexivity.
  rewrite Hf4. rewrite Z.eqb_refl. cbn [negb].
  (* the header *)
  rewrite (u32_small (NumEntries t * 8)) by lia.
  rewrite (u32_small (8 + NumEntries t * 8)) by lia.
  rewrite (u32_small (8 + NumEntries t * 8 + 9)) by lia.
  rewrite (Seek_from_end s _ (8 + NumEntries t * 8 + 9)) by lia.
  rewrite (ReadFull_at s pre (tableHeader t) (entries t ++ tableFooter t)
             (len s - (8 + NumEntries t * 8 + 9)) 8).
  2:{ reflexivity. }
  2:{ lia. }
  2:{ reflexivity. }
  2:{ lia. }
  cbv beta iota zeta.
  change (Uint32 (firstn 4 (tableHeader t))) with headerMagicNumber.
  rewrite Z.eqb_refl. cbn [negb].
  change (skipn 4 (tableHeader t)) with (PutUint32 (u32 (len (entries t) + 9))).
  rewrite Uint32_PutUint32, Hlen.
  rewrite !(u32_small (NumEntries t * 8 + 9)) by lia.
  rewrite Z.eqb_refl. cbn [negb].
  (* the entries *)
  assert (Hent : BytesReader_ReadFull
                   (mkBytesReader s (len s - (8 + NumEntries t * 8 + 9) + 8))
                   (NumEntries t * 8)
                 = (mkBytesReader s (len pre + 8 + NumEntries t * 8), (entries t, None))).
  { destruct (Z.eq_dec (NumEntries t) 0) as [Hz|Hnz].
    - rewrite Hz. cbn [Z.mul]. rewrite ReadFull_zero.
      destruct (entries t); [|unfold len in Hlen; cbn [length] in Hlen; lia].
      do 2 f_equal. lia.
    - rewrite (ReadFull_at s (pre ++ tableHeader t) (entries t) (tableFooter t) _ _).
      + do 2 f_equal. lia.
      + subst s. unfold serialized. rewrite <- !app_assoc. reflexivity.
      + rewrite len_app, tableHeader_length. lia.
      + lia.
      + lia. }
  rewrite Hent. cbv beta iota zeta.
  rewrite emptyCheck_entries by (assumption || lia).
  cbn [bind].
  eexists.
  destruct ((0 <? NumEntries t) && (CompressedSize (entryAt t 0) =? 0)); reflexivity.
Qed.

(** C8, as the code has it. For every table of whole entries whose
    serialized size is below [2^32] and whose entries all have a non-zero
    [CompressedSize]: [WriteTableToWriter] to a buffer followed by
    [ReadTableFromReadSeeker] on the bytes succeeds, and the table read has
    the same number of entries and the same entry at every index. *)
Theorem Table_roundtrip (t : Table) (pre : list byte) :
  wfTable t -> NumEntries t * 8 + 17 < 4294967296 ->
  Forall (fun e => CompressedSize e <> 0) (table_entries t) ->
  exists out rd t',
    WriteTableToWriter t (mkBuffer pre) = (mkBuffer out, (Size t, None))
    /\ ReadTableFromReadSeeker (NewReader out) = Done (rd, Ok t')
    /\ NumEntries t' = NumEntries t
    /\ forall i, 0 <= i < NumEntries t ->
         GetEntry t' i = GetEntry t i /\ GetEntry t i = Done (entryAt t i).
Proof.
  intros Hwf Hsz Hnz. pose proof (NumEntries_bounds t) as Hn.
  destruct (ReadTable_serialized t pre Hwf Hsz) as [rd Hrd].
  exists (pre ++ serialized t), rd, (mkTable (entries t) false []).
  split; [apply WriteTable_Buffer|].
  assert (Hfirst : (0 <? NumEntries t) && (CompressedSize (entryAt t 0) =? 0) = false).
  { destruct (0 <? NumEntries t) eqn:E0; [|reflexivity]. cbn [andb].
    apply Z.eqb_neq. rewrite Forall_forall in Hnz. apply Hnz.
    unfold entryAt. apply nth_In.
    pose proof (table_entries_length t) as Hl. unfold len in Hl. lia. }
  rewrite Hfirst in Hrd.
  split; [exact Hrd|]. split; [reflexivity|].
  intros i Hi. split; [reflexivity|apply GetEntry_in_range; exact Hi].
Qed.

Lemma Table_roundtrip_witness :
  exists out rd t',
    WriteTableToWriter exampleTable (mkBuffer [x01; x02])
    = (mkBuffer out, (Size exampleTable, None))
    /\ ReadTableFromReadSeeker (NewReader out) = Done (rd, Ok t')
    /\ NumEntries t' = NumEntries exampleTable
    /\ forall i, 0 <= i < NumEntries exampleTable ->
         GetEntry t' i = GetEntry exampleTable i
         /\ GetEntry exampleTable i = Done (entryAt exampleTable i).
Proof.
  apply (Table_roundtrip exampleTable [x01; x02]).
  - reflexivity.
  - vm_compute. reflexivity.
  - repeat constructor; cbn; lia.
Defined.

(** C8, as stated, fails: the one-entry table [(0, 7)] is written, and
    reading the bytes back is refused with the empty-chunk error. *)
Lemma Table_roundtrip_rejects_empty_chunk :
  exists out rd,
    WriteTableToWriter emptyChunkFirst (mkBuffer []) = (mkBuffer out, (25, None))
    /\ ReadTableFromReadSeeker (NewReader out) = Done (rd, Err ErrEmptyChunk).
Proof. do 2 eexists. split; reflexivity. Qed.

(** C3: the code at the failing input. The serialized two-entry table
    [(5, 10)], [(0, 7)] has a well-formed header and footer and an entry
    with [compressedSize = 0], and [ReadTableFromReadSeeker] accepts it. *)
Theorem ReadTable_accepts_empty_chunk :
  exists rd t',
    ReadTableFromReadSeeker (NewReader (serialized emptyChunkSecond)) = Done (rd, Ok t')
    /\ GetEntry t' 1 = Done (mkEntry 0 7).
Proof. do 2 eexists. split; reflexivity. Qed.

(** On the bytes of any serialized table the emptiness check is decided by
    the first entry alone. *)
Lemma ReadTable_empty_chunk_first_only (t : Table) (pre : list byte) :
  wfTable t -> NumEntries t * 8 + 17 < 4294967296 ->
  exists rd r,
    ReadTableFromReadSeeker (NewReader (pre ++ serialized t)) = Done (rd, r)
    /\ (r = Err ErrEmptyChunk
        <-> 0 < NumEntries t /\ CompressedSize (entryAt t 0) = 0).
Proof.
  intros Hwf Hsz. destruct (ReadTable_serialized t pre Hwf Hsz) as [rd Hrd].
  do 2 eexists. split; [exact Hrd|].
  destruct (0 <? NumEntries t) eqn:E0; cbn [andb].
  - destruct (CompressedSize (entryAt t 0) =? 0) eqn:E1.
    + apply Z.eqb_eq in E1. split; [intros _; lia|reflexivity].
    + apply Z.eqb_neq in E1. split; [discriminate|lia].
  - split; [discriminate|lia].
Qed.

(* ------------------------------------------------------------------ *)
(** ** The reader: construction *)

Lemma BytesReader_lawful : lawfulReader BytesReader.
Proof.
  intros r r' n bs. cbn [io_ReadFull BytesReader_ReadSeeker].
  unfold BytesReader_ReadFull.
  destruct (n <=? 0) eqn:E0.
  - intros [= _ <-]. unfold len. cbn [length]. lia.
  - destruct (len (rd_s r) <=? rd_i r) eqn:E1; [discriminate|].
    destruct (n <=? len (skipn (Z.to_nat (rd_i r)) (rd_s r))) eqn:E2; [|discriminate].
    intros [= _ <-]. unfold len in *. rewrite length_firstn. lia.
Qed.

Lemma u32_range (z : Z) : 0 <= u32 z < 4294967296.
Proof. unfold u32. apply Z.mod_pos_bound. lia. Qed.

Lemma u64_range (z : Z) : 0 <= u64 z < 18446744073709551616.
Proof. unfold u64. apply Z.mod_pos_bound. lia. Qed.

(** A table that was read has an absent cache and fewer than [2^32] bytes
    of entries, a whole number of entries. *)
Lemma ReadTable_inv {R : Type} `{ReadSeeker R} (src src' : R) (tbl : Table) :
  lawfulReader R ->
  ReadTableFromReadSeeker src = Done (src', Ok tbl) ->
  cached tbl = false /\ len (entries tbl) < 4294967296 /\ wfTable tbl.
Proof.
  intros Hlaw. unfold ReadTableFromReadSeeker.
  destruct (io_Seek src (-9) SeekEnd) as [d1 [n1 [e1|]]]; [discriminate|].
  destruct (io_ReadFull d1 9) as [d2 [footer [e2|]]]; [discriminate|].
  destruct (negb (Uint32 (skipn 5 footer) =? footerMagicNumber)); [discriminate|].
  destruct (io_Seek d2 _ SeekEnd) as [d3 [n3 [e3|]]]; [discriminate|].
  destruct (io_ReadFull d3 8) as [d4 [header [e4|]]]; [discriminate|].
  destruct (negb (Uint32 (firstn 4 header) =? headerMagicNumber)); [discriminate|].
  destruct (negb (Uint32 (skipn 4 header) =? _)); [discriminate|].
  destruct (io_ReadFull d4 _) as [d5 [entriesData [e5|]]] eqn:E5; [discriminate|].
  destruct (emptyCheck_loop _ _ _ _) as [[e6|]| |]; cbn [bind]; try discriminate.
  intros [= _ <-]. unfold wfTable, NumEntries. cbn [cached entries].
  split; [reflexivity|].
  apply Hlaw in E5. rewrite E5.
  pose proof (u32_range (Uint32 (firstn 4 footer) * 8)) as Hr.
  split; [lia|].
  unfold u32 in *.
  pose proof (Z.div_mod (Uint32 (firstn 4 footer) * 8) 4294967296 ltac:(lia)) as Hd.
  set (m := (Uint32 (firstn 4 footer) * 8) mod 4294967296) in *.
  set (q := Uint32 (firstn 4 footer) * 8 / 4294967296) in *.
  replace (Z.max 0 m) with (8 * (Uint32 (firstn 4 footer) - 536870912 * q)) by lia.
  rewrite Z.mul_comm, Z.div_mul by lia. lia.
Qed.

Lemma sumC_bound (es : list TableEntry) :
  Forall entry_in_range es -> sumC es <= len es * 4294967295.
Proof.
  induction 1 as [|e es [He _] _ IH]; unfold len in *; cbn [sumC fold_right length].
  - lia.
  - fold (sumC es). lia.
Qed.

Lemma sumD_bound (es : list TableEntry) :
  Forall entry_in_range es -> sumD es <= len es * 4294967295.
Proof.
  induction 1 as [|e es [_ He] _ IH]; unfold len in *; cbn [sumD fold_right length].
  - lia.
  - fold (sumD es). lia.
Qed.

Lemma fits64_small (t : Table) : len (entries t) < 4294967296 -> fits64 t.
Proof.
  intros Hl. pose proof (NumEntries_bounds t) as Hn.
  pose proof (table_entries_length t) as Hlen.
  pose proof (table_entries_in_range t) as Hr.
  pose proof (sumC_bound _ Hr). pose proof (sumD_bound _ Hr).
  unfold fits64, totalCompressedSize, totalDecompressedSize. rewrite Hlen in *. lia.
Qed.

Lemma fresh_cached (t : Table) :
  fits64 t -> fresh (mkTable (entries t) true (offsetsOf t)).
Proof.
  intros Hf. right. cbn [cachedOffsets].
  rewrite computeOffsets_spec by (apply (fits64_ext t); [reflexivity|exact Hf]).
  reflexivity.
Qed.

Lemma total_last (t : Table) :
  0 < NumEntries t ->
  EntryOffsetInDecompressed (offsetAt t (NumEntries t - 1))
  + DecompressedSize (entryAt t (NumEntries t - 1))
  = totalDecompressedSize t.
Proof.
  intros Hn. pose proof (table_entries_length t) as Hl. unfold len in Hl.
  unfold offsetAt, entryAt, totalDecompressedSize.
  cbn [EntryOffsetInDecompressed].
  rewrite <- sumD_step by lia.
  rewrite firstn_all2 by lia. reflexivity.
Qed.

(** What a successful construction leaves in the reader. *)
Lemma NewReadSeeker_inv {R : Type} `{ReadSeeker R} (src src' : R)
      (rd : SzReader.reader R) :
  lawfulReader R ->
  SzReader.NewReadSeeker src None = Done (src', Ok rd) ->
  exists tbl,
    len (entries tbl) < 4294967296
    /\ 0 < NumEntries tbl
    /\ SzReader.seekTable rd = mkTable (entries tbl) true (offsetsOf tbl)
    /\ SzReader.totalUncompressedDataSize rd = totalDecompressedSize tbl.
Proof.
  intros Hlaw. unfold SzReader.NewReadSeeker.
  destruct (ReadTableFromReadSeeker src) as [[s1 [tbl|e]]| |] eqn:Eread;
    cbn [bind fst snd]; try discriminate.
  destruct (ReadTable_inv _ _ _ Hlaw Eread) as [Hc [Hlen _]].
  pose proof (fits64_small tbl Hlen) as Hfit.
  pose proof (NumEntries_bounds tbl) as Hn.
  unfold OffsetsByIndex.
  rewrite (CacheOffsets_fresh tbl (or_introl Hc) Hfit). cbn [bind cachedOffsets].
  destruct (Z.eq_dec (NumEntries tbl) 0) as [Hz|Hnz].
  { rewrite item_out; [discriminate|]. left. lia. }
  set (t' := mkTable (entries tbl) true (offsetsOf tbl)).
  assert (Hit : item (offsetsOf tbl) (NumEntries tbl - 1)
                = Done (offsetAt tbl (NumEntries tbl - 1))).
  { pose proof (cached_item t' (offsetsOf_ext t' tbl eq_refl)
                  (Z.to_nat (NumEntries tbl - 1))) as Hci.
    cbn [cachedOffsets t'] in Hci.
    replace (Z.of_nat (Z.to_nat (NumEntries tbl - 1))) with (NumEntries tbl - 1) in Hci by lia.
    rewrite Hci by (change (NumEntries t') with (NumEntries tbl); lia).
    reflexivity. }
  rewrite Hit. cbn [bind fst snd].
  change (NumEntries t') with (NumEntries tbl).
  rewrite (GetEntry_in_range t') by (change (NumEntries t') with (NumEntries tbl); lia).
  cbn [bind].
  destruct (io_Seek s1 0 SeekStart) as [s2 [n2 [e2|]]]; [discriminate|].
  destruct (io_Seek s2 0 SeekEnd) as [s3 [n3 [e3|]]]; [discriminate|].
  match goal with |- context [if ?c then _ else _] => destruct c end; [discriminate|].
  intros [= _ <-]. exists tbl. cbn [SzReader.seekTable SzReader.totalUncompressedDataSize].
  split; [exact Hlen|]. split; [lia|]. split; [reflexivity|].
  replace (entryAt t' (NumEntries tbl - 1)) with (entryAt tbl (NumEntries tbl - 1))
    by (unfold entryAt; rewrite (table_entries_ext t' tbl eq_refl); reflexivity).
  pose proof (total_last tbl ltac:(lia)) as Htl.
  cbn [offsetAt EntryOffsetInDecompressed] in Htl. rewrite Htl.
  apply u64_small. destruct Hfit as [_ Hd].
  pose proof (sumD_nonneg _ (table_entries_in_range tbl)).
  unfold totalDecompressedSize in *. lia.
Qed.

(* ------------------------------------------------------------------ *)
(** ** The reader: [Seek] from the start *)

Lemma exampleReader_built :
  SzReader.NewReadSeeker (NewReader exampleStream) None
  = Done (mkBytesReader exampleStream 41, Ok exampleReader).
Proof. reflexivity. Qed.

Lemma i64_small (z : Z) :
  -9223372036854775808 <= z < 9223372036854775808 -> i64 z = z.
Proof. intros Hz. unfold i64. rewrite Z.mod_small by lia. lia. Qed.

(** [Seek] from the start, on every reader that [NewReadSeeker] built (its
    table is then non-empty) and for every [int64] offset [o]: the call
    returns; it succeeds and returns [o] when
    [0 <= o < totalDecompressedSize], fails with "negative offset" when
    [o < 0], and fails with "offset beyond end of data" when
    [o >= totalDecompressedSize]: the range check lets
    [o = totalDecompressedSize] through and [Find] then finds no frame. *)
Lemma Seek_start_range {R : Type} `{ReadSeeker R} (src src' : R)
        (rd : SzReader.reader R) (o : Z) :
  lawfulReader R ->
  SzReader.NewReadSeeker src None = Done (src', Ok rd) ->
  -9223372036854775808 <= o < 9223372036854775808 ->
  0 < NumEntries (SzReader.seekTable rd)
  /\ SzReader.totalUncompressedDataSize rd
     = totalDecompressedSize (SzReader.seekTable rd)
  /\ exists rd' n err,
       SzReader.Seek rd o SeekStart = Done (rd', (n, err))
       /\ (0 <= o < SzReader.totalUncompressedDataSize rd ->
           n = o /\ err = None /\ SzReader.offset rd' = o)
       /\ (o < 0 -> n = 0 /\ err = Some (New "negative offset"))
       /\ (SzReader.totalUncompressedDataSize rd <= o ->
           n = 0 /\ err = Some (New "offset beyond end of data")).
Proof.
  intros Hlaw Hnew Ho.
  destruct (NewReadSeeker_inv src src' rd Hlaw Hnew) as [tbl [Hlen [Hpos [Ht Htot]]]].
  pose proof (fits64_small tbl Hlen) as Hfit.
  set (t' := mkTable (entries tbl) true (offsetsOf tbl)) in *.
  assert (Hes : table_entries t' = table_entries tbl) by (apply table_entries_ext; reflexivity).
  assert (HT : totalDecompressedSize t' = totalDecompressedSize tbl)
    by (unfold totalDecompressedSize; rewrite Hes; reflexivity).
  assert (Hfit' : fits64 t') by (apply (fits64_ext tbl); [reflexivity|exact Hfit]).
  pose proof (sumD_nonneg _ (table_entries_in_range tbl)) as Hnn.
  fold (totalDecompressedSize tbl) in Hnn.
  rewrite Ht. split; [exact Hpos|]. split; [rewrite HT; exact Htot|].
  unfold SzReader.Seek. change (SeekStart =? SeekStart) with true. cbv iota.
  destruct (o <? 0) eqn:Eneg.
  - do 3 eexists. split; [reflexivity|].
    split; [lia|]. split; [auto|]. rewrite Htot. lia.
  - rewrite u64_small by lia. unfold SzReader.moveTo.
    destruct (SzReader.totalUncompressedDataSize rd <? o) eqn:Ebig.
    + do 3 eexists. split; [reflexivity|].
      split; [lia|]. split; [lia|]. auto.
    + rewrite Ht.
      destruct (Find_frame t' o (fresh_cached tbl Hfit) Hfit' ltac:(lia))
        as [t'' [to [found [HF [_ [Hfound _]]]]]].
      rewrite HF. cbn [bind fst snd].
      rewrite HT in Hfound.
      destruct found; cbn [negb].
      * do 3 eexists. split; [reflexivity|].
        assert (Hlt : o < totalDecompressedSize tbl) by (apply Hfound; reflexivity).
        split; [|split; lia].
        intros _. cbn [SzReader.offset]. rewrite i64_small by lia. auto.
      * do 3 eexists. split; [reflexivity|].
        assert (Hge : totalDecompressedSize tbl <= o).
        { destruct (Z.lt_ge_cases o (totalDecompressedSize tbl)) as [Hl|Hg]; [|exact Hg].
          destruct Hfound as [_ Hfound]. specialize (Hfound Hl). discriminate. }
        split; [lia|]. split; [lia|]. auto.
Qed.

Lemma Seek_start_range_example :
  0 < NumEntries (SzReader.seekTable exampleReader)
  /\ SzReader.totalUncompressedDataSize exampleReader
     = totalDecompressedSize (SzReader.seekTable exampleReader)
  /\ exists rd' n err,
       SzReader.Seek exampleReader 12 SeekStart = Done (rd', (n, err))
       /\ (0 <= 12 < SzReader.totalUncompressedDataSize exampleReader ->
           n = 12 /\ err = None /\ SzReader.offset rd' = 12)
       /\ (12 < 0 -> n = 0 /\ err = Some (New "negative offset"))
       /\ (SzReader.totalUncompressedDataSize exampleReader <= 12 ->
           n = 0 /\ err = Some (New "offset beyond end of data")).
Proof.
  apply (Seek_start_range (NewReader exampleStream) (mkBytesReader exampleStream 41)
           exampleReader 12).
  - exact BytesReader_lawful.
  - reflexivity.
  - lia.
Defined.

(** C4: the code at the failing input. [exampleReader] is built by
    [NewReadSeeker] from a table of two entries and 17 decompressed bytes;
    [Seek 17] from the start passes the range check [17 > 17] and is then
    refused because [Find 17] finds no frame. *)
Theorem Seek_to_end_refused :
  SzReader.NewReadSeeker (NewReader exampleStream) None
  = Done (mkBytesReader exampleStream 41, Ok exampleReader)
  /\ NumEntries (SzReader.seekTable exampleReader) = 2
  /\ SzReader.totalUncompressedDataSize exampleReader = 17
  /\ exists rd',
       SzReader.Seek exampleReader 17 SeekStart
       = Done (rd', (0, Some (New "offset beyond end of data"))).
Proof. repeat split; try reflexivity. eexists. reflexivity. Qed.

(** The idiom for the length of a stream, [Seek 0] from the end, is
    refused in the same way. *)
Example Seek_zero_from_end_refused :
  exists rd',
    SzReader.Seek exampleReader 0 SeekEnd
    = Done (rd', (0, Some (New "offset beyond end of data"))).
Proof. eexists. reflexivity. Qed.

(* ------------------------------------------------------------------ *)
(** ** The reader: an empty table *)

Lemma emptyStream_written :
  exists c c',
    SzWriter.NewWriter (mkBuffer []) 4 None = Done (Ok c)
    /\ SzWriter.Close storeAll c = Done (c', None)
    /\ buf_bytes (SzWriter.w c') = emptyStream.
Proof. do 2 eexists. repeat split; reflexivity. Qed.

(** C5: the code at the failing input. The stream holds a valid table of
    zero entries; [ReadTableFromReadSeeker] reads it, and [NewReadSeeker]
    panics on [OffsetsByIndex (-1)]. *)
Theorem NewReadSeeker_empty_table_panics :
  (exists rd t, ReadTableFromReadSeeker (NewReader emptyStream) = Done (rd, Ok t)
                /\ NumEntries t = 0)
  /\ SzReader.NewReadSeeker (NewReader emptyStream) None = Panic.
Proof. split; [do 2 eexists; split; reflexivity|reflexivity]. Qed.

(* ------------------------------------------------------------------ *)
(** ** The writer: frames and entries *)

Lemma sumD_dsizes (t : Table) : totalDecompressedSize t = sumZ (dsizes t).
Proof.
  unfold totalDecompressedSize, dsizes.
  induction (table_entries t) as [|e es IH]; cbn; [reflexivity|].
  fold (sumD es). fold (sumZ (map DecompressedSize es)). lia.
Qed.

Lemma sumZ_app (l1 l2 : list Z) : sumZ (l1 ++ l2) = sumZ l1 + sumZ l2.
Proof.
  induction l1 as [|a l1 IH]; cbn; [reflexivity|].
  fold (sumZ (l1 ++ l2)). fold (sumZ l1). lia.
Qed.

Lemma sumZ_repeat (x : Z) (k : nat) : sumZ (repeat x k) = Z.of_nat k * x.
Proof.
  induction k as [|k IH]; [reflexivity|].
  cbn [repeat sumZ fold_right]. fold (sumZ (repeat x k)). lia.
Qed.

Lemma dsizes_AppendEntry (t t' : Table) (e : TableEntry) :
  AppendEntry t e = Done t' ->
  dsizes t' = dsizes t ++ [u32 (DecompressedSize e)].
Proof.
  intros Ha. unfold dsizes. rewrite (table_entries_AppendEntry t t' e Ha).
  rewrite map_app. reflexivity.
Qed.

Lemma repeat_snoc (x : Z) (k : nat) : repeat x k ++ [x] = repeat x (S k).
Proof. rewrite <- repeat_cons. reflexivity. Qed.

Section WriterProofs.
Context {W : Type} `{Writer W}.
Variable EncodeAll : list byte -> list byte.
Variable F : Z.
Hypothesis HF : 1 <= F < 4294967296.

Lemma Write_loop_ok (fuel : nat) :
  forall (c : SzWriter.writer W) (data : list byte) (n : Z) (k : nat),
  WriterInv F c k -> len data <= Z.of_nat fuel ->
  exists c' n' err,
    SzWriter.Write_loop EncodeAll fuel c data n = Done (c', (n', err))
    /\ (err = None ->
        exists k', WriterInv F c' k'
                   /\ Z.of_nat k' * F + len (SzWriter.frameBuffer c')
                      = Z.of_nat k * F + len (SzWriter.frameBuffer c) + len data).
Proof.
  induction fuel as [|fuel IH]; intros c data n k Hinv Hfuel.
  - assert (Hd : len data = 0) by (pose proof (len_nonneg data); lia).
    cbn [SzWriter.Write_loop]. rewrite Hd. cbn [Z.ltb Z.compare].
    do 3 eexists. split; [reflexivity|]. intros _. exists k. split; [exact Hinv|lia].
  - destruct Hinv as [HFs [Hfb [Hcl Hds]]].
    pose proof (len_nonneg (SzWriter.frameBuffer c)) as Hfb0.
    pose proof (len_nonneg data) as Hd0.
    cbn [SzWriter.Write_loop].
    destruct (0 <? len data) eqn:Ed.
    2:{ do 3 eexists. split; [reflexivity|]. intros _. exists k.
        split; [repeat split; assumption|lia]. }
    rewrite HFs.
    destruct ((len (SzWriter.frameBuffer c) =? 0) && (F <=? len data)) eqn:Efast.
    + (* fast path *)
      apply andb_prop in Efast as [E1 E2].
      rewrite slice_prefix by lia. rewrite slice_suffix by lia. cbn [bind].
      set (toEncode := firstn (Z.to_nat F) data).
      assert (Hte : len toEncode = F).
      { subst toEncode. unfold len in *. rewrite length_firstn. lia. }
      destruct (io_Write (SzWriter.w c) (EncodeAll toEncode)) as [sink [written [e|]]].
      { do 3 eexists. split; [reflexivity|]. discriminate. }
      rewrite AppendEntry_eq. cbn [bind].
      set (tbl := mkTable _ _ _).
      assert (Htbl : dsizes tbl = repeat F (S k)).
      { rewrite (dsizes_AppendEntry (SzWriter.seekTable c) tbl
                   (mkEntry (u32 (len (EncodeAll toEncode))) (u32 (len toEncode))))
          by apply AppendEntry_eq.
        cbn [DecompressedSize]. rewrite Hds, Hte.
        rewrite (u32_small (u32 F)), (u32_small F) by (rewrite ?u32_small; lia).
        apply repeat_snoc. }
      edestruct (IH (SzWriter.mkWriter sink F (SzWriter.frameBuffer c)
                       (EncodeAll toEncode) tbl (SzWriter.isClosed c))
                    (skipn (Z.to_nat F) data) (n + written) (S k))
        as [c' [n' [err [Hrun Hok]]]].
      { repeat split; cbn; assumption. }
      { unfold len in *. rewrite length_skipn. lia. }
      exists c', n', err. split; [exact Hrun|].
      intros He. destruct (Hok He) as [k' [Hinv' Hsum]].
      exists k'. split; [exact Hinv'|].
      cbn [SzWriter.frameBuffer] in Hsum. rewrite Hsum.
      unfold len in *. rewrite length_skipn. lia.
    + (* fill frame buffer *)
      set (toWrite := Z.min (len data) (F - len (SzWriter.frameBuffer c))).
      assert (Htw : 1 <= toWrite <= len data) by lia.
      rewrite slice_prefix by lia. rewrite slice_suffix by lia. cbn [bind].
      set (chunk := firstn (Z.to_nat toWrite) data).
      assert (Hch : len chunk = toWrite).
      { subst chunk. unfold len in *. rewrite length_firstn. lia. }
      assert (Hrest : len (skipn (Z.to_nat toWrite) data) = len data - toWrite).
      { unfold len in *. rewrite length_skipn. lia. }
      rewrite len_app, Hch.
      destruct (len (SzWriter.frameBuffer c) + toWrite =? F) eqn:Efull.
      * destruct (io_Write (SzWriter.w c) _) as [sink [written [e|]]].
        { do 3 eexists. split; [reflexivity|]. discriminate. }
        rewrite AppendEntry_eq. cbn [bind].
        set (tbl := mkTable _ _ _).
        assert (Htbl : dsizes tbl = repeat F (S k)).
        { unfold tbl.
          erewrite dsizes_AppendEntry by apply AppendEntry_eq.
          cbn [DecompressedSize]. rewrite Hds.
          replace (len (SzWriter.frameBuffer c) + toWrite) with F by lia.
          rewrite (u32_small (u32 F)), (u32_small F) by (rewrite ?u32_small; lia).
          apply repeat_snoc. }
        edestruct (IH (SzWriter.mkWriter sink F []
                         (EncodeAll (SzWriter.frameBuffer c ++ chunk)) tbl
                         (SzWriter.isClosed c))
                      (skipn (Z.to_nat toWrite) data) (n + toWrite) (S k))
          as [c' [n' [err [Hrun Hok]]]].
        { repeat split; cbn; try assumption. lia. }
        { lia. }
        exists c', n', err. split; [exact Hrun|].
        intros He. destruct (Hok He) as [k' [Hinv' Hsum]].
        exists k'. split; [exact Hinv'|].
        cbn [SzWriter.frameBuffer] in Hsum. rewrite Hsum, Hrest.
        change (len (@nil byte)) with 0. lia.
      * edestruct (IH (SzWriter.mkWriter (SzWriter.w c) F
                         (SzWriter.frameBuffer c ++ chunk) (SzWriter.encoderBuffer c)
                         (SzWriter.seekTable c) (SzWriter.isClosed c))
                      (skipn (Z.to_nat toWrite) data) (n + toWrite) k)
          as [c' [n' [err [Hrun Hok]]]].
        { repeat split; cbn; try assumption. rewrite len_app, Hch. lia. }
        { lia. }
        exists c', n', err. split; [exact Hrun|].
        intros He. destruct (Hok He) as [k' [Hinv' Hsum]].
        exists k'. split; [exact Hinv'|].
        cbn [SzWriter.frameBuffer] in Hsum. rewrite Hsum, Hrest, len_app, Hch. lia.
Qed.
End WriterProofs.

Section WriterRuns.
Context {W : Type} `{Writer W}.
Variable EncodeAll : list byte -> list byte.
Variable F : Z.
Hypothesis HF : 1 <= F < 4294967296.

Lemma Write_ok (c : SzWriter.writer W) (data : list byte) (k : nat) :
  WriterInv F c k ->
  exists c' n' err,
    SzWriter.Write EncodeAll c data = Done (c', (n', err))
    /\ (err = None ->
        exists k', WriterInv F c' k'
                   /\ Z.of_nat k' * F + len (SzWriter.frameBuffer c')
                      = Z.of_nat k * F + len (SzWriter.frameBuffer c) + len data).
Proof.
  intros Hinv. unfold SzWriter.Write.
  apply (Write_loop_ok EncodeAll F HF); [exact Hinv|]. unfold len. lia.
Qed.

Lemma WriteAll_ok (chunks : list (list byte)) :
  forall (c : SzWriter.writer W) (k : nat),
  WriterInv F c k ->
  exists r,
    SzWriter.WriteAll EncodeAll c chunks = Done r
    /\ forall c1, r = Ok c1 ->
         exists k', WriterInv F c1 k'
                    /\ Z.of_nat k' * F + len (SzWriter.frameBuffer c1)
                       = Z.of_nat k * F + len (SzWriter.frameBuffer c)
                         + len (concat chunks).
Proof.
  induction chunks as [|data rest IH]; intros c k Hinv.
  - exists (Ok c). split; [reflexivity|].
    intros c1 [= <-]. exists k. split; [exact Hinv|].
    change (len (concat [])) with 0. lia.
  - cbn [SzWriter.WriteAll concat].
    destruct (Write_ok c data k Hinv) as [c' [n' [err [Hw Hok]]]].
    rewrite Hw. cbn [bind fst snd].
    destruct err as [e|].
    + exists (Err e). split; [reflexivity|]. discriminate.
    + destruct (Hok eq_refl) as [k' [Hinv' Hsum]].
      destruct (IH c' k' Hinv') as [r [Hr Hrest]].
      exists r. split; [exact Hr|].
      intros c1 Hc1. destruct (Hrest c1 Hc1) as [k'' [Hinv'' Hsum'']].
      exists k''. split; [exact Hinv''|]. rewrite len_app. lia.
Qed.

Lemma Close_ok (c : SzWriter.writer W) (k : nat) :
  WriterInv F c k ->
  exists c2 err,
    SzWriter.Close EncodeAll c = Done (c2, err)
    /\ (err = None ->
        dsizes (SzWriter.seekTable c2)
        = repeat F k ++ (if len (SzWriter.frameBuffer c) =? 0 then []
                         else [len (SzWriter.frameBuffer c)])).
Proof.
  intros [HFs [Hfb [Hcl Hds]]].
  pose proof (len_nonneg (SzWriter.frameBuffer c)) as Hfb0.
  unfold SzWriter.Close. rewrite Hcl.
  cbn [SzWriter.frameBuffer SzWriter.w SzWriter.seekTable SzWriter.frameSize
       SzWriter.encoderBuffer].
  destruct (0 <? len (SzWriter.frameBuffer c)) eqn:Efb.
  - destruct (io_Write (SzWriter.w c) _) as [sink [written [e|]]].
    + cbn [bind snd]. do 2 eexists. split; [reflexivity|]. discriminate.
    + rewrite AppendEntry_eq. cbn [bind fst snd SzWriter.seekTable SzWriter.w].
      destruct (WriteTableToWriter _ sink) as [sink' [nw [e|]]].
      * do 2 eexists. split; [reflexivity|]. discriminate.
      * do 2 eexists. split; [reflexivity|]. intros _.
        cbn [SzWriter.seekTable].
        erewrite dsizes_AppendEntry by apply AppendEntry_eq.
        cbn [DecompressedSize]. rewrite Hds.
        rewrite (u32_small (u32 _)), (u32_small (len _)) by (rewrite ?u32_small; lia).
        destruct (len (SzWriter.frameBuffer c) =? 0) eqn:Ez; [lia|reflexivity].
  - cbn [bind fst snd SzWriter.seekTable SzWriter.w].
    destruct (WriteTableToWriter _ _) as [sink' [nw [e|]]].
    + do 2 eexists. split; [reflexivity|]. discriminate.
    + do 2 eexists. split; [reflexivity|]. intros _.
      cbn [SzWriter.seekTable]. rewrite Hds.
      destruct (len (SzWriter.frameBuffer c) =? 0) eqn:Ez; [|lia].
      symmetry. apply app_nil_r.
Qed.

Lemma NewWriter_inv (sink : W) :
  WriterInv F (SzWriter.mkWriter sink F [] [] emptyTable false) 0.
Proof. repeat split; cbn; try reflexivity. lia. Qed.
End WriterRuns.

(** C1, as the code has it. For a writer with frame size [1 <= F < 2^32]:
    a sequence of [Write] calls and the [Close] after it all return; and
    when every [Write] returned a nil error and [Close] did, the
    [DecompressedSize] fields of the table are [F] for each of the
    [T / F] full frames, in order, followed by [T mod F] when that is not
    zero, where [T] is the number of bytes passed to [Write]; they sum to
    [T]. *)
Theorem Write_Close_partition {W : Type} `{Writer W}
        (EncodeAll : list byte -> list byte) (sink : W) (F : Z)
        (chunks : list (list byte)) :
  1 <= F < 4294967296 ->
  exists c0,
    SzWriter.NewWriter sink F None = Done (Ok c0)
    /\ exists r,
         SzWriter.WriteAll EncodeAll c0 chunks = Done r
         /\ forall c1, r = Ok c1 ->
              exists c2 err,
                SzWriter.Close EncodeAll c1 = Done (c2, err)
                /\ (err = None ->
                    let T := len (concat chunks) in
                    dsizes (SzWriter.seekTable c2)
                    = repeat F (Z.to_nat (T / F))
                      ++ (if T mod F =? 0 then [] else [T mod F])
                    /\ totalDecompressedSize (SzWriter.seekTable c2) = T).
Proof.
  intros HF.
  exists (SzWriter.mkWriter sink F [] [] emptyTable false).
  split.
  { unfold SzWriter.NewWriter. destruct (F <? 0) eqn:E; [lia|reflexivity]. }
  destruct (WriteAll_ok EncodeAll F HF chunks _ 0%nat (NewWriter_inv F HF sink))
    as [r [Hr Hok]].
  exists r. split; [exact Hr|].
  intros c1 Hc1. destruct (Hok c1 Hc1) as [k [Hinv Hsum]].
  destruct (Close_ok EncodeAll F HF c1 k Hinv) as [c2 [err [Hc Hd]]].
  exists c2, err. split; [exact Hc|].
  intros He. specialize (Hd He). cbv zeta.
  cbn [SzWriter.frameBuffer] in Hsum. change (len (@nil byte)) with 0 in Hsum.
  destruct Hinv as [_ [Hfb _]].
  pose proof (len_nonneg (SzWriter.frameBuffer c1)) as Hfb0.
  set (T := len (concat chunks)) in *.
  set (rem := len (SzWriter.frameBuffer c1)) in *.
  assert (HT : T = F * Z.of_nat k + rem) by lia.
  assert (Hdiv : T / F = Z.of_nat k)
    by (symmetry; apply (Z.div_unique_pos T F (Z.of_nat k) rem); lia).
  assert (Hmod : T mod F = rem)
    by (symmetry; apply (Z.mod_unique_pos T F (Z.of_nat k) rem); lia).
  rewrite Hdiv, Hmod, Nat2Z.id. split; [exact Hd|].
  rewrite sumD_dsizes, Hd, sumZ_app, sumZ_repeat.
  destruct (rem =? 0) eqn:Ez; cbn [sumZ fold_right]; lia.
Qed.

Lemma Write_Close_partition_witness :
  exists c0,
    SzWriter.NewWriter (mkBuffer []) 2 None = Done (Ok c0)
    /\ exists r,
         SzWriter.WriteAll storeAll c0 [[x01; x02; x03]; [x04; x05]] = Done r
         /\ forall c1, r = Ok c1 ->
              exists c2 err,
                SzWriter.Close storeAll c1 = Done (c2, err)
                /\ (err = None ->
                    let T := len (concat [[x01; x02; x03]; [x04; x05]]) in
                    dsizes (SzWriter.seekTable c2)
                    = repeat 2 (Z.to_nat (T / 2))
                      ++ (if T mod 2 =? 0 then [] else [T mod 2])
                    /\ totalDecompressedSize (SzWriter.seekTable c2) = T).
Proof.
  apply (Write_Close_partition storeAll (mkBuffer []) 2 [[x01; x02; x03]; [x04; x05]]).
  lia.
Defined.

(** Five bytes in frames of two: entries of sizes 2, 2 and 1, and offset 3
    is in the second frame, which starts at 2. *)
Example Write_Close_example :
  exists c0 c1 c2 t' to,
    SzWriter.NewWriter (mkBuffer []) 2 None = Done (Ok c0)
    /\ SzWriter.WriteAll storeAll c0 [[x01; x02; x03]; [x04; x05]] = Done (Ok c1)
    /\ SzWriter.Close storeAll c1 = Done (c2, None)
    /\ dsizes (SzWriter.seekTable c2) = [2; 2; 1]
    /\ Find (SzWriter.seekTable c2) 3 = Done (t', (to, true))
    /\ EntryIndex to = 1 /\ EntryOffsetInDecompressed to = 2.
Proof.
  do 5 eexists.
  split; [vm_compute; reflexivity|].
  split; [vm_compute; reflexivity|].
  split; [vm_compute; reflexivity|].
  split; [vm_compute; reflexivity|].
  split; [vm_compute; reflexivity|].
  split; reflexivity.
Qed.

Lemma hugeData_len : len hugeData = 4294967296.
Proof. unfold hugeData, len. rewrite repeat_length. apply Z2Nat.id. lia. Qed.

Lemma Write_loop_nil {W : Type} `{Writer W} (EncodeAll : list byte -> list byte)
      (fuel : nat) (c : SzWriter.writer W) (n : Z) :
  SzWriter.Write_loop EncodeAll fuel c [] n = Done (c, (n, None)).
Proof. destruct fuel; reflexivity. Qed.

(** One [Write] of exactly one frame into a fresh writer over a buffer. *)
Lemma Write_exact_frame (EncodeAll : list byte -> list byte) (b : Buffer) (F : Z)
      (data : list byte) :
  0 < F -> len data = F ->
  SzWriter.Write EncodeAll (SzWriter.mkWriter b F [] [] emptyTable false) data
  = Done (SzWriter.mkWriter (mkBuffer (buf_bytes b ++ EncodeAll data)) F []
            (EncodeAll data)
            (mkTable (appended [] (mkEntry (u32 (len (EncodeAll data))) (u32 F)))
                     false [])
            false,
          (len (EncodeAll data), None)).
Proof.
  intros HF Hd. unfold SzWriter.Write. cbn [SzWriter.Write_loop].
  cbn [SzWriter.frameBuffer SzWriter.frameSize SzWriter.w SzWriter.seekTable
       SzWriter.isClosed].
  destruct (0 <? len data) eqn:E0; [|lia].
  change (len (@nil byte)) with 0. rewrite Z.eqb_refl.
  destruct (F <=? len data) eqn:E1; [|lia]. cbn [andb].
  rewrite slice_prefix by lia. rewrite slice_suffix by lia.
  cbn [bind].
  replace (Z.to_nat F) with (length data) by (unfold len in Hd; lia).
  rewrite firstn_all, skipn_all.
  cbn [io_Write Buffer_Writer]. rewrite AppendEntry_eq. cbn [bind].
  rewrite Hd. cbn [entries cached cachedOffsets emptyTable].
  change (0 + len (EncodeAll data)) with (len (EncodeAll data)).
  rewrite Write_loop_nil. reflexivity.
Qed.

(** One [Write] of exactly one frame and the [Close] after it. *)
Lemma Write_Close_exact_frame (EncodeAll : list byte -> list byte) (F : Z)
      (data : list byte) :
  0 < F -> len data = F ->
  exists c1 n c2,
    SzWriter.Write EncodeAll (SzWriter.mkWriter (mkBuffer []) F [] [] emptyTable false)
                   data
    = Done (c1, (n, None))
    /\ SzWriter.Close EncodeAll c1 = Done (c2, None)
    /\ dsizes (SzWriter.seekTable c2) = [u32 (u32 F)].
Proof.
  intros HF Hd.
  pose proof (AppendEntry_eq emptyTable (mkEntry (u32 (len (EncodeAll data))) (u32 F)))
    as Ha.
  cbn [entries cached cachedOffsets emptyTable] in Ha.
  set (tbl := mkTable (appended [] (mkEntry (u32 (len (EncodeAll data))) (u32 F)))
                      false []) in *.
  exists (SzWriter.mkWriter (mkBuffer (buf_bytes (mkBuffer []) ++ EncodeAll data)) F []
            (EncodeAll data) tbl false).
  exists (len (EncodeAll data)).
  exists (SzWriter.mkWriter
            (mkBuffer ((buf_bytes (mkBuffer []) ++ EncodeAll data) ++ serialized tbl))
            F [] (EncodeAll data) tbl true).
  split; [apply Write_exact_frame; assumption|].
  split.
  - unfold SzWriter.Close.
    cbn [SzWriter.isClosed SzWriter.frameBuffer SzWriter.w SzWriter.seekTable
         SzWriter.frameSize SzWriter.encoderBuffer].
    change (0 <? len (@nil byte)) with false. cbv iota. cbn [bind fst snd].
    cbn [SzWriter.isClosed SzWriter.frameBuffer SzWriter.w SzWriter.seekTable
         SzWriter.frameSize SzWriter.encoderBuffer].
    rewrite WriteTable_Buffer. reflexivity.
  - cbn [SzWriter.seekTable].
    rewrite (dsizes_AppendEntry emptyTable tbl _ Ha). reflexivity.
Qed.

(** C1, as stated, fails. First: a [Write] whose sink write fails on the
    fast path drops its frame, and after a successful [Close] the table
    is empty although two bytes were passed to [Write]. Second: with
    [F = 2^32], one [Write] of [2^32] bytes and a successful [Close] leave
    one entry whose [DecompressedSize] is 0. *)
Lemma Write_Close_partition_fails :
  (exists c0 c1 e c2,
     SzWriter.NewWriter (mkFlaky [] 1) 2 None = Done (Ok c0)
     /\ SzWriter.Write storeAll c0 [x01; x02] = Done (c1, (0, Some e))
     /\ SzWriter.Close storeAll c1 = Done (c2, None)
     /\ dsizes (SzWriter.seekTable c2) = [])
  /\ (exists c0 c1 n c2,
        SzWriter.NewWriter (mkBuffer []) 4294967296 None = Done (Ok c0)
        /\ len hugeData = 4294967296
        /\ SzWriter.Write storeAll c0 hugeData = Done (c1, (n, None))
        /\ SzWriter.Close storeAll c1 = Done (c2, None)
        /\ dsizes (SzWriter.seekTable c2) = [0]).
Proof.
  split.
  - do 4 eexists.
    split; [vm_compute; reflexivity|].
    split; [vm_compute; reflexivity|].
    split; [vm_compute; reflexivity|].
    vm_compute; reflexivity.
  - destruct (Write_Close_exact_frame storeAll 4294967296 hugeData
                ltac:(lia) hugeData_len) as [c1 [n [c2 [Hw [Hc Hd]]]]].
    exists (SzWriter.mkWriter (mkBuffer []) 4294967296 [] [] emptyTable false), c1, n, c2.
    split; [reflexivity|].
    split; [exact hugeData_len|].
    split; [exact Hw|].
    split; [exact Hc|exact Hd].
Qed.

(** On success too, the fast path adds the sink's count to [n]: one input
    byte, five reported. *)
Example Write_fast_path_count :
  exists c0 c1,
    SzWriter.NewWriter (mkBuffer []) 1 None = Done (Ok c0)
    /\ SzWriter.Write framedAll c0 [x0a] = Done (c1, (5, None)).
Proof.
  do 2 eexists.
  split; [vm_compute; reflexivity|].
  vm_compute; reflexivity.
Qed.

(** C6: the code at the failing inputs. Fast path: frame size 1, a sink
    with room for seven bytes, two input bytes; the second frame's sink
    write fails after two bytes and [Write] reports 7. Buffered path: frame
    size 4, a sink with room for six bytes, three bytes buffered by a first
    [Write]; a second [Write] of one byte fills the frame, the sink write
    fails after six bytes and [Write] reports 6. *)
Theorem Write_error_count_not_input_bytes :
  (exists c0 c1 e,
     SzWriter.NewWriter (mkLimited [] 7) 1 None = Done (Ok c0)
     /\ SzWriter.Write framedAll c0 [x0a; x0b] = Done (c1, (7, Some e))
     /\ len [x0a; x0b] = 2)
  /\ (exists c0 c1 c2 e,
        SzWriter.NewWriter (mkLimited [] 6) 4 None = Done (Ok c0)
        /\ SzWriter.Write framedAll c0 [x01; x02; x03] = Done (c1, (3, None))
        /\ SzWriter.Write framedAll c1 [x04] = Done (c2, (6, Some e))
        /\ len [x04] = 1).
Proof.
  split.
  - do 3 eexists.
    split; [vm_compute; reflexivity|].
    split; [vm_compute; reflexivity|].
    reflexivity.
  - do 4 eexists.
    split; [vm_compute; reflexivity|].
    split; [vm_compute; reflexivity|].
    split; [vm_compute; reflexivity|].
    reflexivity.
Qed.

(* ------------------------------------------------------------------ *)
(** ** The writer never touches the offset cache *)

Section WriterCache.
Context {W : Type} `{Writer W}.
Variable EncodeAll : list byte -> list byte.

Lemma Write_loop_cache (fuel : nat) :
  forall (c c' : SzWriter.writer W) (data : list byte) (n : Z) (r : Z * option error),
  SzWriter.Write_loop EncodeAll fuel c data n = Done (c', r) ->
  cached (SzWriter.seekTable c') = cached (SzWriter.seekTable c).
Proof.
  induction fuel as [|fuel IH]; intros c c' data n r Hrun;
    cbn [SzWriter.Write_loop] in Hrun;
    destruct (0 <? len data); try discriminate;
    try (injection Hrun as <- _; reflexivity).
  destruct ((len (SzWriter.frameBuffer c) =? 0) && (SzWriter.frameSize c <=? len data)).
  - destruct (slice data 0 (SzWriter.frameSize c)) as [toEncode| |];
      cbn [bind] in Hrun; try discriminate.
    destruct (slice data (SzWriter.frameSize c) (len data)) as [data'| |];
      cbn [bind] in Hrun; try discriminate.
    destruct (io_Write (SzWriter.w c) (EncodeAll toEncode)) as [sink [written [e|]]].
    + injection Hrun as <- _. reflexivity.
    + rewrite AppendEntry_eq in Hrun. cbn [bind] in Hrun.
      apply IH in Hrun. exact Hrun.
  - destruct (slice data 0 _) as [chunk| |]; cbn [bind] in Hrun; try discriminate.
    destruct (slice data _ (len data)) as [data'| |];
      cbn [bind] in Hrun; try discriminate.
    destruct (len (SzWriter.frameBuffer c ++ chunk) =? SzWriter.frameSize c).
    + destruct (io_Write (SzWriter.w c) _) as [sink [written [e|]]].
      * injection Hrun as <- _. reflexivity.
      * rewrite AppendEntry_eq in Hrun. cbn [bind] in Hrun.
        apply IH in Hrun. exact Hrun.
    + apply IH in Hrun. exact Hrun.
Qed.

Lemma WriteAll_cache (chunks : list (list byte)) :
  forall (c c1 : SzWriter.writer W),
  SzWriter.WriteAll EncodeAll c chunks = Done (Ok c1) ->
  cached (SzWriter.seekTable c1) = cached (SzWriter.seekTable c).
Proof.
  induction chunks as [|data rest IH]; intros c c1 Hrun; cbn [SzWriter.WriteAll] in Hrun.
  - injection Hrun as <-. reflexivity.
  - destruct (SzWriter.Write EncodeAll c data) as [[c' [n err]]| |] eqn:Ew;
      cbn [bind fst snd] in Hrun; try discriminate.
    destruct err as [e|]; [discriminate|].
    apply IH in Hrun. rewrite Hrun.
    unfold SzWriter.Write in Ew. apply Write_loop_cache in Ew. exact Ew.
Qed.

Lemma Close_cache (c c2 : SzWriter.writer W) (err : option error) :
  SzWriter.Close EncodeAll c = Done (c2, err) ->
  cached (SzWriter.seekTable c2) = cached (SzWriter.seekTable c).
Proof.
  unfold SzWriter.Close. destruct (SzWriter.isClosed c).
  { intros [= <- _]. reflexivity. }
  cbn [SzWriter.frameBuffer SzWriter.w SzWriter.seekTable SzWriter.frameSize
       SzWriter.encoderBuffer].
  destruct (0 <? len (SzWriter.frameBuffer c)).
  - destruct (io_Write (SzWriter.w c) _) as [sink [written [e|]]].
    + cbn [bind snd]. intros [= <- _]. reflexivity.
    + rewrite AppendEntry_eq. cbn [bind fst snd SzWriter.seekTable SzWriter.w].
      destruct (WriteTableToWriter _ sink) as [sink' [nw [e|]]];
        intros [= <- _]; reflexivity.
  - cbn [bind fst snd SzWriter.seekTable SzWriter.w].
    destruct (WriteTableToWriter _ _) as [sink' [nw [e|]]];
      intros [= <- _]; reflexivity.
Qed.
End WriterCache.

(** The example of the specification: 2,500,000 bytes in frames of
    1,000,000 give three entries of sizes 1,000,000, 1,000,000 and 500,000,
    and [Find 1500000] resolves to entry 1, which starts at 1,000,000. *)
Example Write_Close_Find_2500000 {W : Type} `{Writer W}
        (EncodeAll : list byte -> list byte) (sink : W)
        (chunks : list (list byte)) (c0 c1 c2 : SzWriter.writer W) :
  len (concat chunks) = 2500000 ->
  SzWriter.NewWriter sink 1000000 None = Done (Ok c0) ->
  SzWriter.WriteAll EncodeAll c0 chunks = Done (Ok c1) ->
  SzWriter.Close EncodeAll c1 = Done (c2, None) ->
  dsizes (SzWriter.seekTable c2) = [1000000; 1000000; 500000]
  /\ exists t' to,
       Find (SzWriter.seekTable c2) 1500000 = Done (t', (to, true))
       /\ EntryIndex to = 1
       /\ EntryOffsetInDecompressed to = 1000000.
Proof.
  intros HT Hnew Hall Hclose.
  assert (HF : 1 <= 1000000 < 4294967296) by lia.
  unfold SzWriter.NewWriter in Hnew. cbn in Hnew. injection Hnew as <-.
  destruct (WriteAll_ok EncodeAll 1000000 HF chunks _ 0%nat (NewWriter_inv 1000000 HF sink))
    as [r [Hall' Hok]].
  rewrite Hall in Hall'. injection Hall' as <-.
  destruct (Hok c1 eq_refl) as [k [Hinv Hsum]].
  destruct (Close_ok EncodeAll 1000000 HF c1 k Hinv) as [c2' [err [Hclose' Hd]]].
  rewrite Hclose in Hclose'. injection Hclose' as <- <-.
  specialize (Hd eq_refl).
  cbn [SzWriter.frameBuffer] in Hsum. change (len (@nil byte)) with 0 in Hsum.
  destruct Hinv as [_ [Hfb _]].
  pose proof (len_nonneg (SzWriter.frameBuffer c1)) as Hfb0.
  assert (Hk : k = 2%nat) by lia. subst k.
  assert (Hrem : len (SzWriter.frameBuffer c1) = 500000) by lia.
  rewrite Hrem in Hd. cbn in Hd.
  split; [exact Hd|].
  set (t := SzWriter.seekTable c2) in *.
  assert (Hcached : cached t = false).
  { unfold t. rewrite (Close_cache EncodeAll c1 c2 None Hclose).
    rewrite (WriteAll_cache EncodeAll chunks _ c1 Hall). reflexivity. }
  assert (HN : NumEntries t = 3).
  { rewrite <- table_entries_length. unfold len.
    rewrite <- (length_map DecompressedSize). fold (dsizes t). rewrite Hd. reflexivity. }
  pose proof (NumEntries_bounds t) as Hb.
  assert (Hfit : fits64 t) by (apply fits64_small; lia).
  assert (Htot : totalDecompressedSize t = 2500000)
    by (rewrite sumD_dsizes, Hd; reflexivity).
  destruct (Find_frame t 1500000 (or_introl Hcached) Hfit ltac:(lia))
    as [t' [to [found [HFind [_ [Hiff Hfound]]]]]].
  destruct found.
  2:{ destruct Hiff as [_ Hiff]. specialize (Hiff ltac:(lia)). discriminate. }
  exists t', to. split; [exact HFind|].
  destruct (Hfound eq_refl) as [Hidx [Hto [Hlo Hhi]]].
  assert (Hsum' : EntryOffsetInDecompressed to
                  = sumD (firstn (Z.to_nat (EntryIndex to)) (table_entries t)))
    by (rewrite Hto at 1; reflexivity).
  unfold entryAt in Hhi. unfold dsizes in Hd.
  destruct (table_entries t) as [|e0 [|e1 [|e2 [|e3 rest]]]]; try discriminate Hd.
  injection Hd as H0 H1 H2.
  assert (Hcase : EntryIndex to = 0 \/ EntryIndex to = 1 \/ EntryIndex to = 2) by lia.
  destruct Hcase as [Hi|[Hi|Hi]]; rewrite Hi in Hsum', Hhi |- *;
    [change (Z.to_nat 0) with 0%nat in Hsum', Hhi
    |change (Z.to_nat 1) with 1%nat in Hsum', Hhi
    |change (Z.to_nat 2) with 2%nat in Hsum', Hhi];
    cbn in Hsum', Hhi; lia.
Qed.

(* ================================================================== *)
(** * Further properties of the code *)

(* ------------------------------------------------------------------ *)
(** ** [SetEntry] *)

Lemma window_ext {A : Type} (l1 l2 : list A) (k m : nat) :
  (forall x, (k <= x < k + m)%nat -> nth_error l1 x = nth_error l2 x) ->
  firstn m (skipn k l1) = firstn m (skipn k l2).
Proof.
  intros Hx. apply nth_error_ext. intros i.
  rewrite !nth_error_firstn, !nth_error_skipn.
  destruct (Nat.ltb i m) eqn:E; [|reflexivity].
  apply Nat.ltb_lt in E. apply Hx. lia.
Qed.

Lemma upd_nth_outside (l : list byte) (lo : nat) (b : list byte) (k : nat) :
  (lo + length b <= length l)%nat -> (k < lo \/ lo + length b <= k)%nat ->
  nth_error (upd l lo b) k = nth_error l k.
Proof.
  intros Hl Hk. unfold upd. destruct Hk as [Hk|Hk].
  - rewrite nth_error_app1 by (rewrite length_firstn; lia).
    rewrite nth_error_firstn.
    destruct (Nat.ltb k lo) eqn:E; [reflexivity|].
    apply Nat.ltb_ge in E. lia.
  - rewrite nth_error_app2 by (rewrite length_firstn; lia).
    rewrite length_firstn.
    rewrite nth_error_app2 by lia.
    rewrite nth_error_skipn. f_equal. lia.
Qed.

Lemma SetEntry_eq (t : Table) (i : Z) (e : TableEntry) :
  0 <= i -> i * 8 + 8 <= len (entries t) ->
  SetEntry t i e
  = Done (mkTable (upd (upd (entries t) (8 * Z.to_nat i) (PutUint32 (CompressedSize e)))
                       (8 * Z.to_nat i + 4) (PutUint32 (DecompressedSize e)))
                  (cached t) (cachedOffsets t)).
Proof.
  intros H0 H1. unfold SetEntry.
  rewrite store_ok by (rewrite ?PutUint32_length; lia). cbn [bind].
  rewrite store_ok.
  - cbn [bind]. do 3 f_equal; [f_equal|]; lia.
  - lia.
  - rewrite PutUint32_length. unfold len in *. rewrite upd_length.
    + lia.
    + change (length (PutUint32 (CompressedSize e))) with 4%nat. lia.
Qed.

(** X1. [SetEntry] at an index in range returns normally; the table keeps
    its number of entries, [GetEntry] at that index is the entry stored,
    [GetEntry] at every other index is what it was, and the offset cache
    is left as it is (so a cache computed before is not refreshed). *)
Theorem SetEntry_GetEntry (t : Table) (i : Z) (e : TableEntry) :
  0 <= i < NumEntries t -> entry_in_range e ->
  exists t',
    SetEntry t i e = Done t'
    /\ NumEntries t' = NumEntries t
    /\ GetEntry t' i = Done e
    /\ (forall j, 0 <= j < NumEntries t -> j <> i -> GetEntry t' j = GetEntry t j)
    /\ cached t' = cached t
    /\ cachedOffsets t' = cachedOffsets t.
Proof.
  intros Hi [HC HD]. pose proof (NumEntries_bounds t) as Hn.
  rewrite SetEntry_eq by lia. eexists. split; [reflexivity|].
  set (n := Z.to_nat i).
  set (l1 := upd (entries t) (8 * n) (PutUint32 (CompressedSize e))).
  set (l2 := upd l1 (8 * n + 4) (PutUint32 (DecompressedSize e))).
  assert (Hlen : (8 * n + 8 <= length (entries t))%nat) by (unfold len in Hn; lia).
  assert (Hl1 : length l1 = length (entries t))
    by (apply upd_length; cbn [PutUint32 length]; lia).
  assert (Hl2 : length l2 = length (entries t))
    by (unfold l2; rewrite upd_length; cbn [PutUint32 length]; lia).
  assert (HN : NumEntries (mkTable l2 (cached t) (cachedOffsets t)) = NumEntries t)
    by (unfold NumEntries, len; cbn [entries]; rewrite Hl2; reflexivity).
  split; [exact HN|]. split; [|split; [|split; reflexivity]].
  - rewrite GetEntry_bytes by (cbn [entries]; unfold len in *; lia).
    cbn [entries]. fold n. unfold entryOfBytes. destruct e as [C D].
    cbn [CompressedSize DecompressedSize] in HC, HD, l1, l2 |- *.
    f_equal. f_equal.
    + transitivity (Uint32 (PutUint32 C)); [f_equal|apply Uint32_PutUint32_id; assumption].
      rewrite firstn_skipn_comm. unfold l2. rewrite upd_before by lia.
      rewrite <- firstn_skipn_comm.
      apply (upd_at (entries t) (8 * n) (PutUint32 C)). lia.
    + transitivity (Uint32 (PutUint32 D)); [f_equal|apply Uint32_PutUint32_id; assumption].
      apply (upd_at l1 (8 * n + 4) (PutUint32 D)). lia.
  - intros j Hj Hne.
    rewrite !GetEntry_bytes by (cbn [entries]; unfold len in *; lia).
    cbn [entries]. f_equal. unfold entryOfBytes.
    assert (Hnth : forall x, (8 * Z.to_nat j <= x < 8 * Z.to_nat j + 8)%nat ->
                     nth_error l2 x = nth_error (entries t) x).
    { intros x Hx. unfold l2.
      rewrite upd_nth_outside by (cbn [PutUint32 length]; lia).
      unfold l1. apply upd_nth_outside; cbn [PutUint32 length]; lia. }
    f_equal; f_equal; apply window_ext; intros x Hx; apply Hnth; lia.
Qed.

Lemma SetEntry_GetEntry_witness :
  exists t',
    SetEntry exampleTable 1 (mkEntry 4 9) = Done t'
    /\ NumEntries t' = NumEntries exampleTable
    /\ GetEntry t' 1 = Done (mkEntry 4 9)
    /\ (forall j, 0 <= j < NumEntries exampleTable -> j <> 1 ->
        GetEntry t' j = GetEntry exampleTable j)
    /\ cached t' = cached exampleTable
    /\ cachedOffsets t' = cachedOffsets exampleTable.
Proof.
  apply (SetEntry_GetEntry exampleTable 1 (mkEntry 4 9)).
  - vm_compute. split; [discriminate|reflexivity].
  - unfold entry_in_range. cbn. lia.
Defined.

(* ------------------------------------------------------------------ *)
(** ** [CacheOffsets] and [OffsetsByIndex] on any table *)

Lemma u64_add_l (a x : Z) : u64 (u64 a + x) = u64 (a + x).
Proof. unfold u64. apply Z.add_mod_idemp_l. lia. Qed.

Lemma CacheOffsets_loop_mod (t : Table) :
  forall (k i : nat), (i + k = Z.to_nat (NumEntries t))%nat ->
  CacheOffsets_loop t k (Z.of_nat i)
    (u64 (sumC (firstn i (table_entries t))))
    (u64 (sumD (firstn i (table_entries t))))
  = Done (map (fun j => mkOffset (Z.of_nat j)
                          (u64 (sumC (firstn j (table_entries t))))
                          (u64 (sumD (firstn j (table_entries t)))))
              (seq i k)).
Proof.
  pose proof (table_entries_length t) as Hlen. unfold len in Hlen.
  induction k as [|k IH]; intros i Hik; [reflexivity|].
  cbn [CacheOffsets_loop seq map].
  rewrite GetEntry_in_range by lia. cbn [bind].
  unfold entryAt. rewrite Nat2Z.id.
  rewrite !u64_add_l.
  rewrite <- sumC_step, <- sumD_step by lia.
  replace (Z.of_nat i + 1) with (Z.of_nat (S i)) by lia.
  rewrite IH by lia. reflexivity.
Qed.

Lemma computeOffsets_mod (t : Table) : computeOffsets t = Done (offsetsMod t).
Proof.
  unfold computeOffsets, offsetsMod.
  apply (CacheOffsets_loop_mod t (Z.to_nat (NumEntries t)) 0). lia.
Qed.

(** X2. [CacheOffsets] returns on every table and never touches the
    entries; the first call stores one offset per entry, the offsets of
    entry [i] being the sums of the sizes of the entries before it modulo
    [2^64]; on a table whose cache exists it changes nothing, so a second
    call is a no-op. *)
Theorem CacheOffsets_once (t : Table) :
  exists t',
    CacheOffsets t = Done t'
    /\ entries t' = entries t
    /\ cached t' = true
    /\ (cached t = false -> cachedOffsets t' = offsetsMod t)
    /\ (cached t = true -> t' = t)
    /\ CacheOffsets t' = Done t'.
Proof.
  unfold CacheOffsets at 1. destruct (cached t) eqn:Ec.
  - exists t. repeat split; try assumption; try discriminate.
    unfold CacheOffsets. rewrite Ec. reflexivity.
  - rewrite computeOffsets_mod. cbn [bind]. eexists. split; [reflexivity|].
    repeat split; try discriminate.
Qed.

Lemma offsetsMod_length (t : Table) : len (offsetsMod t) = NumEntries t.
Proof.
  unfold offsetsMod, len. rewrite length_map, length_seq.
  pose proof (NumEntries_bounds t). lia.
Qed.

Lemma nth_offsetsMod (t : Table) (j : nat) :
  (j < Z.to_nat (NumEntries t))%nat ->
  nth j (offsetsMod t) zeroOffset
  = mkOffset (Z.of_nat j)
      (u64 (sumC (firstn j (table_entries t))))
      (u64 (sumD (firstn j (table_entries t)))).
Proof.
  intros Hj. unfold offsetsMod.
  set (f := fun i => mkOffset (Z.of_nat i)
                       (u64 (sumC (firstn i (table_entries t))))
                       (u64 (sumD (firstn i (table_entries t))))).
  rewrite (nth_indep _ zeroOffset (f 0%nat))
    by (rewrite length_map, length_seq; exact Hj).
  rewrite map_nth, seq_nth by exact Hj. reflexivity.
Qed.

(** X3. On a table whose cache is not computed yet, [OffsetsByIndex i]
    returns, for [0 <= i < NumEntries], the index and the two sums of the
    sizes of the entries before [i] (modulo [2^64]); for any other [i],
    [-1] on an empty table included, it panics. *)
Theorem OffsetsByIndex_range (t : Table) (i : Z) :
  cached t = false ->
  (0 <= i < NumEntries t ->
   exists t',
     OffsetsByIndex t i
     = Done (t', mkOffset i
                   (u64 (sumC (firstn (Z.to_nat i) (table_entries t))))
                   (u64 (sumD (firstn (Z.to_nat i) (table_entries t)))))
     /\ entries t' = entries t)
  /\ (i < 0 \/ NumEntries t <= i -> OffsetsByIndex t i = Panic).
Proof.
  intros Hc. unfold OffsetsByIndex, CacheOffsets. rewrite Hc.
  rewrite computeOffsets_mod. cbn [bind cachedOffsets].
  pose proof (offsetsMod_length t) as Hl. split.
  - intros Hi. rewrite (item_ok _ _ zeroOffset) by lia. cbn [bind].
    exists (mkTable (entries t) true (offsetsMod t)). split; [|reflexivity].
    rewrite nth_offsetsMod by lia. rewrite Z2Nat.id by lia. reflexivity.
  - intros Hi. rewrite item_out by lia. reflexivity.
Qed.

Lemma OffsetsByIndex_range_witness :
  (0 <= 1 < NumEntries exampleTable ->
   exists t',
     OffsetsByIndex exampleTable 1
     = Done (t', mkOffset 1
                   (u64 (sumC (firstn (Z.to_nat 1) (table_entries exampleTable))))
                   (u64 (sumD (firstn (Z.to_nat 1) (table_entries exampleTable)))))
     /\ entries t' = entries exampleTable)
  /\ (1 < 0 \/ NumEntries exampleTable <= 1 -> OffsetsByIndex exampleTable 1 = Panic).
Proof. apply (OffsetsByIndex_range exampleTable 1). reflexivity. Defined.

(* ------------------------------------------------------------------ *)
(** ** [WriteTableToWriter] on a sink that runs out of room *)

Lemma Limited_write (bs p : list byte) (rm : Z) :
  0 <= rm ->
  io_Write (mkLimited bs rm) p
  = if len p <=? rm
    then (mkLimited (bs ++ p) (rm - len p), (len p, None))
    else (mkLimited (bs ++ firstn (Z.to_nat rm) p) 0, (rm, Some ErrShortWrite)).
Proof.
  intros Hr. unfold io_Write, LimitedSink_Writer. cbn [lim_bytes room].
  destruct (len p <=? rm); [reflexivity|].
  rewrite Z.max_r by lia. reflexivity.
Qed.

Lemma firstn_app_short {A : Type} (l1 l2 : list A) (n : nat) :
  (n <= length l1)%nat -> firstn n (l1 ++ l2) = firstn n l1.
Proof.
  intros Hn. rewrite firstn_app.
  replace (n - length l1)%nat with 0%nat by lia.
  cbn [firstn]. apply app_nil_r.
Qed.

Lemma firstn_app_long {A : Type} (l1 l2 : list A) (n : nat) :
  (length l1 <= n)%nat -> firstn n (l1 ++ l2) = l1 ++ firstn (n - length l1) l2.
Proof.
  intros Hn. rewrite firstn_app. rewrite firstn_all2 by lia. reflexivity.
Qed.

Lemma firstn_past_two {A : Type} (h e f : list A) (k : nat) :
  firstn (length h + length e + k) (h ++ e ++ f) = h ++ e ++ firstn k f.
Proof.
  rewrite firstn_app_long by lia. f_equal.
  rewrite firstn_app_long by lia. f_equal. f_equal. lia.
Qed.

Lemma firstn_past_one {A : Type} (h e f : list A) (k : nat) :
  (k <= length e)%nat ->
  firstn (length h + k) (h ++ e ++ f) = h ++ firstn k e.
Proof.
  intros Hk. rewrite firstn_app_long by lia. f_equal.
  rewrite firstn_app_short by lia. f_equal. lia.
Qed.

(** X4. On a sink with room for [room] more bytes, [WriteTableToWriter]
    stores the first [min room Size] bytes of the serialized table and
    returns exactly that count; the error is nil exactly when the whole
    table fits. *)
Theorem WriteTable_limited (t : Table) (bs : list byte) (rm : Z) :
  0 <= rm ->
  exists s' n err,
    WriteTableToWriter t (mkLimited bs rm) = (s', (n, err))
    /\ n = Z.min rm (Size t)
    /\ lim_bytes s' = bs ++ firstn (Z.to_nat n) (serialized t)
    /\ (err = None <-> Size t <= rm).
Proof.
  intros Hr. unfold WriteTableToWriter.
  fold (tableHeader t). fold (tableFooter t).
  pose proof (len_nonneg (entries t)) as He.
  assert (Hh : length (tableHeader t) = 8%nat) by reflexivity.
  assert (Hf : length (tableFooter t) = 9%nat) by reflexivity.
  rewrite Limited_write by lia. rewrite tableHeader_length.
  destruct (8 <=? rm) eqn:E1.
  - rewrite Limited_write by lia.
    destruct (len (entries t) <=? rm - 8) eqn:E2.
    + rewrite Limited_write by lia. rewrite tableFooter_length.
      destruct (9 <=? rm - 8 - len (entries t)) eqn:E3.
      * do 3 eexists. split; [reflexivity|]. unfold Size.
        split; [lia|]. split; [|split; [lia|reflexivity]].
        cbn [lim_bytes]. rewrite <- !app_assoc. f_equal.
        rewrite firstn_all2; [reflexivity|].
        unfold serialized. rewrite !length_app. unfold len in *. lia.
      * do 3 eexists. split; [reflexivity|]. unfold Size.
        split; [lia|]. split; [|split; [discriminate|lia]].
        cbn [lim_bytes]. rewrite <- !app_assoc. f_equal.
        unfold serialized.
        replace (Z.to_nat (8 + len (entries t) + (rm - 8 - len (entries t))))
          with (length (tableHeader t) + length (entries t)
                + Z.to_nat (rm - 8 - len (entries t)))%nat
          by (unfold len in *; lia).
        rewrite firstn_past_two. reflexivity.
    + do 3 eexists. split; [reflexivity|]. unfold Size.
      split; [lia|]. split; [|split; [discriminate|lia]].
      cbn [lim_bytes]. rewrite <- !app_assoc. f_equal.
      unfold serialized.
      replace (Z.to_nat (8 + (rm - 8)))
        with (length (tableHeader t) + Z.to_nat (rm - 8))%nat by lia.
      rewrite firstn_past_one by (unfold len in *; lia). reflexivity.
  - do 3 eexists. split; [reflexivity|]. unfold Size.
    split; [lia|]. split; [|split; [discriminate|lia]].
    cbn [lim_bytes]. f_equal. unfold serialized.
    rewrite firstn_app_short by lia. reflexivity.
Qed.

Lemma WriteTable_limited_witness :
  exists s' n err,
    WriteTableToWriter exampleTable (mkLimited [x01] 10) = (s', (n, err))
    /\ n = Z.min 10 (Size exampleTable)
    /\ lim_bytes s' = [x01] ++ firstn (Z.to_nat n) (serialized exampleTable)
    /\ (err = None <-> Size exampleTable <= 10).
Proof. apply (WriteTable_limited exampleTable [x01] 10). lia. Defined.

(* ------------------------------------------------------------------ *)
(** ** What [ReadTableFromReadSeeker] accepts *)

Lemma byte_of_Z_of_byte (b : byte) : byte_of_Z (Z_of_byte b) = b.
Proof.
  unfold byte_of_Z. pose proof (Z_of_byte_range b) as Hr.
  rewrite Z.mod_small by exact Hr. unfold Z_of_byte.
  rewrite N2Z.id, Byte.of_to_N. reflexivity.
Qed.

Lemma byte_of_Z_mod (z : Z) : byte_of_Z (z mod 256) = byte_of_Z z.
Proof. unfold byte_of_Z. rewrite Z.mod_mod by lia. reflexivity. Qed.

Lemma byte_of_Z_low (b : byte) (q : Z) : byte_of_Z (Z_of_byte b + 256 * q) = b.
Proof.
  rewrite <- byte_of_Z_mod.
  rewrite (Z.mul_comm 256 q), Z_mod_plus_full.
  rewrite byte_of_Z_mod. apply byte_of_Z_of_byte.
Qed.

Lemma div_low (b : byte) (q : Z) : (Z_of_byte b + 256 * q) / 256 = q.
Proof.
  pose proof (Z_of_byte_range b) as Hr.
  rewrite (Z.mul_comm 256 q), Z.div_add by lia.
  rewrite Z.div_small by exact Hr. lia.
Qed.

Lemma PutUint32_Uint32 (b0 b1 b2 b3 : byte) :
  PutUint32 (Uint32 [b0; b1; b2; b3]) = [b0; b1; b2; b3].
Proof.
  unfold Uint32, PutUint32. cbn [nth].
  set (v1 := Z_of_byte b1 + 256 * (Z_of_byte b2 + 256 * (Z_of_byte b3 + 256 * 0))).
  replace (Z_of_byte b0 + 256 * Z_of_byte b1 + 65536 * Z_of_byte b2
           + 16777216 * Z_of_byte b3)
    with (Z_of_byte b0 + 256 * v1) by (subst v1; lia).
  replace 65536 with (256 * 256) by reflexivity.
  replace 16777216 with (256 * 256 * 256) by reflexivity.
  rewrite <- !Z.div_div by lia.
  rewrite byte_of_Z_low, div_low. subst v1.
  rewrite byte_of_Z_low, div_low.
  rewrite byte_of_Z_low, div_low.
  rewrite byte_of_Z_low. reflexivity.
Qed.

Lemma PutUint32_Uint32_list (b : list byte) :
  length b = 4%nat -> PutUint32 (Uint32 b) = b.
Proof.
  destruct b as [|b0 [|b1 [|b2 [|b3 [|b4 rest]]]]]; try discriminate.
  intros _. apply PutUint32_Uint32.
Qed.

Lemma Seek_end_eq (s : list byte) (i k : Z) :
  BytesReader_Seek (mkBytesReader s i) (- k) SeekEnd
  = if len s - k <? 0
    then (mkBytesReader s i, (0, Some ErrNegativePosition))
    else (mkBytesReader s (len s - k), (len s - k, None)).
Proof.
  unfold BytesReader_Seek. cbn [rd_s rd_i].
  change (SeekEnd =? SeekStart) with false.
  change (SeekEnd =? SeekCurrent) with false.
  change (SeekEnd =? SeekEnd) with true. cbn [orb].
  replace (len s + - k) with (len s - k) by lia. reflexivity.
Qed.

Lemma ReadFull_eq (s : list byte) (i n : Z) :
  0 <= i ->
  BytesReader_ReadFull (mkBytesReader s i) n
  = if n <=? 0 then (mkBytesReader s i, ([], None))
    else if len s <=? i then (mkBytesReader s i, ([], Some EOF))
    else if n <=? len s - i
    then (mkBytesReader s (i + n),
          (firstn (Z.to_nat n) (skipn (Z.to_nat i) s), None))
    else (mkBytesReader s (len s), (skipn (Z.to_nat i) s, Some ErrUnexpectedEOF)).
Proof.
  intros Hi. unfold BytesReader_ReadFull. cbn [rd_s rd_i].
  destruct (n <=? 0); [reflexivity|].
  destruct (len s <=? i) eqn:E; [reflexivity|].
  replace (len (skipn (Z.to_nat i) s)) with (len s - i)
    by (unfold len in *; rewrite length_skipn; lia).
  reflexivity.
Qed.

Lemma emptyCheck_passed (fuel : nat) (data : list byte) (n : Z) :
  emptyCheck_loop (S fuel) data n 0 = Done None -> 0 < n -> 8 <= len data ->
  Uint32 (firstn 4 data) <> 0.
Proof.
  intros Hrun Hn Hlen Hz.
  destruct data as [|b0 [|b1 [|b2 [|b3 rest]]]];
    try (unfold len in Hlen; cbn [length] in Hlen; lia).
  cbn [firstn] in Hz. apply Uint32_zero_iff in Hz. destruct Hz as [-> [-> [-> ->]]].
  rewrite emptyCheck_fail in Hrun by exact Hn. discriminate.
Qed.

Lemma emptyCheck_nil_panics (fuel : nat) (n : Z) :
  0 < n -> emptyCheck_loop (S fuel) [] n 0 = Panic.
Proof.
  intros Hn. cbn [emptyCheck_loop]. destruct (0 <? n) eqn:E; [reflexivity|lia].
Qed.

Lemma split_at {A : Type} (s : list A) (i j : nat) :
  (i <= j)%nat ->
  skipn i s = firstn (j - i) (skipn i s) ++ skipn j s.
Proof.
  intros Hij. rewrite <- (firstn_skipn (j - i) (skipn i s)) at 1.
  f_equal. rewrite skipn_skipn. f_equal. lia.
Qed.

(** X5. Every stream [ReadTableFromReadSeeker] accepts ends with a
    well-formed table: it is some prefix, the header magic, the declared
    size [entries + 9], the entry bytes the returned table holds, and a
    footer with a count [n] (eight times which is the number of entry
    bytes), any descriptor byte and the footer magic. The table fits in
    32 bits, its cache is absent, and when [n > 0] its first entry has a
    non-zero [CompressedSize]. *)
Theorem ReadTable_accepted (s : list byte) (rd : BytesReader) (t : Table) :
  ReadTableFromReadSeeker (NewReader s) = Done (rd, Ok t) ->
  exists pre n d,
    s = pre ++ tableHeader t ++ entries t
            ++ (PutUint32 n ++ [d] ++ PutUint32 footerMagicNumber)
    /\ 0 <= n < 4294967296
    /\ len (entries t) = u32 (n * 8)
    /\ len (entries t) + 17 < 4294967296
    /\ (0 < n -> exists e, GetEntry t 0 = Done e /\ CompressedSize e <> 0)
    /\ cached t = false /\ cachedOffsets t = [].
Proof.
  unfold ReadTableFromReadSeeker, NewReader.
  cbn [io_Seek io_ReadFull BytesReader_ReadSeeker].
  pose proof (len_nonneg s) as HL.
  change (-9) with (Z.opp 9). rewrite Seek_end_eq.
  destruct (len s - 9 <? 0) eqn:E9; [discriminate|].
  rewrite ReadFull_eq by lia. cbv beta iota zeta.
  change (9 <=? 0) with false. cbv iota.
  destruct (len s <=? len s - 9) eqn:Ea; [lia|].
  destruct (9 <=? len s - (len s - 9)) eqn:Eb; [|lia].
  set (footer := firstn (Z.to_nat 9) (skipn (Z.to_nat (len s - 9)) s)).
  assert (Hfooter : footer = skipn (Z.to_nat (len s - 9)) s).
  { subst footer. apply firstn_all2. rewrite length_skipn. unfold len in *. lia. }
  assert (Hflen : length footer = 9%nat).
  { rewrite Hfooter, length_skipn. unfold len in *. lia. }
  set (n := Uint32 (firstn 4 footer)).
  pose proof (Uint32_range (firstn 4 footer)) as Hn. fold n in Hn.
  destruct (Uint32 (skipn 5 footer) =? footerMagicNumber) eqn:Emagic;
    cbn [negb]; [|discriminate].
  apply Z.eqb_eq in Emagic.
  set (m := u32 (n * 8)).
  pose proof (u32_range (n * 8)) as Hm. fold m in Hm.
  set (sz := u32 (u32 (8 + m) + 9)).
  pose proof (u32_range (u32 (8 + m) + 9)) as Hsz. fold sz in Hsz.
  rewrite Seek_end_eq.
  destruct (len s - sz <? 0) eqn:Esz; [discriminate|].
  rewrite ReadFull_eq by lia. cbv beta iota zeta.
  change (8 <=? 0) with false. cbv iota.
  destruct (len s <=? len s - sz) eqn:Ec; [discriminate|].
  destruct (8 <=? len s - (len s - sz)) eqn:Ed; [|discriminate].
  set (i := Z.to_nat (len s - sz)).
  set (header := firstn (Z.to_nat 8) (skipn i s)).
  destruct (Uint32 (firstn 4 header) =? headerMagicNumber) eqn:Ehm;
    cbn [negb]; [|discriminate].
  apply Z.eqb_eq in Ehm.
  destruct (Uint32 (skipn 4 header) =? u32 (m + 9)) eqn:Ehs;
    cbn [negb]; [|discriminate].
  apply Z.eqb_eq in Ehs.
  rewrite ReadFull_eq by lia.
  assert (Hhlen : length header = 8%nat).
  { subst header. rewrite length_firstn, length_skipn. unfold len in *. lia. }
  (* the table size did not wrap, and the entries are where they should be *)
  set (rf := if m <=? 0 then _ else _).
  assert (Hent : forall entriesData d5,
            rf = (d5, (entriesData, None)) ->
            sz = m + 17
            /\ entriesData = firstn (Z.to_nat m) (skipn (i + 8) s)).
  { intros entriesData d5 Hread. subst rf.
    destruct (m <=? 0) eqn:Em0.
    - injection Hread as _ <-.
      assert (m = 0) by lia.
      split; [subst sz; replace m with 0 by lia; reflexivity|].
      replace m with 0 by lia. reflexivity.
    - destruct (len s <=? len s - sz + 8); [discriminate|].
      destruct (m <=? len s - (len s - sz + 8)) eqn:Efit; [|discriminate].
      injection Hread as _ <-.
      assert (Hszm : sz = m + 17).
      { subst sz. unfold u32 in *. Z.div_mod_to_equations. lia. }
      split; [exact Hszm|]. do 2 f_equal. subst i. lia. }
  clearbody rf.
  destruct rf as [d5 [entriesData [e5|]]]; [discriminate|].
  destruct (Hent entriesData d5 eq_refl) as [Hszm Hdata].
  clear Hent.
  destruct (emptyCheck_loop _ entriesData n 0) as [[e6|]| |] eqn:Echk;
    cbn [bind]; try discriminate.
  intros [= _ <-]. cbn [entries cached cachedOffsets].
  assert (Hilen : (i + 8 + Z.to_nat m + 9 = length s)%nat).
  { subst i. unfold len in *. lia. }
  assert (Hdlen : len entriesData = m).
  { rewrite Hdata. unfold len. rewrite length_firstn, length_skipn. lia. }
  exists (firstn i s), n, (nth 4 footer x00).
  split; [|split; [exact Hn|split; [exact Hdlen|split; [lia|split; [|split; reflexivity]]]]].
  - (* the stream *)
    rewrite <- (firstn_skipn i s) at 1. f_equal.
    rewrite (split_at s i (i + 8)) by lia.
    replace (i + 8 - i)%nat with 8%nat by lia.
    change (firstn 8 (skipn i s)) with header.
    assert (Hhdr : header = tableHeader (mkTable entriesData false [])).
    { unfold tableHeader. cbn [entries]. rewrite Hdlen.
      rewrite <- (firstn_skipn 4 header) at 1. f_equal.
      - rewrite <- (PutUint32_Uint32_list (firstn 4 header))
          by (rewrite length_firstn; lia).
        rewrite Ehm. reflexivity.
      - rewrite <- (PutUint32_Uint32_list (skipn 4 header))
          by (rewrite length_skipn; lia).
        rewrite Ehs. reflexivity. }
    rewrite Hhdr. f_equal.
    rewrite (split_at s (i + 8) (i + 8 + Z.to_nat m)) by lia.
    replace (i + 8 + Z.to_nat m - (i + 8))%nat with (Z.to_nat m) by lia.
    rewrite <- Hdata. f_equal.
    replace (i + 8 + Z.to_nat m)%nat with (Z.to_nat (len s - 9))
      by (unfold len in *; lia).
    rewrite <- Hfooter.
    rewrite <- (firstn_skipn 4 footer) at 1. f_equal.
    + rewrite <- (PutUint32_Uint32_list (firstn 4 footer))
        by (rewrite length_firstn; lia).
      reflexivity.
    + destruct footer as [|f0 [|f1 [|f2 [|f3 [|f4 [|f5 [|f6 [|f7 [|f8 [|f9 r]]]]]]]]]];
        try discriminate Hflen.
      cbn [skipn nth app]. f_equal.
      cbn [skipn] in Emagic. rewrite <- Emagic. symmetry. apply PutUint32_Uint32.
  - (* the first entry *)
    intros Hpos.
    destruct (Z.eq_dec m 0) as [Hm0|Hm0].
    { assert (Hnil : entriesData = []).
      { destruct entriesData; [reflexivity|].
        unfold len in Hdlen. cbn [length] in Hdlen. lia. }
      rewrite Hnil, emptyCheck_nil_panics in Echk by lia. discriminate. }
    assert (Hm8 : 8 <= m).
    { subst m. unfold u32 in *. Z.div_mod_to_equations. lia. }
    eexists. split.
    + apply GetEntry_bytes; cbn [entries]; lia.
    + cbn [entries entryOfBytes CompressedSize Z.to_nat Nat.mul skipn].
      apply (emptyCheck_passed _ _ n Echk Hpos). lia.
Qed.

Lemma ReadTable_accepted_witness :
  exists pre n d,
    serialized exampleTable
    = pre ++ tableHeader (mkTable (entries exampleTable) false [])
          ++ entries (mkTable (entries exampleTable) false [])
          ++ (PutUint32 n ++ [d] ++ PutUint32 footerMagicNumber)
    /\ 0 <= n < 4294967296
    /\ len (entries (mkTable (entries exampleTable) false [])) = u32 (n * 8)
    /\ len (entries (mkTable (entries exampleTable) false [])) + 17 < 4294967296
    /\ (0 < n -> exists e,
          GetEntry (mkTable (entries exampleTable) false []) 0 = Done e
          /\ CompressedSize e <> 0)
    /\ cached (mkTable (entries exampleTable) false []) = false
    /\ cachedOffsets (mkTable (entries exampleTable) false []) = [].
Proof.
  apply (ReadTable_accepted (serialized exampleTable)
           (mkBytesReader (serialized exampleTable) 24)
           (mkTable (entries exampleTable) false [])).
  vm_compute. reflexivity.
Defined.

Lemma footerWith_fields (d : byte) (t : Table) :
  len (footerWith d t) = 9
  /\ Uint32 (firstn 4 (footerWith d t)) = u32 (NumEntries t)
  /\ Uint32 (skipn 5 (footerWith d t)) = footerMagicNumber.
Proof.
  unfold footerWith. split; [reflexivity|]. split; [|reflexivity].
  change (firstn 4 (PutUint32 (u32 (NumEntries t)) ++ [d] ++ PutUint32 footerMagicNumber))
    with (PutUint32 (u32 (NumEntries t))).
  rewrite Uint32_PutUint32. unfold u32. apply Z.mod_mod. lia.
Qed.

(** Reading a stream that ends with the table of [t] under any descriptor
    byte. *)
Lemma ReadTable_any_descriptor (t : Table) (pre : list byte) (d : byte) :
  wfTable t -> NumEntries t * 8 + 17 < 4294967296 ->
  exists rd,
    ReadTableFromReadSeeker
      (NewReader (pre ++ tableHeader t ++ entries t ++ footerWith d t))
    = Done (rd, if (0 <? NumEntries t) && (CompressedSize (entryAt t 0) =? 0)
                then Err ErrEmptyChunk
                else Ok (mkTable (entries t) false [])).
Proof.
  intros Hwf Hsz. pose proof (NumEntries_bounds t) as Hn.
  pose proof Hwf as Hlen. unfold wfTable in Hlen.
  destruct (footerWith_fields d t) as [Hf0 [Hf1 Hf4]].
  rewrite u32_small in Hf1 by lia.
  set (s := pre ++ tableHeader t ++ entries t ++ footerWith d t).
  assert (Hs : len s = len pre + NumEntries t * 8 + 17).
  { subst s. rewrite !len_app, tableHeader_length, Hf0. lia. }
  pose proof (len_nonneg pre) as Hpre.
  unfold ReadTableFromReadSeeker, NewReader.
  cbn [io_Seek io_ReadFull BytesReader_ReadSeeker].
  change (-9) with (Z.opp 9).
  rewrite (Seek_from_end s 0 9) by lia.
  rewrite (ReadFull_at s (pre ++ tableHeader t ++ entries t) (footerWith d t) []
             (len s - 9) 9).
  2:{ subst s. rewrite app_nil_r, <- !app_assoc. reflexivity. }
  2:{ rewrite !len_app, tableHeader_length. lia. }
  2:{ reflexivity. }
  2:{ lia. }
  cbv beta iota zeta.
  rewrite Hf1, Hf4. rewrite Z.eqb_refl. cbn [negb].
  rewrite (u32_small (NumEntries t * 8)) by lia.
  rewrite (u32_small (8 + NumEntries t * 8)) by lia.
  rewrite (u32_small (8 + NumEntries t * 8 + 9)) by lia.
  rewrite (Seek_from_end s _ (8 + NumEntries t * 8 + 9)) by lia.
  rewrite (ReadFull_at s pre (tableHeader t) (entries t ++ footerWith d t)
             (len s - (8 + NumEntries t * 8 + 9)) 8).
  2:{ reflexivity. }
  2:{ lia. }
  2:{ reflexivity. }
  2:{ lia. }
  cbv beta iota zeta.
  change (Uint32 (firstn 4 (tableHeader t))) with headerMagicNumber.
  rewrite Z.eqb_refl. cbn [negb].
  change (skipn 4 (tableHeader t)) with (PutUint32 (u32 (len (entries t) + 9))).
  rewrite Uint32_PutUint32, Hlen.
  rewrite !(u32_small (NumEntries t * 8 + 9)) by lia.
  rewrite Z.eqb_refl. cbn [negb].
  assert (Hent : BytesReader_ReadFull
                   (mkBytesReader s (len s - (8 + NumEntries t * 8 + 9) + 8))
                   (NumEntries t * 8)
                 = (mkBytesReader s (len pre + 8 + NumEntries t * 8), (entries t, None))).
  { destruct (Z.eq_dec (NumEntries t) 0) as [Hz|Hnz].
    - rewrite Hz. cbn [Z.mul]. rewrite ReadFull_zero.
      destruct (entries t); [|unfold len in Hlen; cbn [length] in Hlen; lia].
      do 2 f_equal. lia.
    - rewrite (ReadFull_at s (pre ++ tableHeader t) (entries t) (footerWith d t) _ _).
      + do 2 f_equal. lia.
      + subst s. rewrite <- !app_assoc. reflexivity.
      + rewrite len_app, tableHeader_length. lia.
      + lia.
      + lia. }
  rewrite Hent. cbv beta iota zeta.
  rewrite emptyCheck_entries by (assumption || lia).
  cbn [bind].
  eexists.
  destruct ((0 <? NumEntries t) && (CompressedSize (entryAt t 0) =? 0)); reflexivity.
Qed.

(** X6. The reader is anchored at the tail and ignores the descriptor
    byte: for a table of whole entries below [2^32] bytes whose first
    entry (if any) has a non-zero [CompressedSize], the bytes of the table
    are read back as the same entries after any prefix and under any
    descriptor byte, a set checksum flag included. *)
Theorem ReadTable_prefix_descriptor (t : Table) (pre : list byte) (d : byte) :
  wfTable t -> NumEntries t * 8 + 17 < 4294967296 ->
  (0 < NumEntries t -> CompressedSize (entryAt t 0) <> 0) ->
  exists rd t',
    ReadTableFromReadSeeker
      (NewReader (pre ++ tableHeader t ++ entries t ++ footerWith d t))
    = Done (rd, Ok t')
    /\ entries t' = entries t.
Proof.
  intros Hwf Hsz Hfirst.
  destruct (ReadTable_any_descriptor t pre d Hwf Hsz) as [rd Hrd].
  exists rd, (mkTable (entries t) false []). split; [|reflexivity].
  rewrite Hrd.
  destruct (0 <? NumEntries t) eqn:E0; cbn [andb]; [|reflexivity].
  destruct (CompressedSize (entryAt t 0) =? 0) eqn:E1; [|reflexivity].
  apply Z.eqb_eq in E1. exfalso. apply Hfirst; [lia|exact E1].
Qed.

Lemma ReadTable_prefix_descriptor_witness :
  exists rd t',
    ReadTableFromReadSeeker
      (NewReader ([x01; x02; x03] ++ tableHeader exampleTable ++ entries exampleTable
                  ++ footerWith x80 exampleTable))
    = Done (rd, Ok t')
    /\ entries t' = entries exampleTable.
Proof.
  apply (ReadTable_prefix_descriptor exampleTable [x01; x02; x03] x80).
  - reflexivity.
  - vm_compute. reflexivity.
  - intros _. vm_compute. discriminate.
Defined.

(* ------------------------------------------------------------------ *)
(** ** What [ReadTableFromReadSeeker] rejects *)

(** X7. Errors decided by the tail of the stream. A stream of fewer than
    nine bytes fails on the first seek and the source is not moved; a
    stream whose last four bytes are not the footer magic is an invalid
    seek table with the footer-magic cause; a stream whose footer is valid
    but which is shorter than the table the footer announces fails on the
    seek to the start of the table. *)
Theorem ReadTable_tail_errors (s : list byte) :
  (len s < 9 ->
   ReadTableFromReadSeeker (NewReader s)
   = Done (NewReader s,
           Err (Join (New "error while seeking to seek table footer")
                     ErrNegativePosition)))
  /\ (9 <= len s ->
      Uint32 (skipn (Z.to_nat (len s - 4)) s) <> footerMagicNumber ->
      ReadTableFromReadSeeker (NewReader s)
      = Done (mkBytesReader s (len s),
              Err (Join ErrInvalidSeekTable ErrInvalidSeekTableFooterMagicNumber)))
  /\ (9 <= len s ->
      Uint32 (skipn (Z.to_nat (len s - 4)) s) = footerMagicNumber ->
      len s < u32 (u32 (8 + u32 (Uint32 (firstn 4 (skipn (Z.to_nat (len s - 9)) s)) * 8))
                   + 9) ->
      ReadTableFromReadSeeker (NewReader s)
      = Done (mkBytesReader s (len s),
              Err (Join (New "error while seeking to seek table start")
                        ErrNegativePosition))).
Proof.
  pose proof (len_nonneg s) as HL.
  unfold ReadTableFromReadSeeker, NewReader.
  cbn [io_Seek io_ReadFull BytesReader_ReadSeeker].
  change (-9) with (Z.opp 9). rewrite Seek_end_eq.
  split; [|split].
  - intros Hs. destruct (len s - 9 <? 0) eqn:E; [reflexivity|lia].
  - intros Hs Hmagic. destruct (len s - 9 <? 0) eqn:E; [lia|].
    rewrite ReadFull_eq by lia. cbv beta iota zeta.
    change (9 <=? 0) with false. cbv iota.
    destruct (len s <=? len s - 9) eqn:Ea; [lia|].
    destruct (9 <=? len s - (len s - 9)) eqn:Eb; [|lia].
    rewrite (firstn_all2 (n := Z.to_nat 9))
      by (rewrite length_skipn; unfold len in *; lia).
    rewrite skipn_skipn.
    replace (5 + Z.to_nat (len s - 9))%nat with (Z.to_nat (len s - 4)) by lia.
    destruct (Uint32 (skipn (Z.to_nat (len s - 4)) s) =? footerMagicNumber) eqn:Em.
    + apply Z.eqb_eq in Em. contradiction.
    + cbn [negb]. do 3 f_equal. lia.
  - intros Hs Hmagic Hshort. destruct (len s - 9 <? 0) eqn:E; [lia|].
    rewrite ReadFull_eq by lia. cbv beta iota zeta.
    change (9 <=? 0) with false. cbv iota.
    destruct (len s <=? len s - 9) eqn:Ea; [lia|].
    destruct (9 <=? len s - (len s - 9)) eqn:Eb; [|lia].
    rewrite (firstn_all2 (n := Z.to_nat 9))
      by (rewrite length_skipn; unfold len in *; lia).
    rewrite skipn_skipn.
    replace (5 + Z.to_nat (len s - 9))%nat with (Z.to_nat (len s - 4)) by lia.
    rewrite Hmagic, Z.eqb_refl. cbn [negb].
    rewrite Seek_end_eq.
    match goal with |- context [if ?c then _ else _] => destruct c eqn:Ec end.
    + do 3 f_equal. lia.
    + lia.
Qed.

Lemma ReadTable_tail_errors_witness :
  ReadTableFromReadSeeker (NewReader [x01; x02])
  = Done (NewReader [x01; x02],
          Err (Join (New "error while seeking to seek table footer")
                    ErrNegativePosition))
  /\ ReadTableFromReadSeeker (NewReader (serialized exampleTable ++ [x00]))
     = Done (mkBytesReader (serialized exampleTable ++ [x00])
                           (len (serialized exampleTable ++ [x00])),
             Err (Join ErrInvalidSeekTable ErrInvalidSeekTableFooterMagicNumber))
  /\ ReadTableFromReadSeeker (NewReader (skipn 20 (serialized exampleTable)))
     = Done (mkBytesReader (skipn 20 (serialized exampleTable))
                           (len (skipn 20 (serialized exampleTable))),
             Err (Join (New "error while seeking to seek table start")
                       ErrNegativePosition)).
Proof.
  split; [|split].
  - apply (ReadTable_tail_errors [x01; x02]). vm_compute. reflexivity.
  - apply (ReadTable_tail_errors (serialized exampleTable ++ [x00])).
    + vm_compute. discriminate.
    + vm_compute. discriminate.
  - apply (ReadTable_tail_errors (skipn 20 (serialized exampleTable))).
    + vm_compute. discriminate.
    + vm_compute. reflexivity.
    + vm_compute. reflexivity.
Defined.

(** X8. Errors decided by the header. In a stream that ends with eight
    header bytes, [n] whole entries and a valid footer announcing [n]
    entries, a wrong header magic is an invalid seek table with the
    header-magic cause, and a right magic with a declared size other than
    [n * 8 + 9] is one with the size-mismatch cause. *)
Theorem ReadTable_header_errors (pre hdr ents : list byte) (n : Z) (d : byte) :
  len hdr = 8 -> 0 <= n -> len ents = n * 8 -> n * 8 + 17 < 4294967296 ->
  let s := pre ++ hdr ++ ents ++ (PutUint32 n ++ [d] ++ PutUint32 footerMagicNumber) in
  (Uint32 (firstn 4 hdr) <> headerMagicNumber ->
   exists rd,
     ReadTableFromReadSeeker (NewReader s)
     = Done (rd, Err (Join ErrInvalidSeekTable ErrInvalidSeekTableHeaderMagicNumber)))
  /\ (Uint32 (firstn 4 hdr) = headerMagicNumber ->
      Uint32 (skipn 4 hdr) <> n * 8 + 9 ->
      exists rd,
        ReadTableFromReadSeeker (NewReader s)
        = Done (rd, Err (Join ErrInvalidSeekTable ErrSeekTableSizeMismatch))).
Proof.
  intros Hh Hn He Hsz s.
  set (ftr := PutUint32 n ++ [d] ++ PutUint32 footerMagicNumber) in *.
  assert (Hf0 : len ftr = 9) by reflexivity.
  assert (Hf1 : Uint32 (firstn 4 ftr) = n).
  { change (firstn 4 ftr) with (PutUint32 n). apply Uint32_PutUint32_id. lia. }
  assert (Hf4 : Uint32 (skipn 5 ftr) = footerMagicNumber) by reflexivity.
  assert (Hs : len s = len pre + n * 8 + 17).
  { subst s. rewrite !len_app, Hh, He, Hf0. lia. }
  pose proof (len_nonneg pre) as Hpre.
  assert (Hstart :
    forall k : (BytesReader * (list byte * option error)) -> outcome (BytesReader * res Table),
      (let '(data, (footer, err)) :=
         BytesReader_ReadFull (mkBytesReader s (len s - 9)) 9 in k (data, (footer, err)))
      = k (mkBytesReader s (len s - 9 + 9), (ftr, None))).
  { intros k.
    rewrite (ReadFull_at s (pre ++ hdr ++ ents) ftr [] (len s - 9) 9).
    - reflexivity.
    - subst s. rewrite app_nil_r, <- !app_assoc. reflexivity.
    - rewrite !len_app, Hh, He. lia.
    - reflexivity.
    - lia. }
  unfold ReadTableFromReadSeeker, NewReader.
  cbn [io_Seek io_ReadFull BytesReader_ReadSeeker].
  change (-9) with (Z.opp 9).
  rewrite (Seek_from_end s 0 9) by lia.
  rewrite (ReadFull_at s (pre ++ hdr ++ ents) ftr [] (len s - 9) 9).
  2:{ subst s. rewrite app_nil_r, <- !app_assoc. reflexivity. }
  2:{ rewrite !len_app, Hh, He. lia. }
  2:{ reflexivity. }
  2:{ lia. }
  cbv beta iota zeta.
  rewrite Hf1, Hf4. rewrite Z.eqb_refl. cbn [negb].
  rewrite (u32_small (n * 8)) by lia.
  rewrite (u32_small (8 + n * 8)) by lia.
  rewrite (u32_small (8 + n * 8 + 9)) by lia.
  rewrite (Seek_from_end s _ (8 + n * 8 + 9)) by lia.
  rewrite (ReadFull_at s pre hdr (ents ++ ftr) (len s - (8 + n * 8 + 9)) 8).
  2:{ reflexivity. }
  2:{ lia. }
  2:{ lia. }
  2:{ lia. }
  cbv beta iota zeta.
  rewrite (u32_small (n * 8 + 9)) by lia.
  clear Hstart. split.
  - intros Hbad. apply Z.eqb_neq in Hbad. rewrite Hbad. cbn [negb].
    eexists. reflexivity.
  - intros Hok Hbad. rewrite Hok, Z.eqb_refl. cbn [negb].
    apply Z.eqb_neq in Hbad. rewrite Hbad. cbn [negb].
    eexists. reflexivity.
Qed.

Lemma ReadTable_header_errors_witness :
  let s := [x0a] ++ (PutUint32 7 ++ PutUint32 17) ++ PutUint32 5 ++ PutUint32 10
           ++ (PutUint32 1 ++ [x00] ++ PutUint32 footerMagicNumber) in
  exists rd,
    ReadTableFromReadSeeker (NewReader s)
    = Done (rd, Err (Join ErrInvalidSeekTable ErrInvalidSeekTableHeaderMagicNumber)).
Proof.
  apply (ReadTable_header_errors [x0a] (PutUint32 7 ++ PutUint32 17)
           (PutUint32 5 ++ PutUint32 10) 1 x00).
  - reflexivity.
  - lia.
  - reflexivity.
  - lia.
  - vm_compute. discriminate.
Defined.

(* ------------------------------------------------------------------ *)
(** ** The writer: closing twice, and a frame size of zero *)

(** X9. On every sink and in every state [Close] returns; the writer it
    leaves is closed, and a second [Close] returns a nil error and changes
    nothing, the sink included: after a [Close] that failed, the seek table
    is never written. *)
Theorem Close_twice {W : Type} `{Writer W} (EncodeAll : list byte -> list byte)
        (c : SzWriter.writer W) :
  exists c1 err,
    SzWriter.Close EncodeAll c = Done (c1, err)
    /\ SzWriter.isClosed c1 = true
    /\ SzWriter.frameSize c1 = SzWriter.frameSize c
    /\ SzWriter.Close EncodeAll c1 = Done (c1, None).
Proof.
  unfold SzWriter.Close at 1.
  destruct (SzWriter.isClosed c) eqn:Hcl.
  { exists c, None. repeat split; try assumption.
    unfold SzWriter.Close. rewrite Hcl. reflexivity. }
  cbn [SzWriter.frameBuffer SzWriter.w SzWriter.seekTable SzWriter.frameSize
       SzWriter.encoderBuffer].
  destruct (0 <? len (SzWriter.frameBuffer c)).
  - destruct (io_Write (SzWriter.w c) _) as [sink [written [e|]]].
    + cbn [bind snd]. do 2 eexists. repeat split.
    + rewrite AppendEntry_eq. cbn [bind fst snd SzWriter.seekTable SzWriter.w].
      destruct (WriteTableToWriter _ sink) as [sink' [nw [e|]]];
        do 2 eexists; repeat split.
  - cbn [bind fst snd SzWriter.seekTable SzWriter.w].
    destruct (WriteTableToWriter _ _) as [sink' [nw [e|]]];
      do 2 eexists; repeat split.
Qed.

(** X10. With a frame size of zero, an empty frame buffer and a non-empty
    input the loop of [Write] makes no progress: whatever the fuel, it
    neither returns a nil error nor panics, so it stops only when the sink
    fails. On a sink that accepts every write it never returns. *)
Theorem Write_frameSize_zero_loops {W : Type} `{Writer W}
        (EncodeAll : list byte -> list byte) (data : list byte) (fuel : nat) :
  data <> [] ->
  forall (c : SzWriter.writer W) (n : Z),
  SzWriter.frameSize c = 0 -> SzWriter.frameBuffer c = [] ->
  SzWriter.Write_loop EncodeAll fuel c data n <> Panic
  /\ (forall c' n', SzWriter.Write_loop EncodeAll fuel c data n
                    <> Done (c', (n', None)))
  /\ ((forall (s : W) (p : list byte), snd (snd (io_Write s p)) = None) ->
      SzWriter.Write_loop EncodeAll fuel c data n = OutOfFuel).
Proof.
  intros Hd.
  assert (Hlen : (0 <? len data) = true).
  { destruct data; [contradiction|]. reflexivity. }
  induction fuel as [|fuel IH]; intros c n HF Hfb.
  - cbn [SzWriter.Write_loop]. rewrite Hlen.
    repeat split; [discriminate|intros; discriminate].
  - cbn [SzWriter.Write_loop]. rewrite Hlen, HF, Hfb.
    change (len (@nil byte) =? 0) with true.
    assert (Hge : (0 <=? len data) = true) by (pose proof (len_nonneg data); lia).
    rewrite Hge. cbn [andb].
    rewrite slice_prefix by (pose proof (len_nonneg data); lia).
    rewrite slice_suffix by (pose proof (len_nonneg data); lia).
    cbn [bind Z.to_nat firstn skipn].
    destruct (io_Write (SzWriter.w c) (EncodeAll [])) as [sink [written err]] eqn:Ew.
    destruct err as [e|].
    + repeat split; [discriminate|intros; discriminate|].
      intros Hsink. specialize (Hsink (SzWriter.w c) (EncodeAll [])).
      rewrite Ew in Hsink. discriminate.
    + rewrite AppendEntry_eq. cbn [bind].
      apply IH; reflexivity.
Qed.

Lemma Write_frameSize_zero_loops_witness :
  SzWriter.Write_loop storeAll 7
    (SzWriter.mkWriter (mkBuffer []) 0 [] [] emptyTable false) [x01; x02] 0
  = OutOfFuel.
Proof.
  apply (Write_frameSize_zero_loops storeAll [x01; x02] 7).
  - discriminate.
  - reflexivity.
  - reflexivity.
  - intros s p. reflexivity.
Defined.

(* ------------------------------------------------------------------ *)
(** ** [Seek]: the three origins, and what a refused seek leaves *)

Lemma u64_add_r (a x : Z) : u64 (a + u64 x) = u64 (a + x).
Proof. unfold u64. apply Z.add_mod_idemp_r. lia. Qed.

(** X11. With the position and the total below [2^63], [Seek] computes the
    target [base + offset] without wrap-around, where [base] is 0, the
    current position or the total size: an unknown origin, a negative
    target and a target beyond the total are refused with their own
    messages and leave the reader as it was; [Seek(0, SeekCurrent)] reports
    the position; every other call behaves as [Seek(target, SeekStart)]. *)
Theorem Seek_whence {R : Type} `{ReadSeeker R} (rd : SzReader.reader R)
        (off whence : Z) :
  0 <= SzReader.offset rd <= SzReader.totalUncompressedDataSize rd ->
  SzReader.totalUncompressedDataSize rd < 9223372036854775808 ->
  -9223372036854775808 <= off < 9223372036854775808 ->
  let target :=
    (if whence =? SeekStart then 0
     else if whence =? SeekCurrent then SzReader.offset rd
     else SzReader.totalUncompressedDataSize rd) + off in
  (whence < 0 \/ 2 < whence ->
   SzReader.Seek rd off whence = Done (rd, (0, Some (New "invalid whence"))))
  /\ (0 <= whence <= 2 -> target < 0 ->
      SzReader.Seek rd off whence = Done (rd, (0, Some (New "negative offset"))))
  /\ (0 <= whence <= 2 -> SzReader.totalUncompressedDataSize rd < target ->
      SzReader.Seek rd off whence
      = Done (rd, (0, Some (New "offset beyond end of data"))))
  /\ (whence = SeekCurrent -> off = 0 ->
      SzReader.Seek rd off whence = Done (rd, (SzReader.offset rd, None)))
  /\ (0 <= whence <= 2 -> 0 <= target <= SzReader.totalUncompressedDataSize rd ->
      ~ (whence = SeekCurrent /\ off = 0) ->
      SzReader.Seek rd off whence = SzReader.Seek rd target SeekStart).
Proof.
  intros Hoff HT Ho. cbv zeta.
  set (T := SzReader.totalUncompressedDataSize rd) in *.
  set (o := SzReader.offset rd) in *.
  unfold SeekStart, SeekCurrent, SeekEnd.
  assert (Hsmall : forall z, 0 <= z < 18446744073709551616 -> u64 z = z)
    by (intros; apply u64_small; assumption).
  assert (Hneg : off < 0 -> u64 (- off) = - off) by (intros; apply Hsmall; lia).
  assert (Hwrap : forall a, 0 <= a -> 0 <= a + off < 18446744073709551616 ->
                            u64 (a + u64 off) = a + off).
  { intros a Ha Hao. rewrite u64_add_r. apply Hsmall. exact Hao. }
  assert (Hbeyond : forall z, T < z ->
            SzReader.moveTo rd z = Done (rd, (0, Some (New "offset beyond end of data")))).
  { intros z Hz. unfold SzReader.moveTo. fold T.
    destruct (T <? z) eqn:E; [reflexivity|lia]. }
  repeat split.
  - intros Hw. unfold SzReader.Seek, SeekStart, SeekCurrent, SeekEnd.
    destruct (whence =? 0) eqn:E0; [lia|].
    destruct (whence =? 1) eqn:E1; [lia|].
    destruct (whence =? 2) eqn:E2; [lia|]. reflexivity.
  - intros Hw Ht. unfold SzReader.Seek, SeekStart, SeekCurrent, SeekEnd.
    fold T o.
    destruct (whence =? 0) eqn:E0.
    { destruct (off <? 0) eqn:En; [reflexivity|lia]. }
    destruct (whence =? 1) eqn:E1.
    { destruct (off =? 0) eqn:Ez; [lia|].
      destruct (off <? 0) eqn:En; [|lia]. rewrite Hneg by lia.
      destruct (o <? - off) eqn:Ec; [reflexivity|lia]. }
    destruct (whence =? 2) eqn:E2; [|lia].
    destruct (off <? 0) eqn:En; [|lia]. rewrite Hneg by lia.
    destruct (T <? - off) eqn:Ec; [reflexivity|lia].
  - intros Hw Ht. unfold SzReader.Seek, SeekStart, SeekCurrent, SeekEnd.
    fold T o.
    destruct (whence =? 0) eqn:E0.
    { destruct (off <? 0) eqn:En; [lia|]. rewrite Hsmall by lia.
      apply Hbeyond. lia. }
    destruct (whence =? 1) eqn:E1.
    { destruct (off =? 0) eqn:Ez; [lia|].
      destruct (off <? 0) eqn:En; [lia|]. cbn [andb].
      rewrite Hwrap by lia. apply Hbeyond. lia. }
    destruct (whence =? 2) eqn:E2; [|lia].
    destruct (off <? 0) eqn:En; [lia|]. cbn [andb].
    rewrite Hwrap by lia. apply Hbeyond. lia.
  - intros -> ->. unfold SzReader.Seek, SeekStart, SeekCurrent.
    cbn [Z.eqb Pos.eqb]. fold o. rewrite i64_small by lia. reflexivity.
  - intros Hw Ht Hnot. unfold SzReader.Seek, SeekStart, SeekCurrent, SeekEnd.
    fold T o. cbn [Z.eqb].
    destruct (whence =? 0) eqn:E0.
    { rewrite Z.add_0_l. reflexivity. }
    destruct (whence =? 1) eqn:E1.
    { destruct (off =? 0) eqn:Ez; [exfalso; apply Hnot; lia|].
      destruct (o + off <? 0) eqn:Et; [lia|].
      rewrite (Hsmall (o + off)) by lia. rewrite Hwrap by lia.
      destruct (off <? 0) eqn:En; [|reflexivity]. rewrite Hneg by lia.
      destruct (o <? - off) eqn:Ec; [lia|reflexivity]. }
    destruct (whence =? 2) eqn:E2; [|lia].
    destruct (T + off <? 0) eqn:Et; [lia|].
    rewrite (Hsmall (T + off)) by lia. rewrite Hwrap by lia.
    destruct (off <? 0) eqn:En; [|reflexivity]. rewrite Hneg by lia.
    destruct (T <? - off) eqn:Ec; [lia|reflexivity].
Qed.

Lemma Seek_whence_witness :
  SzReader.Seek exampleReader (-7) SeekEnd = SzReader.Seek exampleReader 10 SeekStart.
Proof.
  apply (Seek_whence exampleReader (-7) SeekEnd);
    unfold SeekEnd, SeekCurrent; cbn; lia.
Defined.

(** X12. [Seek] never touches the underlying stream, the totals or the
    entries of the table; and a [Seek] that returns an error returns
    position 0 and leaves the offset and the current-frame fields as they
    were. *)
Theorem Seek_frame {R : Type} `{ReadSeeker R} (rd rd' : SzReader.reader R)
        (off whence n : Z) (err : option error) :
  SzReader.Seek rd off whence = Done (rd', (n, err)) ->
  SzReader.r rd' = SzReader.r rd
  /\ SzReader.totalCompressedDataSize rd' = SzReader.totalCompressedDataSize rd
  /\ SzReader.totalUncompressedDataSize rd' = SzReader.totalUncompressedDataSize rd
  /\ entries (SzReader.seekTable rd') = entries (SzReader.seekTable rd)
  /\ (err <> None ->
      n = 0
      /\ SzReader.offset rd' = SzReader.offset rd
      /\ SzReader.currentFrameIndex rd' = SzReader.currentFrameIndex rd
      /\ SzReader.currentFrameLoaded rd' = SzReader.currentFrameLoaded rd
      /\ SzReader.currentFrameReaded rd' = SzReader.currentFrameReaded rd).
Proof.
  assert (Hmove : forall z,
            SzReader.moveTo rd z = Done (rd', (n, err)) ->
            SzReader.r rd' = SzReader.r rd
            /\ SzReader.totalCompressedDataSize rd' = SzReader.totalCompressedDataSize rd
            /\ SzReader.totalUncompressedDataSize rd' = SzReader.totalUncompressedDataSize rd
            /\ entries (SzReader.seekTable rd') = entries (SzReader.seekTable rd)
            /\ (err <> None ->
                n = 0
                /\ SzReader.offset rd' = SzReader.offset rd
                /\ SzReader.currentFrameIndex rd' = SzReader.currentFrameIndex rd
                /\ SzReader.currentFrameLoaded rd' = SzReader.currentFrameLoaded rd
                /\ SzReader.currentFrameReaded rd' = SzReader.currentFrameReaded rd)).
  { intros z. unfold SzReader.moveTo.
    destruct (SzReader.totalUncompressedDataSize rd <? z).
    { intros [= <- <- <-]. repeat split; reflexivity. }
    unfold Find.
    destruct (CacheOffsets (SzReader.seekTable rd)) as [t'| |] eqn:Ec;
      cbn [bind]; try discriminate.
    assert (Hent : entries t' = entries (SzReader.seekTable rd)).
    { unfold CacheOffsets in Ec. destruct (cached (SzReader.seekTable rd)).
      - injection Ec as <-. reflexivity.
      - destruct (computeOffsets (SzReader.seekTable rd)); cbn [bind] in Ec;
          try discriminate.
        injection Ec as <-. reflexivity. }
    destruct (if len (cachedOffsets t') <? 32 then _ else _) as [[to found]| |];
      cbn [bind fst snd]; try discriminate.
    destruct found; cbn [negb].
    - intros [= <- <- <-]. cbn. repeat split; try assumption; congruence.
    - intros [= <- <- <-]. cbn. repeat split; assumption. }
  unfold SzReader.Seek.
  destruct (whence =? SeekStart).
  { destruct (off <? 0); [|apply Hmove].
    intros [= <- <- <-]. repeat split; reflexivity. }
  destruct (whence =? SeekCurrent).
  { destruct (off =? 0).
    { intros [= <- <- <-]. repeat split; try reflexivity; congruence. }
    destruct ((off <? 0) && _); [|apply Hmove].
    intros [= <- <- <-]. repeat split; reflexivity. }
  destruct (whence =? SeekEnd).
  { destruct ((off <? 0) && _); [|apply Hmove].
    intros [= <- <- <-]. repeat split; reflexivity. }
  intros [= <- <- <-]. repeat split; reflexivity.
Qed.

Lemma Seek_frame_witness :
  exists rd',
    SzReader.Seek exampleReader 17 SeekStart
    = Done (rd', (0, Some (New "offset beyond end of data")))
    /\ SzReader.offset rd' = SzReader.offset exampleReader
    /\ SzReader.currentFrameIndex rd' = SzReader.currentFrameIndex exampleReader.
Proof.
  exists exampleReader.
  assert (E : SzReader.Seek exampleReader 17 SeekStart
              = Done (exampleReader, (0, Some (New "offset beyond end of data"))))
    by (vm_compute; reflexivity).
  split; [exact E|].
  destruct (Seek_frame exampleReader exampleReader 17 SeekStart 0
              (Some (New "offset beyond end of data")) E) as [_ [_ [_ [_ Hk]]]].
  destruct (Hk ltac:(discriminate)) as [_ [Ho [Hi _]]].
  split; assumption.
Defined.

(* ------------------------------------------------------------------ *)
(** ** The stream a writer leaves in a buffer *)

Lemma u32_idem (z : Z) : u32 (u32 z) = u32 z.
Proof. apply u32_small. apply u32_range. Qed.

Lemma framesOf_aux_full (F : Z) (fs : list (list byte)) (fb : list byte) :
  1 <= F -> Forall (fun fr => len fr = F) fs -> len fb < F ->
  forall fuel : nat,
    (length fs + (if (len fb =? 0)%Z then 0 else 1) <= fuel)%nat ->
    framesOf_aux fuel F (concat fs ++ fb)
    = fs ++ (if len fb =? 0 then [] else [fb]).
Proof.
  intros HF Hfs Hfb. induction Hfs as [|fr fs Hfr Hfs IH]; intros fuel Hfuel.
  - cbn [concat app length] in *.
    destruct fb as [|b fb].
    + destruct fuel; reflexivity.
    + change (len (b :: fb) =? 0) with false in *. cbv iota in *.
      destruct fuel as [|fuel]; [lia|].
      cbn [framesOf_aux].
      rewrite firstn_all2 by (unfold len in *; lia).
      rewrite skipn_all2 by (unfold len in *; lia).
      destruct fuel; reflexivity.
  - cbn [concat length] in *. destruct fuel as [|fuel]; [lia|].
    cbn [framesOf_aux]. rewrite <- app_assoc.
    assert (Hn : length fr = Z.to_nat F) by (unfold len in *; lia).
    destruct (fr ++ concat fs ++ fb) as [|b rest] eqn:E.
    { destruct fr; [unfold len in *; cbn in *; lia|discriminate]. }
    rewrite <- E.
    rewrite firstn_app, Hn, Nat.sub_diag, firstn_O, app_nil_r.
    rewrite firstn_all2 by lia.
    rewrite skipn_app, Hn, Nat.sub_diag, skipn_O.
    rewrite skipn_all2 by lia. cbn [app].
    rewrite IH by lia. reflexivity.
Qed.

Lemma framesOf_full (F : Z) (fs : list (list byte)) (fb : list byte) :
  1 <= F -> Forall (fun fr => len fr = F) fs -> len fb < F ->
  framesOf F (concat fs ++ fb) = fs ++ (if len fb =? 0 then [] else [fb]).
Proof.
  intros HF Hfs Hfb. unfold framesOf.
  apply framesOf_aux_full; try assumption.
  rewrite length_app.
  assert (Hc : (length fs <= length (concat fs))%nat).
  { clear Hfb. induction Hfs as [|fr fs Hfr Hfs IH]; cbn [concat length]; [lia|].
    rewrite length_app. unfold len in *. lia. }
  destruct fb; cbn [length].
  - change (len (@nil byte) =? 0) with true. cbv iota. lia.
  - change (len (b :: fb) =? 0) with false. cbv iota. lia.
Qed.

Section WriterStream.
Variable EncodeAll : list byte -> list byte.
Variable F : Z.
Variable pre : list byte.
Hypothesis HF : 1 <= F < 4294967296.

Lemma StreamInv_frame (sink : Buffer) (fb enc : list byte) (tbl : Table)
      (c : SzWriter.writer Buffer) (fs : list (list byte)) (fr : list byte) :
  StreamInv EncodeAll F pre c fs ->
  len fr = F -> len fb < F ->
  sink = mkBuffer (buf_bytes (SzWriter.w c) ++ EncodeAll fr) ->
  AppendEntry (SzWriter.seekTable c)
    (mkEntry (u32 (len (EncodeAll fr))) (u32 (len fr))) = Done tbl ->
  StreamInv EncodeAll F pre (SzWriter.mkWriter sink F fb enc tbl false) (fs ++ [fr]).
Proof.
  intros [HFs [Hcl [Hfb0 [Hfs [Hb [Hes [Hwf Hca]]]]]]] Hfr Hfb -> Ha.
  unfold StreamInv.
  cbn [SzWriter.frameSize SzWriter.isClosed SzWriter.frameBuffer SzWriter.w
       SzWriter.seekTable buf_bytes].
  repeat split; try assumption.
  - apply Forall_app. split; [exact Hfs|]. constructor; [exact Hfr|constructor].
  - rewrite Hb, map_app, concat_app. cbn [map concat].
    rewrite app_nil_r, app_assoc. reflexivity.
  - rewrite (table_entries_AppendEntry _ _ _ Ha), Hes, map_app.
    cbn [map CompressedSize DecompressedSize]. rewrite !u32_idem. reflexivity.
  - exact (wfTable_AppendEntry _ _ _ Hwf Ha).
  - rewrite AppendEntry_eq in Ha. injection Ha as <-. exact Hca.
Qed.

Lemma Write_loop_stream (fuel : nat) :
  forall (c : SzWriter.writer Buffer) (data : list byte) (n : Z)
         (fs : list (list byte)),
  StreamInv EncodeAll F pre c fs -> len data <= Z.of_nat fuel ->
  exists c' fs' n',
    SzWriter.Write_loop EncodeAll fuel c data n = Done (c', (n', None))
    /\ StreamInv EncodeAll F pre c' fs'
    /\ concat fs' ++ SzWriter.frameBuffer c'
       = (concat fs ++ SzWriter.frameBuffer c) ++ data.
Proof.
  induction fuel as [|fuel IH]; intros c data n fs Hinv Hfuel.
  - assert (Hd : data = []).
    { destruct data; [reflexivity|]. unfold len in Hfuel. cbn in Hfuel. lia. }
    subst data. exists c, fs, n. split; [reflexivity|].
    split; [exact Hinv|]. rewrite app_nil_r. reflexivity.
  - pose proof Hinv as [HFs [Hcl [Hfb [Hfs [Hb [Hes [Hwf Hca]]]]]]].
    pose proof (len_nonneg (SzWriter.frameBuffer c)) as Hfb0.
    pose proof (len_nonneg data) as Hd0.
    cbn [SzWriter.Write_loop].
    destruct (0 <? len data) eqn:Ed.
    2:{ assert (Hd : data = []).
        { destruct data; [reflexivity|]. unfold len in Ed. cbn in Ed. lia. }
        subst data. exists c, fs, n. split; [reflexivity|].
        split; [exact Hinv|]. rewrite app_nil_r. reflexivity. }
    rewrite HFs.
    destruct ((len (SzWriter.frameBuffer c) =? 0) && (F <=? len data)) eqn:Efast.
    + (* fast path *)
      apply andb_prop in Efast as [E1 E2].
      assert (Hnil : SzWriter.frameBuffer c = []).
      { destruct (SzWriter.frameBuffer c); [reflexivity|].
        unfold len in E1. cbn in E1. lia. }
      rewrite slice_prefix by lia. rewrite slice_suffix by lia. cbn [bind].
      set (toEncode := firstn (Z.to_nat F) data).
      assert (Hte : len toEncode = F).
      { subst toEncode. unfold len in *. rewrite length_firstn. lia. }
      cbn [io_Write Buffer_Writer].
      rewrite AppendEntry_eq. cbn [bind]. rewrite Hcl.
      edestruct (IH (SzWriter.mkWriter
                       (mkBuffer (buf_bytes (SzWriter.w c) ++ EncodeAll toEncode)) F
                       (SzWriter.frameBuffer c) (EncodeAll toEncode)
                       (mkTable (appended (entries (SzWriter.seekTable c))
                                   (mkEntry (u32 (len (EncodeAll toEncode)))
                                            (u32 (len toEncode))))
                                (cached (SzWriter.seekTable c))
                                (cachedOffsets (SzWriter.seekTable c)))
                       false)
                    (skipn (Z.to_nat F) data) (n + len (EncodeAll toEncode))
                    (fs ++ [toEncode]))
        as [c' [fs' [n' [Hrun [Hinv' Hcat]]]]].
      { apply (StreamInv_frame _ _ _ _ c); try assumption; try reflexivity.
        apply AppendEntry_eq. }
      { unfold len in *. rewrite length_skipn. lia. }
      exists c', fs', n'. split; [exact Hrun|]. split; [exact Hinv'|].
      rewrite Hcat. cbn [SzWriter.frameBuffer]. rewrite Hnil, !app_nil_r.
      rewrite concat_app. cbn [concat]. rewrite app_nil_r, <- app_assoc.
      subst toEncode. rewrite firstn_skipn. reflexivity.
    + (* fill frame buffer *)
      set (toWrite := Z.min (len data) (F - len (SzWriter.frameBuffer c))).
      assert (Htw : 1 <= toWrite <= len data) by lia.
      rewrite slice_prefix by lia. rewrite slice_suffix by lia. cbn [bind].
      set (chunk := firstn (Z.to_nat toWrite) data).
      assert (Hch : len chunk = toWrite).
      { subst chunk. unfold len in *. rewrite length_firstn. lia. }
      assert (Hrest : len (skipn (Z.to_nat toWrite) data) = len data - toWrite).
      { unfold len in *. rewrite length_skipn. lia. }
      rewrite len_app, Hch.
      destruct (len (SzWriter.frameBuffer c) + toWrite =? F) eqn:Efull.
      * cbn [io_Write Buffer_Writer].
        rewrite AppendEntry_eq. cbn [bind]. rewrite Hcl.
        set (fr := SzWriter.frameBuffer c ++ chunk).
        edestruct (IH (SzWriter.mkWriter
                         (mkBuffer (buf_bytes (SzWriter.w c) ++ EncodeAll fr)) F []
                         (EncodeAll fr)
                         (mkTable (appended (entries (SzWriter.seekTable c))
                                     (mkEntry (u32 (len (EncodeAll fr)))
                                              (u32 (len fr))))
                                  (cached (SzWriter.seekTable c))
                                  (cachedOffsets (SzWriter.seekTable c)))
                         false)
                      (skipn (Z.to_nat toWrite) data) (n + toWrite)
                      (fs ++ [fr]))
          as [c' [fs' [n' [Hrun [Hinv' Hcat]]]]].
        { apply (StreamInv_frame _ _ _ _ c); try assumption; try reflexivity.
          - subst fr. rewrite len_app, Hch. lia.
          - change (len (@nil byte)) with 0. lia.
          - apply AppendEntry_eq. }
        { lia. }
        assert (Hlfr : len fr = len (SzWriter.frameBuffer c) + toWrite)
          by (subst fr; rewrite len_app, Hch; reflexivity).
        rewrite Hlfr in Hrun.
        exists c', fs', n'. split; [exact Hrun|]. split; [exact Hinv'|].
        rewrite Hcat. cbn [SzWriter.frameBuffer]. rewrite app_nil_r.
        rewrite concat_app. cbn [concat]. rewrite app_nil_r.
        subst fr chunk. rewrite <- !app_assoc. rewrite firstn_skipn. reflexivity.
      * edestruct (IH (SzWriter.mkWriter (SzWriter.w c) F
                         (SzWriter.frameBuffer c ++ chunk) (SzWriter.encoderBuffer c)
                         (SzWriter.seekTable c) (SzWriter.isClosed c))
                      (skipn (Z.to_nat toWrite) data) (n + toWrite) fs)
          as [c' [fs' [n' [Hrun [Hinv' Hcat]]]]].
        { unfold StreamInv. cbn [SzWriter.frameSize SzWriter.isClosed
            SzWriter.frameBuffer SzWriter.w SzWriter.seekTable].
          repeat split; try assumption. rewrite len_app, Hch. lia. }
        { lia. }
        exists c', fs', n'. split; [exact Hrun|]. split; [exact Hinv'|].
        rewrite Hcat. cbn [SzWriter.frameBuffer].
        subst chunk. rewrite <- !app_assoc. rewrite firstn_skipn. reflexivity.
Qed.

Lemma WriteAll_stream (chunks : list (list byte)) :
  forall (c : SzWriter.writer Buffer) (fs : list (list byte)),
  StreamInv EncodeAll F pre c fs ->
  exists c' fs',
    SzWriter.WriteAll EncodeAll c chunks = Done (Ok c')
    /\ StreamInv EncodeAll F pre c' fs'
    /\ concat fs' ++ SzWriter.frameBuffer c'
       = (concat fs ++ SzWriter.frameBuffer c) ++ concat chunks.
Proof.
  induction chunks as [|data rest IH]; intros c fs Hinv.
  - exists c, fs. split; [reflexivity|]. split; [exact Hinv|].
    cbn [concat]. rewrite app_nil_r. reflexivity.
  - cbn [SzWriter.WriteAll concat]. unfold SzWriter.Write.
    destruct (Write_loop_stream (S (2 * length data)) c data 0 fs Hinv)
      as [c' [fs' [n' [Hrun [Hinv' Hcat]]]]].
    { unfold len. lia. }
    rewrite Hrun. cbn [bind fst snd].
    destruct (IH c' fs' Hinv') as [c'' [fs'' [Hrun' [Hinv'' Hcat']]]].
    exists c'', fs''. split; [exact Hrun'|]. split; [exact Hinv''|].
    rewrite Hcat', Hcat, <- !app_assoc. reflexivity.
Qed.

Lemma Close_stream (c : SzWriter.writer Buffer) (fs : list (list byte)) :
  StreamInv EncodeAll F pre c fs ->
  exists c2,
    SzWriter.Close EncodeAll c = Done (c2, None)
    /\ buf_bytes (SzWriter.w c2)
       = pre ++ concat (map EncodeAll (framesOf F (concat fs ++ SzWriter.frameBuffer c)))
             ++ serialized (SzWriter.seekTable c2)
    /\ table_entries (SzWriter.seekTable c2)
       = map (entryOfFrame EncodeAll) (framesOf F (concat fs ++ SzWriter.frameBuffer c))
    /\ wfTable (SzWriter.seekTable c2)
    /\ cached (SzWriter.seekTable c2) = false.
Proof.
  intros [HFs [Hcl [Hfb [Hfs [Hb [Hes [Hwf Hca]]]]]]].
  pose proof (len_nonneg (SzWriter.frameBuffer c)) as Hfb0.
  rewrite (framesOf_full F fs (SzWriter.frameBuffer c)) by (try assumption; lia).
  unfold SzWriter.Close. rewrite Hcl.
  cbn [SzWriter.frameBuffer SzWriter.w SzWriter.seekTable SzWriter.frameSize
       SzWriter.encoderBuffer].
  destruct (0 <? len (SzWriter.frameBuffer c)) eqn:Efb.
  - destruct (len (SzWriter.frameBuffer c) =? 0) eqn:Ez; [lia|].
    cbn [io_Write Buffer_Writer].
    rewrite AppendEntry_eq. cbn [bind fst snd SzWriter.seekTable SzWriter.w].
    rewrite WriteTable_Buffer. cbn [buf_bytes].
    eexists. split; [reflexivity|].
    cbn [SzWriter.w SzWriter.seekTable buf_bytes].
    set (fr := SzWriter.frameBuffer c).
    set (tbl := mkTable _ _ _).
    assert (Ha : AppendEntry (SzWriter.seekTable c)
                   (mkEntry (u32 (len (EncodeAll fr))) (u32 (len fr))) = Done tbl)
      by apply AppendEntry_eq.
    repeat split.
    + rewrite Hb, map_app, concat_app. cbn [map concat].
      rewrite app_nil_r, <- !app_assoc. reflexivity.
    + rewrite (table_entries_AppendEntry _ _ _ Ha), Hes, map_app.
      cbn [map CompressedSize DecompressedSize]. rewrite !u32_idem. reflexivity.
    + exact (wfTable_AppendEntry _ _ _ Hwf Ha).
    + exact Hca.
  - destruct (len (SzWriter.frameBuffer c) =? 0) eqn:Ez; [|lia].
    cbn [bind fst snd SzWriter.seekTable SzWriter.w].
    rewrite WriteTable_Buffer.
    eexists. split; [reflexivity|].
    cbn [SzWriter.w SzWriter.seekTable buf_bytes].
    rewrite app_nil_r. repeat split; try assumption.
    rewrite Hb, <- app_assoc. reflexivity.
Qed.

Lemma NewWriter_stream :
  StreamInv EncodeAll F pre (SzWriter.mkWriter (mkBuffer pre) F [] [] emptyTable false) [].
Proof.
  unfold StreamInv. cbn. repeat split; try reflexivity; try lia.
  - constructor.
  - rewrite app_nil_r. reflexivity.
Qed.
End WriterStream.

(** X13. The stream a writer leaves in a buffer. For a frame size
    [1 <= F < 2^32] and a buffer that holds [pre], every [Write] of a
    sequence and the [Close] after it return a nil error, and the buffer
    then holds [pre], the frames of the input of [F] bytes each (the last
    one shorter) encoded one after the other, and the serialized table,
    whose entries are the sizes of each encoded frame and of the frame.
    The result depends on the concatenation of the inputs only, not on how
    they were split over the calls. *)
Theorem Write_Close_stream (EncodeAll : list byte -> list byte) (F : Z)
        (pre : list byte) (chunks : list (list byte)) :
  1 <= F < 4294967296 ->
  exists c0 c1 c2,
    SzWriter.NewWriter (mkBuffer pre) F None = Done (Ok c0)
    /\ SzWriter.WriteAll EncodeAll c0 chunks = Done (Ok c1)
    /\ SzWriter.Close EncodeAll c1 = Done (c2, None)
    /\ buf_bytes (SzWriter.w c2)
       = pre ++ concat (map EncodeAll (framesOf F (concat chunks)))
             ++ serialized (SzWriter.seekTable c2)
    /\ table_entries (SzWriter.seekTable c2)
       = map (entryOfFrame EncodeAll) (framesOf F (concat chunks))
    /\ wfTable (SzWriter.seekTable c2).
Proof.
  intros HF.
  exists (SzWriter.mkWriter (mkBuffer pre) F [] [] emptyTable false).
  destruct (WriteAll_stream EncodeAll F pre HF chunks _ []
              (NewWriter_stream EncodeAll F pre HF))
    as [c1 [fs [Hrun [Hinv Hcat]]]].
  destruct (Close_stream EncodeAll F pre HF c1 fs Hinv)
    as [c2 [Hc [Hbytes [Hes [Hwf _]]]]].
  exists c1, c2.
  split.
  { unfold SzWriter.NewWriter. destruct (F <? 0) eqn:E; [lia|reflexivity]. }
  split; [exact Hrun|]. split; [exact Hc|].
  cbn [concat app SzWriter.frameBuffer] in Hcat. rewrite Hcat in Hbytes, Hes.
  repeat split; assumption.
Qed.

Lemma Write_Close_stream_witness :
  exists c0 c1 c2,
    SzWriter.NewWriter (mkBuffer [xff]) 2 None = Done (Ok c0)
    /\ SzWriter.WriteAll framedAll c0 [[x01]; [x02; x03; x04]; []; [x05]] = Done (Ok c1)
    /\ SzWriter.Close framedAll c1 = Done (c2, None)
    /\ buf_bytes (SzWriter.w c2)
       = [xff] ++ concat (map framedAll (framesOf 2 [x01; x02; x03; x04; x05]))
               ++ serialized (SzWriter.seekTable c2)
    /\ table_entries (SzWriter.seekTable c2)
       = map (entryOfFrame framedAll) (framesOf 2 [x01; x02; x03; x04; x05])
    /\ wfTable (SzWriter.seekTable c2).
Proof.
  apply (Write_Close_stream framedAll 2 [xff] [[x01]; [x02; x03; x04]; []; [x05]]).
  lia.
Defined.

(* ------------------------------------------------------------------ *)
(** ** [NewReadSeeker] over a stream that ends with a table *)

Lemma BytesReader_Seek_bytes (r : BytesReader) (o w : Z) :
  rd_s (fst (BytesReader_Seek r o w)) = rd_s r.
Proof.
  unfold BytesReader_Seek.
  destruct ((w =? SeekStart) || (w =? SeekCurrent) || (w =? SeekEnd)); [|reflexivity].
  match goal with |- context [if ?c then _ else _] => destruct c end; reflexivity.
Qed.

Lemma BytesReader_ReadFull_bytes (r : BytesReader) (n : Z) :
  rd_s (fst (BytesReader_ReadFull r n)) = rd_s r.
Proof.
  unfold BytesReader_ReadFull.
  destruct (n <=? 0); [reflexivity|].
  destruct (len (rd_s r) <=? rd_i r); [reflexivity|].
  match goal with |- context [if ?c then _ else _] => destruct c end; reflexivity.
Qed.

(** Reading a table moves the position of a [bytes.Reader], never its bytes. *)
Lemma ReadTable_bytes (r rd : BytesReader) (res : res Table) :
  ReadTableFromReadSeeker r = Done (rd, res) -> rd_s rd = rd_s r.
Proof.
  unfold ReadTableFromReadSeeker. cbn [io_Seek io_ReadFull BytesReader_ReadSeeker].
  pose proof (BytesReader_Seek_bytes r (-9) SeekEnd) as H1.
  destruct (BytesReader_Seek r (-9) SeekEnd) as [d1 [n1 e1]]. cbn [fst] in H1.
  destruct e1 as [e1|]; [intros [= <- _]; exact H1|].
  pose proof (BytesReader_ReadFull_bytes d1 9) as H2.
  destruct (BytesReader_ReadFull d1 9) as [d2 [footer e2]]. cbn [fst] in H2.
  destruct e2 as [e2|]; [intros [= <- _]; congruence|].
  destruct (negb (Uint32 (skipn 5 footer) =? footerMagicNumber));
    [intros [= <- _]; congruence|].
  match goal with |- context [BytesReader_Seek d2 ?o SeekEnd] =>
    pose proof (BytesReader_Seek_bytes d2 o SeekEnd) as H3;
    destruct (BytesReader_Seek d2 o SeekEnd) as [d3 [n3 e3]] end.
  cbn [fst] in H3.
  destruct e3 as [e3|]; [intros [= <- _]; congruence|].
  pose proof (BytesReader_ReadFull_bytes d3 8) as H4.
  destruct (BytesReader_ReadFull d3 8) as [d4 [header e4]]. cbn [fst] in H4.
  destruct e4 as [e4|]; [intros [= <- _]; congruence|].
  destruct (negb (Uint32 (firstn 4 header) =? headerMagicNumber));
    [intros [= <- _]; congruence|].
  destruct (negb (Uint32 (skipn 4 header) =? _)); [intros [= <- _]; congruence|].
  match goal with |- context [BytesReader_ReadFull d4 ?k] =>
    pose proof (BytesReader_ReadFull_bytes d4 k) as H5;
    destruct (BytesReader_ReadFull d4 k) as [d5 [entriesData e5]] end.
  cbn [fst] in H5.
  destruct e5 as [e5|]; [intros [= <- _]; congruence|].
  destruct (emptyCheck_loop _ _ _ _) as [[e6|]| |]; cbn [bind]; try discriminate;
    intros [= <- _]; congruence.
Qed.

Lemma total_last_compressed (t : Table) :
  0 < NumEntries t ->
  EntryOffsetInCompressed (offsetAt t (NumEntries t - 1))
  + CompressedSize (entryAt t (NumEntries t - 1))
  = totalCompressedSize t.
Proof.
  intros Hn. pose proof (table_entries_length t) as Hl. unfold len in Hl.
  unfold offsetAt, entryAt, totalCompressedSize.
  cbn [EntryOffsetInCompressed].
  rewrite <- sumC_step by lia.
  rewrite firstn_all2 by lia. reflexivity.
Qed.

(** [NewReadSeeker] over [pre ++ serialized t]: the table is read, its
    offsets are cached, and the bytes before the table are compared with
    the sum of the compressed sizes. *)
Lemma NewReadSeeker_serialized (t : Table) (pre : list byte) :
  wfTable t -> 0 < NumEntries t -> NumEntries t * 8 + 17 < 4294967296 ->
  CompressedSize (entryAt t 0) <> 0 ->
  len (pre ++ serialized t) < 9223372036854775808 ->
  let s := pre ++ serialized t in
  SzReader.NewReadSeeker (NewReader s) None
  = Done (mkBytesReader s (len s),
          if len pre <? totalCompressedSize t
          then Err (New "seek table last entry size mismatch")
          else Ok (SzReader.mkReader (mkBytesReader s (len s))
                     (mkTable (entries t) true (offsetsOf t))
                     0 (len pre) (totalDecompressedSize t) 0 false 0)).
Proof.
  intros Hwf Hpos Hsz Hc0 Hlen s.
  pose proof (NumEntries_bounds t) as Hn.
  destruct (ReadTable_serialized t pre Hwf Hsz) as [rd Hrd].
  fold s in Hrd.
  assert (Hchk : (0 <? NumEntries t) && (CompressedSize (entryAt t 0) =? 0) = false).
  { apply andb_false_iff. right. apply Z.eqb_neq. exact Hc0. }
  rewrite Hchk in Hrd.
  pose proof (ReadTable_bytes _ _ _ Hrd) as Hs. cbn [NewReader rd_s] in Hs.
  set (tbl := mkTable (entries t) false []) in *.
  assert (Hent : entries tbl = entries t) by reflexivity.
  assert (Hes : table_entries tbl = table_entries t)
    by (apply table_entries_ext; exact Hent).
  assert (Hlt : len (entries t) < 4294967296) by (unfold wfTable in Hwf; lia).
  pose proof (fits64_small tbl Hlt) as Hfit.
  pose proof (fits64_small t Hlt) as Hfit0.
  unfold SzReader.NewReadSeeker. rewrite Hrd. cbn [bind fst snd].
  unfold OffsetsByIndex.
  rewrite (CacheOffsets_fresh tbl (or_introl eq_refl) Hfit). cbn [bind cachedOffsets].
  rewrite (offsetsOf_ext tbl t Hent).
  set (t' := mkTable (entries tbl) true (offsetsOf t)).
  change (NumEntries tbl) with (NumEntries t).
  assert (Hit : item (offsetsOf t) (NumEntries t - 1)
                = Done (offsetAt t (NumEntries t - 1))).
  { pose proof (cached_item t' (offsetsOf_ext t' t eq_refl)
                  (Z.to_nat (NumEntries t - 1))) as Hci.
    cbn [cachedOffsets t'] in Hci.
    replace (Z.of_nat (Z.to_nat (NumEntries t - 1))) with (NumEntries t - 1) in Hci by lia.
    rewrite Hci by (change (NumEntries t') with (NumEntries t); lia).
    unfold offsetAt. rewrite (table_entries_ext t' t eq_refl). reflexivity. }
  rewrite Hit. cbn [bind fst snd].
  change (NumEntries t') with (NumEntries t).
  rewrite (GetEntry_in_range t') by (change (NumEntries t') with (NumEntries t); lia).
  cbn [bind].
  replace (entryAt t' (NumEntries t - 1)) with (entryAt t (NumEntries t - 1))
    by (unfold entryAt; rewrite (table_entries_ext t' t eq_refl); reflexivity).
  destruct rd as [s0 i0]. cbn [rd_s] in Hs. subst s0.
  cbn [io_Seek BytesReader_ReadSeeker].
  unfold BytesReader_Seek at 1. cbn [rd_s rd_i]. unfold SeekStart, SeekCurrent, SeekEnd.
  cbn [Z.eqb orb Z.ltb Z.compare].
  unfold BytesReader_Seek. cbn [rd_s rd_i]. unfold SeekStart, SeekCurrent, SeekEnd.
  cbn [Z.eqb Pos.eqb orb]. rewrite Z.add_0_r.
  pose proof (len_nonneg s) as Hs0.
  destruct (len s <? 0) eqn:En; [lia|].
  pose proof (total_last t Hpos) as Htl.
  pose proof (total_last_compressed t Hpos) as Htc.
  rewrite Htl, Htc.
  destruct Hfit0 as [HfC HfD].
  pose proof (sumC_nonneg _ (table_entries_in_range t)) as HC0.
  pose proof (sumD_nonneg _ (table_entries_in_range t)) as HD0.
  fold (totalCompressedSize t) in HC0. fold (totalDecompressedSize t) in HD0.
  rewrite (u64_small (totalCompressedSize t)) by lia.
  rewrite (u64_small (totalDecompressedSize t)) by lia.
  assert (Hsize : Size t' = Size t) by reflexivity.
  rewrite Hsize.
  assert (Hls : len s = len pre + Size t).
  { subst s. rewrite len_app, serialized_length. reflexivity. }
  pose proof (len_nonneg pre) as Hp0.
  assert (HSz : 17 <= Size t) by (rewrite (wfTable_Size t Hwf); lia).
  change (len s < 9223372036854775808) in Hlen.
  rewrite (u64_small (len s)) by lia.
  rewrite (u64_small (Size t)) by lia.
  replace (len s - Size t) with (len pre) by lia.
  rewrite (u64_small (len pre)) by lia.
  destruct (0 <? NumEntries t) eqn:Ep; [|lia]. cbn [andb].
  destruct (len pre <? totalCompressedSize t); reflexivity.
Qed.

(** X14. The consistency check of [NewReadSeeker]. Over a stream made of
    [pre] and a well-formed, non-empty table of fewer than [2^32] bytes
    whose first entry is not empty, the reader is built exactly when [pre]
    is at least as long as the sum of the compressed sizes; it then starts
    at offset 0 in frame 0, with the length of [pre] as the compressed
    total and the sum of the decompressed sizes as the uncompressed total.
    A shorter [pre] is refused with the last-entry size mismatch. *)
Theorem NewReadSeeker_size_check (t : Table) (pre : list byte) :
  wfTable t -> 0 < NumEntries t -> NumEntries t * 8 + 17 < 4294967296 ->
  CompressedSize (entryAt t 0) <> 0 ->
  len (pre ++ serialized t) < 9223372036854775808 ->
  exists src,
    (totalCompressedSize t <= len pre ->
     exists rd,
       SzReader.NewReadSeeker (NewReader (pre ++ serialized t)) None
       = Done (src, Ok rd)
       /\ entries (SzReader.seekTable rd) = entries t
       /\ SzReader.offset rd = 0
       /\ SzReader.currentFrameIndex rd = 0
       /\ SzReader.currentFrameLoaded rd = false
       /\ SzReader.totalCompressedDataSize rd = len pre
       /\ SzReader.totalUncompressedDataSize rd = totalDecompressedSize t)
    /\ (len pre < totalCompressedSize t ->
        SzReader.NewReadSeeker (NewReader (pre ++ serialized t)) None
        = Done (src, Err (New "seek table last entry size mismatch"))).
Proof.
  intros Hwf Hpos Hsz Hc0 Hlen.
  pose proof (NewReadSeeker_serialized t pre Hwf Hpos Hsz Hc0 Hlen) as Hnew.
  cbv zeta in Hnew.
  eexists. split.
  - intros Hle. destruct (len pre <? totalCompressedSize t) eqn:E; [lia|].
    eexists. split; [exact Hnew|]. cbn. repeat split; reflexivity.
  - intros Hlt. destruct (len pre <? totalCompressedSize t) eqn:E; [|lia].
    exact Hnew.
Qed.

Lemma NewReadSeeker_size_check_witness :
  exists src,
    (totalCompressedSize exampleTable <= len [x01; x02; x03; x04; x05; x06; x07; x08] ->
     exists rd,
       SzReader.NewReadSeeker (NewReader exampleStream) None = Done (src, Ok rd)
       /\ entries (SzReader.seekTable rd) = entries exampleTable
       /\ SzReader.offset rd = 0
       /\ SzReader.currentFrameIndex rd = 0
       /\ SzReader.currentFrameLoaded rd = false
       /\ SzReader.totalCompressedDataSize rd = 8
       /\ SzReader.totalUncompressedDataSize rd = totalDecompressedSize exampleTable)
    /\ (len [x01; x02; x03; x04; x05; x06; x07; x08] < totalCompressedSize exampleTable ->
        SzReader.NewReadSeeker (NewReader exampleStream) None
        = Done (src, Err (New "seek table last entry size mismatch"))).
Proof.
  apply (NewReadSeeker_size_check exampleTable [x01; x02; x03; x04; x05; x06; x07; x08]).
  - reflexivity.
  - reflexivity.
  - reflexivity.
  - vm_compute. discriminate.
  - reflexivity.
Defined.

(* ------------------------------------------------------------------ *)
(** ** [Read] over a stream that stores its frames *)

Lemma concat_firstn_S (frames : list (list byte)) (i : nat) :
  (i < length frames)%nat ->
  concat (firstn (S i) frames) = concat (firstn i frames) ++ nth i frames [].
Proof.
  revert i. induction frames as [|fr frames IH]; intros i Hi; cbn in Hi; [lia|].
  destruct i as [|i].
  - cbn [firstn concat nth]. rewrite app_nil_r. reflexivity.
  - change (firstn (S (S i)) (fr :: frames)) with (fr :: firstn (S i) frames).
    change (firstn (S i) (fr :: frames)) with (fr :: firstn i frames).
    cbn [concat nth]. rewrite IH by lia. rewrite app_assoc. reflexivity.
Qed.

Lemma concat_split_at (frames : list (list byte)) (i : nat) :
  (i < length frames)%nat ->
  concat frames
  = concat (firstn i frames) ++ nth i frames [] ++ concat (skipn (S i) frames).
Proof.
  revert i. induction frames as [|fr frames IH]; intros i Hi; cbn in Hi; [lia|].
  destruct i as [|i].
  - reflexivity.
  - change (firstn (S i) (fr :: frames)) with (fr :: firstn i frames).
    change (skipn (S (S i)) (fr :: frames)) with (skipn (S i) frames).
    cbn [concat nth]. rewrite (IH i) at 1 by lia.
    rewrite <- app_assoc. reflexivity.
Qed.

(** A piece of frame [i] is the piece of the whole data at the same
    distance from the start. *)
Lemma frame_segment (frames : list (list byte)) (i : nat) (a k : Z) :
  (i < length frames)%nat -> 0 <= a -> 0 <= k -> a + k <= len (nth i frames []) ->
  firstn (Z.to_nat k) (skipn (Z.to_nat a) (nth i frames []))
  = firstn (Z.to_nat k)
      (skipn (Z.to_nat (len (concat (firstn i frames)) + a)) (concat frames)).
Proof.
  intros Hi Ha Hk Hak.
  rewrite (concat_split_at frames i Hi).
  replace (Z.to_nat (len (concat (firstn i frames)) + a))
    with (length (concat (firstn i frames)) + Z.to_nat a)%nat by (unfold len; lia).
  rewrite skipn_app.
  rewrite (skipn_all2 (concat (firstn i frames))) by lia.
  cbn [app].
  replace (length (concat (firstn i frames)) + Z.to_nat a
           - length (concat (firstn i frames)))%nat with (Z.to_nat a) by lia.
  rewrite skipn_app, firstn_app.
  replace (Z.to_nat k - length (skipn (Z.to_nat a) (nth i frames [])))%nat with 0%nat
    by (rewrite length_skipn; unfold len in *; lia).
  rewrite firstn_O, app_nil_r. reflexivity.
Qed.

Lemma Find_cached_frame (t : Table) (i : nat) (a : Z) :
  len (entries t) < 4294967296 ->
  (i < Z.to_nat (NumEntries t))%nat ->
  0 <= a < DecompressedSize (entryAt t (Z.of_nat i)) ->
  Find (mkTable (entries t) true (offsetsOf t))
       (sumD (firstn i (table_entries t)) + a)
  = Done (mkTable (entries t) true (offsetsOf t), (offsetAt t (Z.of_nat i), true)).
Proof.
  intros Hlen Hi Ha.
  set (tbl := mkTable (entries t) true (offsetsOf t)).
  set (o := sumD (firstn i (table_entries t)) + a).
  pose proof (fits64_small t Hlen) as Hfit.
  pose proof (table_entries_in_range t) as Hr.
  pose proof (table_entries_length t) as Hl. unfold len in Hl.
  assert (Hes : table_entries tbl = table_entries t)
    by (apply table_entries_ext; reflexivity).
  assert (Hstep : sumD (firstn (S i) (table_entries t))
                  = sumD (firstn i (table_entries t))
                    + DecompressedSize (entryAt t (Z.of_nat i))).
  { rewrite sumD_step by lia. unfold entryAt. rewrite Nat2Z.id. reflexivity. }
  assert (Ho0 : 0 <= o).
  { pose proof (sumD_nonneg _ (Forall_firstn_range (table_entries t) i Hr)).
    subst o. lia. }
  assert (Hot : o < totalDecompressedSize t).
  { pose proof (sumD_firstn_le (table_entries t) (S i) Hr).
    unfold totalDecompressedSize. subst o. lia. }
  destruct (Find_frame tbl o (fresh_cached t Hfit)
              (fits64_ext t tbl eq_refl Hfit) Ho0)
    as [t' [to [found [Hfind [Hent [Hiff Hfound]]]]]].
  assert (Hf : found = true).
  { apply Hiff. unfold totalDecompressedSize. rewrite Hes. exact Hot. }
  subst found. destruct (Hfound eq_refl) as [Hj [Hto [Hlo Hhi]]].
  change (NumEntries tbl) with (NumEntries t) in Hj.
  assert (Ht' : t' = tbl).
  { unfold Find in Hfind. cbn [CacheOffsets tbl cached bind] in Hfind.
    destruct (if len (cachedOffsets (mkTable (entries t) true (offsetsOf t))) <? 32
              then _ else _) as [r| |]; cbn [bind] in Hfind; try discriminate.
    injection Hfind as <- _. reflexivity. }
  set (j := Z.to_nat (EntryIndex to)).
  assert (Hjz : EntryIndex to = Z.of_nat j) by (subst j; lia).
  rewrite Hto in Hlo, Hhi. rewrite Hjz in Hlo, Hhi.
  unfold offsetAt, entryAt in Hlo, Hhi. rewrite Hes, Nat2Z.id in Hlo, Hhi.
  cbn [EntryOffsetInDecompressed EntryIndex] in Hlo, Hhi.
  rewrite Nat2Z.id in Hhi.
  assert (Hjn : (j < length (table_entries t))%nat) by (subst j; lia).
  assert (Hstepj : sumD (firstn (S j) (table_entries t))
                   = sumD (firstn j (table_entries t))
                     + DecompressedSize (nth j (table_entries t) zeroEntry)).
  { apply sumD_step. exact Hjn. }
  assert (Hji : j = i).
  { destruct (Nat.lt_trichotomy j i) as [Hlt|[Heq|Hgt]]; [|exact Heq|].
    - pose proof (sumD_firstn_mono (table_entries t) (S j) i Hr ltac:(lia)).
      subst o. lia.
    - pose proof (sumD_firstn_mono (table_entries t) (S i) j Hr ltac:(lia)).
      subst o. lia. }
  rewrite Hfind, Ht', Hto, Hjz, Hji.
  unfold offsetAt. rewrite Hes. reflexivity.
Qed.

Lemma Seek_from_start (s : list byte) (i o : Z) :
  0 <= o ->
  BytesReader_Seek (mkBytesReader s i) o SeekStart
  = (mkBytesReader s o, (o, None)).
Proof.
  intros Ho. unfold BytesReader_Seek, SeekStart. cbn [Z.eqb orb].
  destruct (o <? 0) eqn:E; [lia|reflexivity].
Qed.

Section ReadProofs.
Variable DecodeAll : list byte -> list byte * option error.
Variable s : list byte.
Variable t : Table.
Variable frames : list (list byte).
Hypothesis HS : Stored DecodeAll s t frames.

Lemma Stored_length : length frames = Z.to_nat (NumEntries t).
Proof. destruct HS as [Hn _]. unfold len in Hn. lia. Qed.

Lemma Stored_entries_length : length (table_entries t) = length frames.
Proof.
  pose proof (table_entries_length t) as Hl. unfold len in Hl.
  rewrite Stored_length. lia.
Qed.

Lemma Stored_frame (i : nat) :
  (i < length frames)%nat ->
  DecompressedSize (entryAt t (Z.of_nat i)) = len (nth i frames [])
  /\ 1 <= len (nth i frames []) < 4294967296.
Proof.
  intros Hi. destruct HS as [_ [_ Hall]].
  destruct (Hall i Hi) as [_ [_ [Hd H1]]].
  unfold entryAt. rewrite Nat2Z.id. split; [exact Hd|].
  split; [exact H1|]. rewrite <- Hd.
  pose proof (table_entries_in_range t) as Hr.
  pose proof (nth_in_range (table_entries t) i Hr) as [_ He]. lia.
Qed.

Lemma Stored_sumD (i : nat) :
  (i <= length frames)%nat ->
  sumD (firstn i (table_entries t)) = len (concat (firstn i frames)).
Proof.
  induction i as [|i IH]; intros Hi; [reflexivity|].
  rewrite sumD_step by (rewrite Stored_entries_length; lia).
  rewrite concat_firstn_S by lia. rewrite len_app, IH by lia.
  destruct (Stored_frame i ltac:(lia)) as [Hd _].
  unfold entryAt in Hd. rewrite Nat2Z.id in Hd. rewrite Hd.
  reflexivity.
Qed.

Lemma Stored_total : totalDecompressedSize t = len (concat frames).
Proof.
  unfold totalDecompressedSize.
  rewrite <- (firstn_all (table_entries t)). rewrite Stored_entries_length.
  rewrite Stored_sumD by lia. rewrite firstn_all. reflexivity.
Qed.

Lemma Stored_total_bound : len (concat frames) < 2305843009213693952.
Proof.
  rewrite <- Stored_total. destruct HS as [_ [Hlen _]].
  pose proof (NumEntries_bounds t) as Hn.
  pose proof (table_entries_length t) as Hl.
  pose proof (sumD_bound _ (table_entries_in_range t)) as Hb.
  unfold totalDecompressedSize. rewrite Hl in Hb. lia.
Qed.

Lemma Stored_prefix_le (i : nat) :
  len (concat (firstn i frames)) <= len (concat frames).
Proof.
  rewrite <- (firstn_skipn i frames) at 2. rewrite concat_app, len_app.
  pose proof (len_nonneg (concat (skipn i frames))). lia.
Qed.

(** Loading the current frame. *)
Lemma loadFrame_ok (rd : SzReader.reader BytesReader) (bf : SzRead.buffers) (i : nat) :
  rd_s (SzReader.r rd) = s ->
  SzReader.seekTable rd = mkTable (entries t) true (offsetsOf t) ->
  (i < length frames)%nat ->
  0 <= SzReader.currentFrameReaded rd < len (nth i frames []) ->
  SzReader.offset rd
  = len (concat (firstn i frames)) + SzReader.currentFrameReaded rd ->
  exists src backing,
    SzRead.loadFrame DecodeAll rd bf
    = Done (SzReader.mkReader src (SzReader.seekTable rd) (SzReader.offset rd)
              (SzReader.totalCompressedDataSize rd)
              (SzReader.totalUncompressedDataSize rd)
              (SzReader.currentFrameIndex rd) true
              (SzReader.currentFrameReaded rd),
            SzRead.mkBuffers (nth i frames []) (len (nth i frames [])) backing,
            None)
    /\ rd_s src = s.
Proof.
  intros Hs Htbl Hi Ha Hoff.
  pose proof HS as [Hn [Hlen Hall]].
  destruct (Hall i Hi) as [Hfit [Hdec [Hd H1]]]. cbv zeta in Hfit, Hdec.
  pose proof (Stored_frame i Hi) as [Hd' _].
  pose proof (table_entries_in_range t) as Hr.
  pose proof (nth_in_range (table_entries t) i Hr) as [HC _].
  pose proof (sumC_nonneg _ (Forall_firstn_range (table_entries t) i Hr)) as HC0.
  pose proof (len_nonneg s) as Hs0.
  unfold SzRead.loadFrame.
  rewrite Htbl, Hoff, <- (Stored_sumD i) by lia.
  rewrite (Find_cached_frame t i (SzReader.currentFrameReaded rd) Hlen)
    by (rewrite ?Hd'; try (rewrite <- Stored_length); lia).
  cbn [bind fst snd negb SzReader.r SzReader.seekTable SzReader.offset
       SzReader.totalCompressedDataSize SzReader.totalUncompressedDataSize
       SzReader.currentFrameIndex SzReader.currentFrameLoaded
       SzReader.currentFrameReaded offsetAt EntryOffsetInCompressed EntryIndex].
  rewrite Nat2Z.id.
  assert (HCb : sumC (firstn i (table_entries t)) < 9223372036854775808).
  { pose proof (sumC_firstn_le (table_entries t) i Hr).
    pose proof (sumC_bound _ Hr) as Hb.
    pose proof (table_entries_length t) as Hl. rewrite Hl in Hb.
    pose proof (NumEntries_bounds t). lia. }
  rewrite i64_small by lia.
  destruct (SzReader.r rd) as [s0 i0] eqn:Er. cbn [rd_s] in Hs. subst s0.
  cbn [io_Seek io_ReadFull BytesReader_ReadSeeker].
  rewrite Seek_from_start by lia.
  cbn [SzReader.r SzReader.seekTable].
  rewrite (GetEntry_in_range (mkTable (entries t) true (offsetsOf t)))
    by (change (NumEntries (mkTable (entries t) true (offsetsOf t)))
          with (NumEntries t); rewrite <- Hn; unfold len; lia).
  cbn [bind].
  replace (entryAt (mkTable (entries t) true (offsetsOf t)) (Z.of_nat i))
    with (nth i (table_entries t) zeroEntry)
    by (unfold entryAt; rewrite Nat2Z.id;
        rewrite (table_entries_ext (mkTable (entries t) true (offsetsOf t)) t eq_refl);
        reflexivity).
  set (C := CompressedSize (nth i (table_entries t) zeroEntry)) in *.
  set (off := sumC (firstn i (table_entries t))) in *.
  rewrite ReadFull_eq by lia.
  set (backing0 := if len (SzRead.compressedDataBuffer bf) <? C
                   then repeat x00 (Z.to_nat C)
                   else SzRead.compressedDataBuffer bf).
  assert (Hb0 : C <= len backing0).
  { subst backing0. destruct (len (SzRead.compressedDataBuffer bf) <? C) eqn:E.
    - unfold len. rewrite repeat_length. lia.
    - lia. }
  destruct (C <=? 0) eqn:Ez.
  - (* an entry of compressed size zero: nothing is read *)
    assert (HC' : C = 0) by lia.
    cbn [length skipn app]. rewrite HC' in Hdec |- *.
    change (Z.to_nat 0) with 0%nat in Hdec |- *. rewrite firstn_O in Hdec |- *.
    rewrite Hdec.
    do 2 eexists. split; [reflexivity|reflexivity].
  - destruct (len s <=? off) eqn:Ee; [lia|].
    destruct (C <=? len s - off) eqn:Ef; [|lia].
    set (bs := firstn (Z.to_nat C) (skipn (Z.to_nat off) s)) in *.
    assert (Hbs : length bs = Z.to_nat C).
    { subst bs. rewrite length_firstn, length_skipn. unfold len in *. lia. }
    rewrite firstn_app, Hbs, Nat.sub_diag, firstn_O, app_nil_r.
    rewrite firstn_all2 by lia.
    rewrite Hdec.
    do 2 eexists. split; [reflexivity|reflexivity].
Qed.
(** One call of [Read] before the end of the data. *)
Lemma Read_step (rd : SzReader.reader BytesReader) (bf : SzRead.buffers)
      (p : list byte) :
  ReadInv s t frames rd bf ->
  SzReader.currentFrameIndex rd < NumEntries t ->
  exists rd' bf' k,
    SzRead.Read DecodeAll rd bf p
    = Done (rd', bf',
            (firstn (Z.to_nat k)
               (skipn (Z.to_nat (SzReader.offset rd)) (concat frames))
             ++ skipn (Z.to_nat k) p,
             (k, None)))
    /\ k = Z.min (len p)
             (len (concat (firstn (S (Z.to_nat (SzReader.currentFrameIndex rd)))
                             frames))
              - SzReader.offset rd)
    /\ SzReader.offset rd' = SzReader.offset rd + k
    /\ ReadInv s t frames rd' bf'.
Proof.
  intros [Hs [Htbl [Htot [i [Hi [Hile [Ha0 [Hoff [Hlt [Heq Hload]]]]]]]]]] Hidx.
  pose proof HS as [Hn _].
  assert (Hin : (i < length frames)%nat) by (unfold len in Hn; lia).
  specialize (Hlt Hin).
  destruct (Stored_frame i Hin) as [_ HL].
  pose proof (len_nonneg p) as Hp0.
  pose proof Stored_total_bound as HT.
  pose proof (Stored_prefix_le (S i)) as HpreS.
  pose proof (len_nonneg (concat (firstn i frames))) as Hpre0.
  assert (HcatS : len (concat (firstn (S i) frames))
                  = len (concat (firstn i frames)) + len (nth i frames []))
    by (rewrite concat_firstn_S by lia; apply len_app).
  set (fr := nth i frames []) in *.
  set (a := SzReader.currentFrameReaded rd) in *.
  set (k := Z.min (len p) (len fr - a)).
  assert (Hk : 0 <= k /\ k <= len p /\ a + k <= len fr) by lia.
  assert (Hload' : exists src backing,
            (if SzReader.currentFrameLoaded rd then Done (rd, bf, None)
             else SzRead.loadFrame DecodeAll rd bf)
            = Done (SzReader.mkReader src (SzReader.seekTable rd) (SzReader.offset rd)
                      (SzReader.totalCompressedDataSize rd)
                      (SzReader.totalUncompressedDataSize rd)
                      (SzReader.currentFrameIndex rd) true a,
                    SzRead.mkBuffers fr (len fr) backing, None)
            /\ rd_s src = s).
  { destruct (SzReader.currentFrameLoaded rd) eqn:El.
    - destruct (Hload eq_refl) as [_ [Hb Hav]].
      exists (SzReader.r rd), (SzRead.compressedDataBuffer bf).
      split; [|exact Hs].
      destruct rd, bf. cbn in *. subst. reflexivity.
    - apply (loadFrame_ok rd bf i Hs Htbl Hin); [split; assumption|exact Hoff]. }
  destruct Hload' as [src [backing [Hl Hsrc]]].
  exists (if len fr <=? a + k
          then SzReader.mkReader src (SzReader.seekTable rd) (SzReader.offset rd + k)
                 (SzReader.totalCompressedDataSize rd)
                 (SzReader.totalUncompressedDataSize rd)
                 (Z.of_nat (S i)) false 0
          else SzReader.mkReader src (SzReader.seekTable rd) (SzReader.offset rd + k)
                 (SzReader.totalCompressedDataSize rd)
                 (SzReader.totalUncompressedDataSize rd)
                 (Z.of_nat i) true (a + k)),
         (if len fr <=? a + k
          then SzRead.mkBuffers fr 0 backing
          else SzRead.mkBuffers fr (len fr) backing),
         k.
  split; [|split; [|split]].
  - unfold SzRead.Read.
    replace (NumEntries (SzReader.seekTable rd)) with (NumEntries t)
      by (rewrite Htbl; reflexivity).
    destruct (NumEntries t <=? SzReader.currentFrameIndex rd) eqn:Ee; [lia|].
    rewrite Hl.
    cbn [bind SzReader.r SzReader.seekTable SzReader.offset
         SzReader.totalCompressedDataSize SzReader.totalUncompressedDataSize
         SzReader.currentFrameIndex SzReader.currentFrameLoaded
         SzReader.currentFrameReaded SzRead.currentFrameBuffer
         SzRead.currentFrameAvailable SzRead.compressedDataBuffer].
    rewrite (i64_small (len fr - a)) by lia. fold k.
    rewrite (i64_small (a + k)) by lia.
    rewrite slice_prefix by lia.
    rewrite slice_ok by lia.
    cbn [bind].
    replace (a + k - a) with k by lia.
    assert (Hc1 : length (firstn (Z.to_nat k) p) = Z.to_nat k)
      by (rewrite length_firstn; unfold len in *; lia).
    assert (Hc2 : length (firstn (Z.to_nat k) (skipn (Z.to_nat a) fr)) = Z.to_nat k)
      by (rewrite length_firstn, length_skipn; unfold len in *; lia).
    rewrite Hc1, Hc2, Nat.min_id.
    rewrite (firstn_all2 (n := Z.to_nat k)
               (firstn (Z.to_nat k) (skipn (Z.to_nat a) fr))) by lia.
    rewrite (u64_small k) by lia.
    rewrite (u64_small (SzReader.offset rd + k)) by lia.
    assert (Hib : 0 <= SzReader.currentFrameIndex rd + 1 < 4294967296).
    { pose proof (NumEntries_bounds t). destruct HS as [_ [Hlen _]]. lia. }
    rewrite (i64_small (SzReader.currentFrameIndex rd + 1)) by lia.
    pose proof (frame_segment frames i a k Hin ltac:(lia) ltac:(lia)
                  ltac:(change (nth i frames []) with fr; lia)) as Hseg.
    change (nth i frames []) with fr in Hseg. rewrite Hseg.
    rewrite <- Hoff.
    destruct (len fr <=? a + k) eqn:Efull.
    + rewrite Hi. replace (Z.of_nat i + 1) with (Z.of_nat (S i)) by lia.
      reflexivity.
    + rewrite Hi. reflexivity.
  - rewrite Hi, Nat2Z.id, HcatS, Hoff. subst k. f_equal. lia.
  - destruct (len fr <=? a + k); reflexivity.
  - destruct (len fr <=? a + k) eqn:Efull.
    + unfold ReadInv.
      cbn [SzReader.r SzReader.seekTable SzReader.offset
           SzReader.totalUncompressedDataSize SzReader.currentFrameIndex
           SzReader.currentFrameLoaded SzReader.currentFrameReaded].
      split; [exact Hsrc|]. split; [exact Htbl|]. split; [exact Htot|].
      exists (S i). split; [reflexivity|]. split; [lia|]. split; [lia|].
      split; [rewrite HcatS, Hoff; lia|].
      split; [|split; [reflexivity|discriminate]].
      intros Hlt'. destruct (Stored_frame (S i) Hlt') as [_ H1]. lia.
    + unfold ReadInv.
      cbn [SzReader.r SzReader.seekTable SzReader.offset
           SzReader.totalUncompressedDataSize SzReader.currentFrameIndex
           SzReader.currentFrameLoaded SzReader.currentFrameReaded
           SzRead.currentFrameBuffer SzRead.currentFrameAvailable].
      split; [exact Hsrc|]. split; [exact Htbl|]. split; [exact Htot|].
      exists i. split; [reflexivity|]. split; [lia|]. split; [lia|].
      split; [rewrite Hoff; lia|].
      split; [intros _; change (nth i frames []) with fr; lia|].
      split; [intros; lia|].
      intros _. split; [exact Hin|]. split; reflexivity.
Qed.

(** [Read] at the end of the data. *)
Lemma Read_at_end (rd : SzReader.reader BytesReader) (bf : SzRead.buffers)
      (p : list byte) :
  ReadInv s t frames rd bf ->
  NumEntries t <= SzReader.currentFrameIndex rd ->
  SzRead.Read DecodeAll rd bf p = Done (rd, bf, (p, (0, Some EOF)))
  /\ SzReader.offset rd = len (concat frames).
Proof.
  intros [Hs [Htbl [Htot [i [Hi [Hile [Ha0 [Hoff [Hlt [Heq Hload]]]]]]]]]] Hidx.
  pose proof HS as [Hn _].
  assert (Hin : i = length frames) by (unfold len in Hn; lia).
  split.
  - unfold SzRead.Read. rewrite Htbl.
    change (NumEntries (mkTable (entries t) true (offsetsOf t))) with (NumEntries t).
    destruct (NumEntries t <=? SzReader.currentFrameIndex rd) eqn:Ee; [|lia].
    reflexivity.
  - rewrite Hoff, (Heq Hin), Hin, firstn_all. lia.
Qed.

(** Reading to the end, from any state between two calls: what is left of
    the data from the offset on. *)
Lemma readAll_rest (m : Z) :
  1 <= m ->
  forall (fuel : nat) (rd : SzReader.reader BytesReader) (bf : SzRead.buffers)
         (acc : list byte),
  ReadInv s t frames rd bf ->
  len (concat frames) - SzReader.offset rd < Z.of_nat fuel ->
  readAll DecodeAll fuel rd bf m acc
  = Done (acc ++ skipn (Z.to_nat (SzReader.offset rd)) (concat frames), None).
Proof.
  intros Hm. induction fuel as [|fuel IH]; intros rd bf acc Hinv Hfuel.
  - exfalso.
    destruct Hinv as [_ [_ [_ [i [_ [Hile [Ha0 [Hoff [Hlt [Heq _]]]]]]]]]].
    pose proof (Stored_prefix_le i).
    destruct (Nat.eq_dec i (length frames)) as [E|E].
    + rewrite (Heq E), E, firstn_all in Hoff. lia.
    + specialize (Hlt ltac:(lia)).
      pose proof (Stored_prefix_le (S i)) as HS1.
      rewrite concat_firstn_S, len_app in HS1 by lia. lia.
  - cbn [readAll].
    destruct (Z_lt_le_dec (SzReader.currentFrameIndex rd) (NumEntries t)) as [Hlt|Hge].
    + destruct (Read_step rd bf (repeat x00 (Z.to_nat m)) Hinv Hlt)
        as [rd' [bf' [k [Hrun [Hk [Hoff' Hinv']]]]]].
      rewrite Hrun. cbn [bind].
      assert (Hlenp : len (repeat x00 (Z.to_nat m)) = m)
        by (unfold len; rewrite repeat_length; lia).
      rewrite Hlenp in Hk.
      pose proof Hinv as [_ [_ [_ [i [Hi [Hile [Ha0 [Hoff [Hlti _]]]]]]]]].
      pose proof HS as [Hn _].
      assert (Hin : (i < length frames)%nat) by (unfold len in Hn; lia).
      specialize (Hlti Hin).
      rewrite Hi, Nat2Z.id in Hk.
      pose proof (Stored_prefix_le (S i)) as HS1.
      pose proof (len_nonneg (concat (firstn i frames))) as Hpre0.
      assert (HcatS : len (concat (firstn (S i) frames))
                      = len (concat (firstn i frames)) + len (nth i frames []))
        by (rewrite concat_firstn_S by lia; apply len_app).
      assert (Hk1 : 1 <= k /\ SzReader.offset rd + k <= len (concat frames)) by lia.
      set (D := concat frames) in *.
      set (o := SzReader.offset rd) in *.
      assert (Hpiece : length (firstn (Z.to_nat k) (skipn (Z.to_nat o) D)) = Z.to_nat k)
        by (rewrite length_firstn, length_skipn; unfold len in *; lia).
      rewrite firstn_app, Hpiece, Nat.sub_diag, firstn_O, app_nil_r.
      rewrite firstn_all2 by lia.
      rewrite (IH rd' bf' _ Hinv') by lia.
      rewrite Hoff'. rewrite <- app_assoc.
      replace (Z.to_nat (o + k)) with (Z.to_nat k + Z.to_nat o)%nat by lia.
      rewrite <- skipn_skipn, firstn_skipn. reflexivity.
    + destruct (Read_at_end rd bf (repeat x00 (Z.to_nat m)) Hinv Hge) as [Hrun Hoff].
      rewrite Hrun. cbn [bind]. change (Z.to_nat 0) with 0%nat. rewrite firstn_O.
      rewrite Hoff, skipn_all2 by (unfold len; lia). reflexivity.
Qed.
(** [Find] on the cached table of the reader, for an offset inside the data. *)
Lemma Find_cached_any (o : Z) :
  0 <= o < len (concat frames) ->
  exists j : nat,
    (j < length frames)%nat
    /\ Find (mkTable (entries t) true (offsetsOf t)) o
       = Done (mkTable (entries t) true (offsetsOf t), (offsetAt t (Z.of_nat j), true))
    /\ len (concat (firstn j frames)) <= o
       < len (concat (firstn j frames)) + len (nth j frames []).
Proof.
  intros Ho. pose proof HS as [Hn [Hlen _]].
  set (tbl := mkTable (entries t) true (offsetsOf t)).
  pose proof (fits64_small t Hlen) as Hfit.
  assert (Hes : table_entries tbl = table_entries t)
    by (apply table_entries_ext; reflexivity).
  destruct (Find_frame tbl o (fresh_cached t Hfit)
              (fits64_ext t tbl eq_refl Hfit) ltac:(lia))
    as [t' [to [found [Hfind [Hent [Hiff Hfound]]]]]].
  assert (Hf : found = true).
  { apply Hiff. unfold totalDecompressedSize. rewrite Hes.
    fold (totalDecompressedSize t). rewrite Stored_total. lia. }
  subst found. destruct (Hfound eq_refl) as [Hj [Hto [Hlo Hhi]]].
  change (NumEntries tbl) with (NumEntries t) in Hj.
  assert (Ht' : t' = tbl).
  { unfold Find in Hfind. cbn [CacheOffsets tbl cached bind] in Hfind.
    destruct (if len (cachedOffsets (mkTable (entries t) true (offsetsOf t))) <? 32
              then _ else _) as [r| |]; cbn [bind] in Hfind; try discriminate.
    injection Hfind as <- _. reflexivity. }
  exists (Z.to_nat (EntryIndex to)).
  assert (Hjn : (Z.to_nat (EntryIndex to) < length frames)%nat)
    by (unfold len in Hn; lia).
  split; [exact Hjn|].
  assert (Hjz : Z.of_nat (Z.to_nat (EntryIndex to)) = EntryIndex to) by lia.
  split.
  - rewrite Hfind, Ht', Hjz. rewrite Hto at 1.
    unfold offsetAt. rewrite Hes. reflexivity.
  - rewrite Hto in Hlo, Hhi.
    unfold offsetAt, entryAt in Hlo, Hhi. rewrite Hes in Hlo, Hhi.
    cbn [EntryOffsetInDecompressed EntryIndex] in Hlo, Hhi.
    rewrite Stored_sumD in Hlo, Hhi by lia.
    destruct (Stored_frame (Z.to_nat (EntryIndex to)) Hjn) as [Hd _].
    unfold entryAt in Hd. rewrite Hjz in Hd. rewrite Hd in Hhi.
    split; assumption.
Qed.

(** [Seek] from the start to an offset inside the data. *)
Lemma Seek_inside (rd : SzReader.reader BytesReader) (bf : SzRead.buffers) (o : Z) :
  ReadInv s t frames rd bf ->
  0 <= o < len (concat frames) ->
  exists rd',
    SzReader.Seek rd o SeekStart = Done (rd', (o, None))
    /\ SzReader.offset rd' = o
    /\ ReadInv s t frames rd' bf.
Proof.
  intros [Hs [Htbl [Htot [i [Hi [Hile [Ha0 [Hoff [Hlt [Heq Hload]]]]]]]]]] Ho.
  pose proof Stored_total_bound as HT.
  destruct (Find_cached_any o Ho) as [j [Hj [Hfind [Hlo Hhi]]]].
  pose proof (len_nonneg (concat (firstn j frames))) as Hpre0.
  set (start := len (concat (firstn j frames))) in *.
  assert (Hrun : SzReader.Seek rd o SeekStart
                 = Done (SzReader.mkReader (SzReader.r rd) (SzReader.seekTable rd) o
                           (SzReader.totalCompressedDataSize rd)
                           (SzReader.totalUncompressedDataSize rd)
                           (Z.of_nat j)
                           (if Z.of_nat j =? Z.of_nat i
                            then SzReader.currentFrameLoaded rd else false)
                           (o - start),
                         (o, None))).
  { unfold SzReader.Seek. rewrite Z.eqb_refl.
    destruct (o <? 0) eqn:En; [lia|].
    rewrite (u64_small o) by lia.
    unfold SzReader.moveTo. rewrite Htot.
    destruct (len (concat frames) <? o) eqn:Eb; [lia|].
    rewrite Htbl, Hfind.
    cbn [bind fst snd negb SzReader.r SzReader.seekTable SzReader.offset
         SzReader.totalCompressedDataSize SzReader.totalUncompressedDataSize
         SzReader.currentFrameIndex SzReader.currentFrameLoaded
         SzReader.currentFrameReaded offsetAt EntryOffsetInDecompressed EntryIndex].
    rewrite Nat2Z.id, Stored_sumD by lia. fold start.
    rewrite (u64_small (o - start)) by lia.
    rewrite (i64_small (o - start)) by lia.
    rewrite (i64_small o) by lia.
    rewrite Hi.
    destruct (Z.of_nat j =? Z.of_nat i) eqn:Eji; cbn [negb].
    - apply Z.eqb_eq in Eji. rewrite Eji. reflexivity.
    - reflexivity. }
  eexists. split; [exact Hrun|]. split; [reflexivity|].
  unfold ReadInv.
  cbn [SzReader.r SzReader.seekTable SzReader.offset
       SzReader.totalUncompressedDataSize SzReader.currentFrameIndex
       SzReader.currentFrameLoaded SzReader.currentFrameReaded].
  split; [exact Hs|]. split; [exact Htbl|]. split; [exact Htot|].
  exists j. split; [reflexivity|]. split; [lia|]. split; [lia|].
  split; [fold start; lia|].
  split; [intros _; lia|]. split; [intros; lia|].
  destruct (Z.of_nat j =? Z.of_nat i) eqn:Eji; [|discriminate].
  apply Z.eqb_eq in Eji. apply Nat2Z.inj in Eji. subst j. exact Hload.
Qed.
End ReadProofs.

Lemma ReadInv_position (DecodeAll : list byte -> list byte * option error)
      (s : list byte) (t : Table) (frames : list (list byte))
      (rd : SzReader.reader BytesReader) (bf : SzRead.buffers) :
  Stored DecodeAll s t frames -> ReadInv s t frames rd bf ->
  (SzReader.currentFrameIndex rd < NumEntries t
   <-> SzReader.offset rd < len (concat frames))
  /\ 0 <= SzReader.offset rd <= len (concat frames)
  /\ len (concat (firstn (S (Z.to_nat (SzReader.currentFrameIndex rd))) frames))
     <= len (concat frames).
Proof.
  intros HS [Hs [Htbl [Htot [i [Hi [Hile [Ha0 [Hoff [Hlt [Heq Hload]]]]]]]]]].
  pose proof HS as [Hn _]. unfold len in Hn.
  pose proof (Stored_prefix_le frames i) as Hp.
  pose proof (Stored_prefix_le frames (S i)) as HpS.
  pose proof (len_nonneg (concat (firstn i frames))) as Hp0.
  rewrite Hi, Nat2Z.id.
  destruct (Nat.eq_dec i (length frames)) as [E|E].
  - rewrite (Heq E) in Hoff. rewrite E, firstn_all in Hoff.
    repeat split; try lia.
  - specialize (Hlt ltac:(lia)).
    rewrite concat_firstn_S, len_app in HpS by lia.
    repeat split; try lia.
    rewrite concat_firstn_S, len_app by lia. lia.
Qed.

Lemma exampleStored : Stored unframeAll framedStream framedTable exampleFrames.
Proof.
  split; [reflexivity|]. split; [reflexivity|].
  intros i Hi. destruct i as [|[|[|i]]]; [| | |cbn in Hi; lia];
    (split; [vm_compute; discriminate|]);
    (split; [reflexivity|]); (split; [reflexivity|vm_compute; discriminate]).
Qed.

Lemma exampleReadInv :
  ReadInv framedStream framedTable exampleFrames framedReader SzRead.noBuffers.
Proof.
  split; [reflexivity|]. split; [reflexivity|]. split; [reflexivity|].
  exists 0%nat. cbn [framedReader SzReader.currentFrameIndex
                     SzReader.currentFrameReaded SzReader.offset
                     SzReader.currentFrameLoaded].
  split; [reflexivity|]. split; [cbn; lia|]. split; [lia|].
  split; [reflexivity|]. split; [intros _; reflexivity|].
  split; [reflexivity|discriminate].
Qed.

(* ------------------------------------------------------------------ *)
(** ** [Read], [Seek] and the data of the frames *)

(** X15. [Read] hands out the decompressed data in order. Over a stream
    that stores its frames as the table says, in a state between two
    calls: before the end of the data [Read] returns a nil error and
    [k = min(len(p), rest of the current frame)] bytes, at least one for a
    non-empty [p]; the first [k] bytes of [p] are the data at the offset,
    the rest of [p] is untouched, and the offset moves by [k]. At the end
    of the data it returns 0 and [io.EOF] and changes nothing. *)
Theorem Read_correct (DecodeAll : list byte -> list byte * option error)
        (s : list byte) (t : Table) (frames : list (list byte))
        (rd : SzReader.reader BytesReader) (bf : SzRead.buffers) (p : list byte) :
  Stored DecodeAll s t frames -> ReadInv s t frames rd bf ->
  (SzReader.offset rd < len (concat frames) ->
   exists rd' bf' k,
     SzRead.Read DecodeAll rd bf p
     = Done (rd', bf',
             (firstn (Z.to_nat k)
                (skipn (Z.to_nat (SzReader.offset rd)) (concat frames))
              ++ skipn (Z.to_nat k) p,
              (k, None)))
     /\ k = Z.min (len p)
              (len (concat (firstn (S (Z.to_nat (SzReader.currentFrameIndex rd)))
                              frames))
               - SzReader.offset rd)
     /\ 0 <= k <= len p
     /\ (1 <= len p -> 1 <= k)
     /\ SzReader.offset rd' = SzReader.offset rd + k
     /\ SzReader.offset rd' <= len (concat frames)
     /\ ReadInv s t frames rd' bf')
  /\ (len (concat frames) <= SzReader.offset rd ->
      SzRead.Read DecodeAll rd bf p = Done (rd, bf, (p, (0, Some EOF)))).
Proof.
  intros HS Hinv.
  destruct (ReadInv_position DecodeAll s t frames rd bf HS Hinv) as [Hpos [Ho HpS]].
  split.
  - intros Hlt. apply Hpos in Hlt.
    destruct (Read_step DecodeAll s t frames HS rd bf p Hinv Hlt)
      as [rd' [bf' [k [Hrun [Hk [Hoff' Hinv']]]]]].
    exists rd', bf', k. split; [exact Hrun|]. split; [exact Hk|].
    pose proof (len_nonneg p) as Hp0.
    pose proof Hinv as [_ [_ [_ [i [Hi [Hile [Ha0 [Hoff [Hlti _]]]]]]]]].
    pose proof HS as [Hn _]. unfold len in Hn.
    assert (Hin : (i < length frames)%nat) by lia.
    specialize (Hlti Hin).
    rewrite Hi, Nat2Z.id in Hk, HpS.
    assert (HcatS : len (concat (firstn (S i) frames))
                    = len (concat (firstn i frames)) + len (nth i frames []))
      by (rewrite concat_firstn_S by lia; apply len_app).
    split; [lia|]. split; [lia|]. split; [exact Hoff'|]. split; [lia|exact Hinv'].
  - intros Hge.
    apply (Read_at_end DecodeAll s t frames HS rd bf p Hinv). lia.
Qed.

Lemma Read_correct_witness :
  exists rd' bf' k,
    SzRead.Read unframeAll framedReader SzRead.noBuffers [x00; x00; x00]
    = Done (rd', bf',
            (firstn (Z.to_nat k)
               (skipn (Z.to_nat (SzReader.offset framedReader)) (concat exampleFrames))
             ++ skipn (Z.to_nat k) [x00; x00; x00],
             (k, None)))
    /\ k = Z.min (len [x00; x00; x00])
             (len (concat (firstn (S (Z.to_nat (SzReader.currentFrameIndex framedReader)))
                             exampleFrames))
              - SzReader.offset framedReader)
    /\ 0 <= k <= len [x00; x00; x00]
    /\ (1 <= len [x00; x00; x00] -> 1 <= k)
    /\ SzReader.offset rd' = SzReader.offset framedReader + k
    /\ SzReader.offset rd' <= len (concat exampleFrames)
    /\ ReadInv framedStream framedTable exampleFrames rd' bf'.
Proof.
  apply (Read_correct unframeAll framedStream framedTable exampleFrames
           framedReader SzRead.noBuffers [x00; x00; x00]
           exampleStored exampleReadInv).
  reflexivity.
Defined.

(** X16. [Seek] and [Read] together give random access. From any state
    between two calls, [Seek(o, SeekStart)] for [0 <= o < len(data)]
    returns [o] and a nil error, and the calls of [Read] that follow, with
    a buffer of any size [m >= 1], return the data from offset [o] to the
    end and then [io.EOF]. *)
Theorem Seek_readAll (DecodeAll : list byte -> list byte * option error)
        (s : list byte) (t : Table) (frames : list (list byte))
        (rd : SzReader.reader BytesReader) (bf : SzRead.buffers) (o m : Z) :
  Stored DecodeAll s t frames -> ReadInv s t frames rd bf ->
  0 <= o < len (concat frames) -> 1 <= m ->
  exists rd',
    SzReader.Seek rd o SeekStart = Done (rd', (o, None))
    /\ forall fuel : nat,
         len (concat frames) - o < Z.of_nat fuel ->
         readAll DecodeAll fuel rd' bf m []
         = Done (skipn (Z.to_nat o) (concat frames), None).
Proof.
  intros HS Hinv Ho Hm.
  destruct (Seek_inside DecodeAll s t frames HS rd bf o Hinv Ho)
    as [rd' [Hrun [Hoff Hinv']]].
  exists rd'. split; [exact Hrun|].
  intros fuel Hfuel.
  rewrite (readAll_rest DecodeAll s t frames HS m Hm fuel rd' bf [] Hinv')
    by (rewrite Hoff; exact Hfuel).
  rewrite Hoff. reflexivity.
Qed.

Lemma Seek_readAll_witness :
  exists rd',
    SzReader.Seek framedReader 3 SeekStart = Done (rd', (3, None))
    /\ forall fuel : nat,
         len (concat exampleFrames) - 3 < Z.of_nat fuel ->
         readAll unframeAll fuel rd' SzRead.noBuffers 4 []
         = Done (skipn (Z.to_nat 3) (concat exampleFrames), None).
Proof.
  apply (Seek_readAll unframeAll framedStream framedTable exampleFrames
           framedReader SzRead.noBuffers 3 4 exampleStored exampleReadInv).
  - vm_compute. split; [discriminate|reflexivity].
  - lia.
Defined.

(* ------------------------------------------------------------------ *)
(** ** Writing and reading back *)

Lemma framesOf_aux_spec (F : Z) :
  1 <= F ->
  forall (fuel : nat) (data : list byte),
    (length data <= fuel)%nat ->
    concat (framesOf_aux fuel F data) = data
    /\ Forall (fun fr => 1 <= len fr <= F) (framesOf_aux fuel F data).
Proof.
  intros HF. induction fuel as [|fuel IH]; intros data Hfuel.
  - destruct data; [|cbn in Hfuel; lia]. split; [reflexivity|constructor].
  - destruct data as [|b rest]; [split; [reflexivity|constructor]|].
    cbn [framesOf_aux].
    set (data := b :: rest) in *.
    assert (Hd : (1 <= length data)%nat) by (subst data; cbn; lia).
    destruct (IH (skipn (Z.to_nat F) data)) as [Hcat Hall].
    { rewrite length_skipn. lia. }
    split.
    + cbn [concat]. rewrite Hcat. apply firstn_skipn.
    + constructor; [|exact Hall].
      unfold len. rewrite length_firstn. lia.
Qed.

Lemma framesOf_spec (F : Z) (data : list byte) :
  1 <= F ->
  concat (framesOf F data) = data
  /\ Forall (fun fr => 1 <= len fr <= F) (framesOf F data).
Proof. intros HF. apply framesOf_aux_spec; [exact HF|lia]. Qed.

Lemma sumC_frames (EncodeAll : list byte -> list byte) (frames : list (list byte)) :
  Forall (fun fr => len (EncodeAll fr) < 4294967296) frames ->
  sumC (map (entryOfFrame EncodeAll) frames) = len (concat (map EncodeAll frames)).
Proof.
  induction 1 as [|fr frames Hfr _ IH]; [reflexivity|].
  cbn [map concat sumC fold_right entryOfFrame CompressedSize].
  fold (sumC (map (entryOfFrame EncodeAll) frames)).
  rewrite IH, len_app, u32_small by (pose proof (len_nonneg (EncodeAll fr)); lia).
  reflexivity.
Qed.

Lemma Forall_firstn_any {A : Type} (P : A -> Prop) (l : list A) (k : nat) :
  Forall P l -> Forall P (firstn k l).
Proof.
  intros Hl. revert k. induction Hl as [|a l Ha _ IH]; intros k.
  - rewrite firstn_nil. constructor.
  - destruct k; [constructor|]. cbn [firstn]. constructor; [exact Ha|apply IH].
Qed.

Lemma nth_map_frames {B : Type} (f : list byte -> B) (frames : list (list byte))
      (i : nat) (d : B) :
  (i < length frames)%nat -> nth i (map f frames) d = f (nth i frames []).
Proof.
  intros Hi. rewrite (nth_indep _ d (f [])) by (rewrite length_map; exact Hi).
  apply map_nth.
Qed.

(** The stream of a writer stores its frames. *)
Lemma Stored_written (EncodeAll : list byte -> list byte)
      (DecodeAll : list byte -> list byte * option error) (F : Z)
      (frames : list (list byte)) (tbl : Table) (rest : list byte) :
  F < 4294967296 ->
  (forall x, DecodeAll (EncodeAll x) = (x, None)) ->
  (forall x, len x <= F -> 1 <= len (EncodeAll x) < 4294967296) ->
  Forall (fun fr => 1 <= len fr <= F) frames ->
  table_entries tbl = map (entryOfFrame EncodeAll) frames ->
  wfTable tbl -> len frames * 8 + 17 < 4294967296 ->
  Stored DecodeAll (concat (map EncodeAll frames) ++ rest) tbl frames.
Proof.
  intros HF Hdec Henc Hfr Hes Hwf Hsz.
  assert (HN : len frames = NumEntries tbl).
  { rewrite <- table_entries_length, Hes. unfold len. rewrite length_map. reflexivity. }
  assert (Hsmall : Forall (fun fr => len (EncodeAll fr) < 4294967296) frames).
  { eapply Forall_impl; [|exact Hfr]. cbv beta. intros fr Hf.
    apply Henc. lia. }
  split; [exact HN|]. split; [unfold wfTable in Hwf; lia|].
  intros i Hi. cbv zeta.
  rewrite Hes, nth_map_frames by exact Hi.
  rewrite firstn_map.
  rewrite sumC_frames by (apply Forall_firstn_any; exact Hsmall).
  pose proof (proj1 (Forall_forall _ _) Hfr (nth i frames []) (nth_In _ _ Hi)) as Hfi.
  cbv beta in Hfi.
  pose proof (Henc (nth i frames []) ltac:(lia)) as Hei.
  unfold entryOfFrame. cbn [CompressedSize DecompressedSize].
  rewrite (u32_small (len (EncodeAll (nth i frames [])))) by lia.
  rewrite (u32_small (len (nth i frames []))) by lia.
  assert (Hsplit : concat (map EncodeAll frames)
           = concat (map EncodeAll (firstn i frames))
             ++ EncodeAll (nth i frames [])
             ++ concat (skipn (S i) (map EncodeAll frames))).
  { rewrite (concat_split_at (map EncodeAll frames) i)
      by (rewrite length_map; exact Hi).
    rewrite firstn_map, nth_map_frames by exact Hi. reflexivity. }
  set (A := concat (map EncodeAll (firstn i frames))) in *.
  set (B := EncodeAll (nth i frames [])) in *.
  set (C := concat (skipn (S i) (map EncodeAll frames))) in *.
  rewrite Hsplit.
  split.
  { rewrite !len_app. pose proof (len_nonneg C). pose proof (len_nonneg rest). lia. }
  split; [|split; [reflexivity|lia]].
  rewrite <- !app_assoc.
  replace (Z.to_nat (len A)) with (length A) by (unfold len; lia).
  rewrite skipn_app, skipn_all, Nat.sub_diag, skipn_O. cbn [app].
  replace (Z.to_nat (len B)) with (length B) by (unfold len; lia).
  rewrite firstn_app, firstn_all, Nat.sub_diag, firstn_O, app_nil_r.
  apply Hdec.
Qed.

(** X17. Writing and reading back. For a frame size [1 <= F < 2^32] and a
    codec whose decoder inverts its encoder and whose encoded frames are
    not empty and shorter than [2^32] bytes, for a non-empty input whose
    table stays below [2^32] bytes: the writer over an empty buffer
    returns nil errors, [NewReadSeeker] accepts the stream it leaves and
    reports the length of the input as the uncompressed total, and calling
    [Read] with a buffer of any size [m >= 1] until [io.EOF] returns the
    input, however it was split over the calls of [Write]. *)
Theorem Write_Read_roundtrip (EncodeAll : list byte -> list byte)
        (DecodeAll : list byte -> list byte * option error) (F : Z)
        (chunks : list (list byte)) :
  1 <= F < 4294967296 ->
  (forall x, DecodeAll (EncodeAll x) = (x, None)) ->
  (forall x, len x <= F -> 1 <= len (EncodeAll x) < 4294967296) ->
  concat chunks <> [] ->
  len (framesOf F (concat chunks)) * 8 + 17 < 4294967296 ->
  exists c0 c1 c2 src rd,
    SzWriter.NewWriter (mkBuffer []) F None = Done (Ok c0)
    /\ SzWriter.WriteAll EncodeAll c0 chunks = Done (Ok c1)
    /\ SzWriter.Close EncodeAll c1 = Done (c2, None)
    /\ SzReader.NewReadSeeker (NewReader (buf_bytes (SzWriter.w c2))) None
       = Done (src, Ok rd)
    /\ SzReader.totalUncompressedDataSize rd = len (concat chunks)
    /\ forall (m : Z) (fuel : nat),
         1 <= m -> len (concat chunks) < Z.of_nat fuel ->
         readAll DecodeAll fuel rd SzRead.noBuffers m []
         = Done (concat chunks, None).
Proof.
  intros HF Hdec Henc Hne Hsz.
  set (D := concat chunks) in *.
  set (frames := framesOf F D) in *.
  destruct (framesOf_spec F D ltac:(lia)) as [Hcat Hall]. fold frames in Hcat, Hall.
  destruct (WriteAll_stream EncodeAll F [] HF chunks _ []
              (NewWriter_stream EncodeAll F [] HF))
    as [c1 [fs [Hrun [Hinv Hd]]]].
  destruct (Close_stream EncodeAll F [] HF c1 fs Hinv)
    as [c2 [Hc [Hbytes [Hes [Hwf Hca]]]]].
  cbn [concat app SzWriter.frameBuffer] in Hd. fold D in Hd.
  rewrite Hd in Hbytes, Hes. fold frames in Hbytes, Hes.
  cbn [app] in Hbytes.
  set (tbl := SzWriter.seekTable c2) in *.
  set (pre := concat (map EncodeAll frames)) in *.
  assert (Hpos : (0 < length frames)%nat).
  { destruct frames; [|cbn; lia]. cbn in Hcat. congruence. }
  assert (HN : NumEntries tbl = len frames).
  { rewrite <- table_entries_length, Hes. unfold len. rewrite length_map. reflexivity. }
  assert (HS : Stored DecodeAll (pre ++ serialized tbl) tbl frames).
  { apply (Stored_written EncodeAll DecodeAll F); try assumption. lia. }
  assert (Hsmall : Forall (fun fr => len (EncodeAll fr) < 4294967296) frames).
  { eapply Forall_impl; [|exact Hall]. cbv beta. intros fr Hf. apply Henc. lia. }
  assert (HtotC : totalCompressedSize tbl = len pre).
  { unfold totalCompressedSize. rewrite Hes. apply sumC_frames. exact Hsmall. }
  assert (Hfirst : CompressedSize (entryAt tbl 0) <> 0).
  { unfold entryAt. change (Z.to_nat 0) with 0%nat.
    rewrite Hes, nth_map_frames by exact Hpos.
    unfold entryOfFrame. cbn [CompressedSize].
    pose proof (proj1 (Forall_forall _ _) Hall (nth 0 frames []) (nth_In _ _ Hpos)) as Hf.
    cbv beta in Hf. pose proof (Henc (nth 0 frames []) ltac:(lia)).
    rewrite u32_small by lia. lia. }
  assert (Hlen : len (pre ++ serialized tbl) < 9223372036854775808).
  { rewrite len_app, serialized_length, (wfTable_Size tbl Hwf), <- HtotC.
    pose proof (sumC_bound _ (table_entries_in_range tbl)) as Hb.
    rewrite table_entries_length in Hb. unfold totalCompressedSize.
    unfold len in *. lia. }
  pose proof (NewReadSeeker_serialized tbl pre Hwf ltac:(unfold len in *; lia)
                ltac:(unfold len in *; lia) Hfirst Hlen) as Hnew.
  cbv zeta in Hnew. rewrite HtotC, Z.ltb_irrefl in Hnew.
  exists (SzWriter.mkWriter (mkBuffer []) F [] [] emptyTable false), c1, c2.
  do 2 eexists.
  split.
  { unfold SzWriter.NewWriter. destruct (F <? 0) eqn:E; [lia|reflexivity]. }
  split; [exact Hrun|]. split; [exact Hc|].
  split; [rewrite Hbytes; exact Hnew|].
  cbn [SzReader.totalUncompressedDataSize].
  pose proof (Stored_total DecodeAll _ tbl frames HS) as Htot.
  rewrite Hcat in Htot.
  split; [exact Htot|].
  intros m fuel Hm Hfuel.
  rewrite (readAll_rest DecodeAll (pre ++ serialized tbl) tbl frames HS m Hm).
  - cbn [SzReader.offset app]. change (Z.to_nat 0) with 0%nat.
    rewrite skipn_O, Hcat. reflexivity.
  - unfold ReadInv.
    cbn [SzReader.r SzReader.seekTable SzReader.offset
         SzReader.totalUncompressedDataSize SzReader.currentFrameIndex
         SzReader.currentFrameLoaded SzReader.currentFrameReaded rd_s].
    split; [reflexivity|]. split; [reflexivity|].
    split; [rewrite Hcat; exact Htot|].
    exists 0%nat. split; [reflexivity|]. split; [lia|]. split; [lia|].
    split; [reflexivity|].
    split; [|split; [reflexivity|discriminate]].
    intros _.
    pose proof (proj1 (Forall_forall _ _) Hall (nth 0 frames []) (nth_In _ _ Hpos)) as Hf.
    cbv beta in Hf. lia.
  - cbn [SzReader.offset]. rewrite Hcat. lia.
Qed.

Lemma Write_Read_roundtrip_witness :
  exists c0 c1 c2 src rd,
    SzWriter.NewWriter (mkBuffer []) 2 None = Done (Ok c0)
    /\ SzWriter.WriteAll framedAll c0 [[x01]; [x02; x03; x04]; []; [x05]] = Done (Ok c1)
    /\ SzWriter.Close framedAll c1 = Done (c2, None)
    /\ SzReader.NewReadSeeker (NewReader (buf_bytes (SzWriter.w c2))) None
       = Done (src, Ok rd)
    /\ SzReader.totalUncompressedDataSize rd
       = len (concat [[x01]; [x02; x03; x04]; []; [x05]])
    /\ forall (m : Z) (fuel : nat),
         1 <= m -> len (concat [[x01]; [x02; x03; x04]; []; [x05]]) < Z.of_nat fuel ->
         readAll unframeAll fuel rd SzRead.noBuffers m []
         = Done (concat [[x01]; [x02; x03; x04]; []; [x05]], None).
Proof.
  apply (Write_Read_roundtrip framedAll unframeAll 2
           [[x01]; [x02; x03; x04]; []; [x05]]).
  - lia.
  - intros x. reflexivity.
  - intros x Hx. unfold framedAll. rewrite len_app.
    change (len [x28; xb5; x2f; xfd]) with 4.
    pose proof (len_nonneg x). lia.
  - discriminate.
  - vm_compute. reflexivity.
Defined.

(* ------------------------------------------------------------------ *)
(** ** What a failed [Read] leaves *)

Lemma Find_entries (t t' : Table) (o : Z) (r : TableOffset * bool) :
  Find t o = Done (t', r) -> entries t' = entries t.
Proof.
  unfold Find.
  destruct (CacheOffsets t) as [t1| |] eqn:Ec; cbn [bind]; try discriminate.
  assert (Hent : entries t1 = entries t).
  { unfold CacheOffsets in Ec. destruct (cached t).
    - injection Ec as <-. reflexivity.
    - destruct (computeOffsets t); cbn [bind] in Ec; try discriminate.
      injection Ec as <-. reflexivity. }
  destruct (if len (cachedOffsets t1) <? 32 then _ else _) as [r1| |];
    cbn [bind]; try discriminate.
  intros [= <- _]. exact Hent.
Qed.

(** X18. A [Read] that returns an error returns 0, leaves [p] as it was,
    and leaves the offset, the current-frame index, read count and loaded
    flag, the entries of the table and the number of available bytes
    unchanged: after [io.EOF] or a failed load the next call starts from
    the same position. *)
Theorem Read_error_frame {R : Type} `{ReadSeeker R}
        (DecodeAll : list byte -> list byte * option error)
        (rd rd' : SzReader.reader R) (bf bf' : SzRead.buffers)
        (p p' : list byte) (n : Z) (e : error) :
  SzRead.Read DecodeAll rd bf p = Done (rd', bf', (p', (n, Some e))) ->
  n = 0 /\ p' = p
  /\ SzReader.offset rd' = SzReader.offset rd
  /\ SzReader.currentFrameIndex rd' = SzReader.currentFrameIndex rd
  /\ SzReader.currentFrameReaded rd' = SzReader.currentFrameReaded rd
  /\ SzReader.currentFrameLoaded rd' = SzReader.currentFrameLoaded rd
  /\ entries (SzReader.seekTable rd') = entries (SzReader.seekTable rd)
  /\ SzRead.currentFrameAvailable bf' = SzRead.currentFrameAvailable bf.
Proof.
  unfold SzRead.Read.
  destruct (NumEntries (SzReader.seekTable rd) <=? SzReader.currentFrameIndex rd).
  { intros [= <- <- <- <- _]. repeat split; reflexivity. }
  assert (Hrest : forall (rd1 : SzReader.reader R) (bf1 : SzRead.buffers),
    (let availableToRead :=
       i64 (SzRead.currentFrameAvailable bf1 - SzReader.currentFrameReaded rd1) in
     let toRead := Z.min (len p) availableToRead in
     dst <- slice p 0 toRead ;;
     src <- slice (SzRead.currentFrameBuffer bf1) (SzReader.currentFrameReaded rd1)
                  (i64 (SzReader.currentFrameReaded rd1 + toRead)) ;;
     let copied := Nat.min (length dst) (length src) in
     let p0 := firstn copied src ++ skipn copied p in
     let readed := i64 (SzReader.currentFrameReaded rd1 + toRead) in
     let offset := u64 (SzReader.offset rd1 + u64 toRead) in
     if SzRead.currentFrameAvailable bf1 <=? readed
     then Done (SzReader.mkReader (SzReader.r rd1) (SzReader.seekTable rd1) offset
                  (SzReader.totalCompressedDataSize rd1)
                  (SzReader.totalUncompressedDataSize rd1)
                  (i64 (SzReader.currentFrameIndex rd1 + 1)) false 0,
                SzRead.mkBuffers (SzRead.currentFrameBuffer bf1) 0
                  (SzRead.compressedDataBuffer bf1),
                (p0, (toRead, None)))
     else Done (SzReader.mkReader (SzReader.r rd1) (SzReader.seekTable rd1) offset
                  (SzReader.totalCompressedDataSize rd1)
                  (SzReader.totalUncompressedDataSize rd1)
                  (SzReader.currentFrameIndex rd1) (SzReader.currentFrameLoaded rd1)
                  readed,
                bf1, (p0, (toRead, None))))
    <> Done (rd', bf', (p', (n, Some e)))).
  { intros rd1 bf1. cbv zeta.
    destruct (slice p 0 _) as [dst| |]; cbn [bind]; try discriminate.
    destruct (slice (SzRead.currentFrameBuffer bf1) _ _) as [src| |];
      cbn [bind]; try discriminate.
    destruct (SzRead.currentFrameAvailable bf1 <=? _); discriminate. }
  destruct (SzReader.currentFrameLoaded rd) eqn:El.
  { cbn [bind]. intros Hrun. exfalso. exact (Hrest rd bf Hrun). }
  unfold SzRead.loadFrame.
  destruct (Find (SzReader.seekTable rd) (SzReader.offset rd)) as [[t1 [to found]]| |]
    eqn:Ef; cbn [bind fst snd]; try discriminate.
  pose proof (Find_entries _ _ _ _ Ef) as Hent.
  destruct found; cbn [negb].
  2:{ cbn [bind]. intros [= <- <- <- <- _]. cbn. repeat split; assumption. }
  cbn [SzReader.r SzReader.seekTable SzReader.offset
       SzReader.totalCompressedDataSize SzReader.totalUncompressedDataSize
       SzReader.currentFrameIndex SzReader.currentFrameLoaded
       SzReader.currentFrameReaded].
  destruct (io_Seek (SzReader.r rd) _ SeekStart) as [src1 [n1 [e1|]]].
  { cbn [bind]. intros [= <- <- <- <- _]. cbn. repeat split; assumption. }
  destruct (GetEntry t1 (EntryIndex to)) as [entry| |]; cbn [bind]; try discriminate.
  destruct (io_ReadFull src1 (CompressedSize entry)) as [src2 [bs [e2|]]].
  { cbn [bind]. intros [= <- <- <- <- _]. cbn. repeat split; assumption. }
  destruct (DecodeAll _) as [out [e3|]].
  { cbn [bind]. intros [= <- <- <- <- _]. cbn. repeat split; assumption. }
  cbn [bind]. intros Hrun. exfalso.
  exact (Hrest _ _ Hrun).
Qed.

Lemma Read_error_frame_witness :
  exists rd' bf',
    SzRead.Read (fun _ => ([], Some ErrUnexpectedEOF)) framedReader SzRead.noBuffers
                [x00; x00]
    = Done (rd', bf',
            ([x00; x00],
             (0, Some (Join (New "failed to decode frame for offset") ErrUnexpectedEOF))))
    /\ SzReader.offset rd' = SzReader.offset framedReader
    /\ SzReader.currentFrameLoaded rd' = false.
Proof.
  assert (E : exists rd' bf',
            SzRead.Read (fun _ => ([], Some ErrUnexpectedEOF)) framedReader
                        SzRead.noBuffers [x00; x00]
            = Done (rd', bf',
                    ([x00; x00],
                     (0, Some (Join (New "failed to decode frame for offset")
                                    ErrUnexpectedEOF)))))
    by (do 2 eexists; vm_compute; reflexivity).
  destruct E as [rd' [bf' E]]. exists rd', bf'. split; [exact E|].
  destruct (Read_error_frame _ _ _ _ _ _ _ _ _ E) as [_ [_ [Ho [_ [_ [Hl _]]]]]].
  split; assumption.
Defined.

(* ------------------------------------------------------------------ *)
(** ** A frame shorter than its entry says *)

(** X19. [Read] trusts the decompressed size of the table. When the read
    count of the loaded frame lies beyond the bytes the frame decoded to
    (a [Seek] inside a frame whose entry overstates its size leaves such a
    state), [Read] does not return an error: the count to copy is negative
    and the slice expression [p[:toRead]] panics. *)
Theorem Read_past_decoded_panics {R : Type} `{ReadSeeker R}
        (DecodeAll : list byte -> list byte * option error)
        (rd : SzReader.reader R) (bf : SzRead.buffers) (p : list byte) :
  SzReader.currentFrameIndex rd < NumEntries (SzReader.seekTable rd) ->
  SzReader.currentFrameLoaded rd = true ->
  0 <= SzRead.currentFrameAvailable bf < SzReader.currentFrameReaded rd ->
  SzReader.currentFrameReaded rd < 9223372036854775808 ->
  SzRead.Read DecodeAll rd bf p = Panic.
Proof.
  intros Hidx Hl Hav Hr.
  unfold SzRead.Read.
  destruct (NumEntries (SzReader.seekTable rd) <=? SzReader.currentFrameIndex rd) eqn:E;
    [lia|].
  rewrite Hl. cbn [bind].
  rewrite i64_small by lia.
  pose proof (len_nonneg p) as Hp.
  unfold slice at 1.
  destruct ((0 <=? 0) && (0 <=? Z.min (len p) _) && _) eqn:Es; [|reflexivity].
  apply andb_prop in Es as [Es _]. apply andb_prop in Es as [_ Es]. lia.
Qed.

Lemma Read_past_decoded_panics_witness :
  exists src rd0 rd1 bf1 rd2,
    SzReader.NewReadSeeker (NewReader overstatedStream) None = Done (src, Ok rd0)
    /\ SzRead.Read unframeAll rd0 SzRead.noBuffers [x00]
       = Done (rd1, bf1, ([x01], (1, None)))
    /\ SzReader.Seek rd1 5 SeekStart = Done (rd2, (5, None))
    /\ SzRead.Read unframeAll rd2 bf1 [x00] = Panic.
Proof.
  do 5 eexists.
  split; [vm_compute; reflexivity|].
  split; [vm_compute; reflexivity|].
  split; [vm_compute; reflexivity|].
  apply (Read_past_decoded_panics unframeAll).
  - vm_compute. reflexivity.
  - reflexivity.
  - vm_compute. split; [discriminate|reflexivity].
  - vm_compute. reflexivity.
Defined.

(* ------------------------------------------------------------------ *)
(** ** The end of the data and the number of entries *)

(** X20. [Read] reports [io.EOF] by the frame index, not by the offset.
    When all the data has been read but the current-frame index is still
    below the number of entries (an entry with a decompressed size of zero
    is never the frame [Find] returns, so the index falls behind), [Read]
    returns 0 and the error of a failed [Find] instead of [io.EOF]. *)
Theorem Read_at_total_not_EOF {R : Type} `{ReadSeeker R}
        (DecodeAll : list byte -> list byte * option error)
        (rd : SzReader.reader R) (bf : SzRead.buffers) (p : list byte) :
  fresh (SzReader.seekTable rd) -> fits64 (SzReader.seekTable rd) ->
  SzReader.currentFrameIndex rd < NumEntries (SzReader.seekTable rd) ->
  SzReader.currentFrameLoaded rd = false ->
  totalDecompressedSize (SzReader.seekTable rd) <= SzReader.offset rd ->
  exists rd',
    SzRead.Read DecodeAll rd bf p
    = Done (rd', bf, (p, (0, Some (New "failed to find frame for offset"))))
    /\ SzReader.offset rd' = SzReader.offset rd
    /\ SzReader.currentFrameIndex rd' = SzReader.currentFrameIndex rd.
Proof.
  intros Hfr Hfit Hidx Hl Htot.
  pose proof (sumD_nonneg _ (table_entries_in_range (SzReader.seekTable rd))) as H0.
  fold (totalDecompressedSize (SzReader.seekTable rd)) in H0.
  destruct (Find_frame (SzReader.seekTable rd) (SzReader.offset rd) Hfr Hfit ltac:(lia))
    as [t' [to [found [Hfind [_ [Hiff _]]]]]].
  assert (Hnf : found = false).
  { destruct found; [|reflexivity]. pose proof (proj1 Hiff eq_refl). lia. }
  subst found.
  unfold SzRead.Read.
  destruct (NumEntries (SzReader.seekTable rd) <=? SzReader.currentFrameIndex rd) eqn:E;
    [lia|].
  rewrite Hl. unfold SzRead.loadFrame. rewrite Hfind.
  cbn [bind fst snd negb].
  eexists. split; [reflexivity|]. split; reflexivity.
Qed.

Lemma Read_at_total_not_EOF_witness :
  exists src rd0 rd1 bf1 rd2 bf2,
    SzReader.NewReadSeeker (NewReader emptyFrameStream) None = Done (src, Ok rd0)
    /\ SzRead.Read unframeAll rd0 SzRead.noBuffers [x00; x00; x00; x00]
       = Done (rd1, bf1, ([x01; x02; x00; x00], (2, None)))
    /\ SzRead.Read unframeAll rd1 bf1 [x00; x00; x00; x00]
       = Done (rd2, bf2, ([x05; x00; x00; x00], (1, None)))
    /\ SzReader.offset rd2 = SzReader.totalUncompressedDataSize rd2
    /\ exists rd3,
         SzRead.Read unframeAll rd2 bf2 [x00; x00; x00; x00]
         = Done (rd3, bf2,
                 ([x00; x00; x00; x00],
                  (0, Some (New "failed to find frame for offset"))))
         /\ SzReader.offset rd3 = SzReader.offset rd2
         /\ SzReader.currentFrameIndex rd3 = SzReader.currentFrameIndex rd2.
Proof.
  do 6 eexists.
  split; [vm_compute; reflexivity|].
  split; [vm_compute; reflexivity|].
  split; [vm_compute; reflexivity|].
  split; [vm_compute; reflexivity|].
  apply (Read_at_total_not_EOF unframeAll).
  - right. vm_compute. reflexivity.
  - split; vm_compute; reflexivity.
  - vm_compute. reflexivity.
  - reflexivity.
  - vm_compute. discriminate.
Defined.

(* ------------------------------------------------------------------ *)
(** ** [Write] and the closed flag; [Read] on a loaded frame *)

(** X21. [Write] neither reads nor changes the closed flag: on a writer
    that differs in the flag only it does the same, whatever the sink, and
    leaves the flag as it was. A [Write] after [Close] is therefore not
    refused: it buffers and emits frames as before, behind the seek table
    already written. *)
Theorem Write_ignores_closed {W : Type} `{Writer W}
        (EncodeAll : list byte -> list byte) (b : bool) (fuel : nat) :
  forall (c : SzWriter.writer W) (data : list byte) (n : Z),
  SzWriter.Write_loop EncodeAll fuel (setClosed b c) data n
  = match SzWriter.Write_loop EncodeAll fuel c data n with
    | Done (c', r) => Done (setClosed b c', r)
    | Panic => Panic
    | OutOfFuel => OutOfFuel
    end.
Proof.
  induction fuel as [|fuel IH]; intros c data n.
  - cbn [SzWriter.Write_loop]. destruct (0 <? len data); reflexivity.
  - cbn [SzWriter.Write_loop].
    cbn [setClosed SzWriter.w SzWriter.frameSize SzWriter.frameBuffer
         SzWriter.encoderBuffer SzWriter.seekTable SzWriter.isClosed].
    destruct (0 <? len data); [|reflexivity].
    destruct ((len (SzWriter.frameBuffer c) =? 0) && (SzWriter.frameSize c <=? len data)).
    + destruct (slice data 0 (SzWriter.frameSize c)) as [toEncode| |];
        cbn [bind]; try reflexivity.
      destruct (slice data (SzWriter.frameSize c) (len data)) as [data'| |];
        cbn [bind]; try reflexivity.
      destruct (io_Write (SzWriter.w c) (EncodeAll toEncode)) as [sink [written [e|]]];
        [reflexivity|].
      rewrite AppendEntry_eq. cbn [bind].
      apply (IH (SzWriter.mkWriter sink (SzWriter.frameSize c) (SzWriter.frameBuffer c)
                   (EncodeAll toEncode) _ (SzWriter.isClosed c))).
    + destruct (slice data 0 _) as [chunk| |]; cbn [bind]; try reflexivity.
      destruct (slice data _ (len data)) as [data'| |]; cbn [bind]; try reflexivity.
      destruct (len (SzWriter.frameBuffer c ++ chunk) =? SzWriter.frameSize c).
      * destruct (io_Write (SzWriter.w c) _) as [sink [written [e|]]]; [reflexivity|].
        rewrite AppendEntry_eq. cbn [bind].
        apply (IH (SzWriter.mkWriter sink (SzWriter.frameSize c) []
                     (EncodeAll (SzWriter.frameBuffer c ++ chunk)) _
                     (SzWriter.isClosed c))).
      * apply (IH (SzWriter.mkWriter (SzWriter.w c) (SzWriter.frameSize c)
                     (SzWriter.frameBuffer c ++ chunk) (SzWriter.encoderBuffer c)
                     (SzWriter.seekTable c) (SzWriter.isClosed c))).
Qed.

(** X22. A loaded frame is served from memory. When the current frame is
    loaded, a [Read] that returns leaves the underlying stream, the table,
    the frame buffer and the compressed-data buffer as they were and
    returns a nil error. *)
Theorem Read_loaded_no_io {R : Type} `{ReadSeeker R}
        (DecodeAll : list byte -> list byte * option error)
        (rd rd' : SzReader.reader R) (bf bf' : SzRead.buffers)
        (p p' : list byte) (n : Z) (err : option error) :
  SzReader.currentFrameIndex rd < NumEntries (SzReader.seekTable rd) ->
  SzReader.currentFrameLoaded rd = true ->
  SzRead.Read DecodeAll rd bf p = Done (rd', bf', (p', (n, err))) ->
  err = None
  /\ SzReader.r rd' = SzReader.r rd
  /\ SzReader.seekTable rd' = SzReader.seekTable rd
  /\ SzRead.currentFrameBuffer bf' = SzRead.currentFrameBuffer bf
  /\ SzRead.compressedDataBuffer bf' = SzRead.compressedDataBuffer bf
  /\ n = Z.min (len p)
           (i64 (SzRead.currentFrameAvailable bf - SzReader.currentFrameReaded rd)).
Proof.
  intros Hidx Hl. unfold SzRead.Read.
  destruct (NumEntries (SzReader.seekTable rd) <=? SzReader.currentFrameIndex rd) eqn:E;
    [lia|].
  rewrite Hl. cbn [bind].
  destruct (slice p 0 _) as [dst| |]; cbn [bind]; try discriminate.
  destruct (slice (SzRead.currentFrameBuffer bf) _ _) as [src| |];
    cbn [bind]; try discriminate.
  destruct (SzRead.currentFrameAvailable bf <=? _);
    intros [= <- <- <- <- <-]; cbn; repeat split; reflexivity.
Qed.

Lemma Read_loaded_no_io_witness :
  exists rd1 bf1 rd2 bf2,
    SzRead.Read unframeAll framedReader SzRead.noBuffers [x00]
    = Done (rd1, bf1, ([x01], (1, None)))
    /\ SzRead.Read unframeAll rd1 bf1 [x00] = Done (rd2, bf2, ([x02], (1, None)))
    /\ SzReader.r rd2 = SzReader.r rd1.
Proof.
  do 4 eexists.
  split; [vm_compute; reflexivity|].
  match goal with |- ?A /\ _ => assert (E : A) by (vm_compute; reflexivity) end.
  split; [exact E|].
  refine (proj1 (proj2 (Read_loaded_no_io unframeAll _ _ _ _ _ _ _ _ _ _ E))).
  - vm_compute. reflexivity.
  - reflexivity.
Defined.
